(** * flexwriter/flex: resolution of flex lengths

    A shallow embedding of [src/flex/flex.go] (package [flex]) and the
    properties of [ResolveFlexLengths] and [Item.Validate].

    Go's [int] is modelled as a [Z] kept in the signed 64-bit range: every
    arithmetic operation of the source is followed by its wrap-around
    ([GoInt.wrap]), comparisons are exact.  The [[]Item] slice the caller
    passes is the store the function mutates; the model threads it
    explicitly and hands it back next to the returned widths.

    The second part embeds the callers of [ResolveFlexLengths] in package
    [flexwriter]: the helpers of [functional.go], the decorators, the
    column definitions and the writer up to [computeWidths]. *)

From Stdlib Require Import ZArith List Bool Lia Ascii.
From Stdlib Require String.
Import String.StringSyntax.
Delimit Scope string_scope with string.
Import ListNotations.
Local Open Scope Z_scope.

(** ** Go integers *)

Module GoInt.

Definition min_int : Z := - 2 ^ 63.
Definition max_int : Z := 2 ^ 63 - 1.

Definition in_range (z : Z) : Prop := min_int <= z <= max_int.

(** Two's complement wrap-around of a mathematical result. *)
Definition wrap (z : Z) : Z := (z + 2 ^ 63) mod 2 ^ 64 - 2 ^ 63.

Definition add (a b : Z) : Z := wrap (a + b).
Definition sub (a b : Z) : Z := wrap (a - b).
Definition mul (a b : Z) : Z := wrap (a * b).
(** [a / b] for [b <> 0]: truncated towards zero; the zero divisor is
    the caller's case (a run-time panic). *)
Definition quo (a b : Z) : Z := wrap (Z.quot a b).

End GoInt.

Import GoInt.

(** ** The [Item] struct *)

Record Item : Type := mkItem {
  Basis : Z;  (* -1 = auto *)
  Grow : Z;
  Shrink : Z;
  Size : Z;
  Min : Z;
  Max : Z;
  flexBaseSize : Z;
  hypoMainSize : Z;
  frozen : bool;
  targetMainSize : Z
}.

(** The composite literal [Item{Basis: b, Grow: g, ...}] written outside of
    the package: unexported fields hold their zero values. *)
Definition newItem (basis grow shrink size min max : Z) : Item :=
  mkItem basis grow shrink size min max 0 0 false 0.

Definition set_Grow (v : Z) (it : Item) : Item :=
  mkItem (Basis it) v (Shrink it) (Size it) (Min it) (Max it)
         (flexBaseSize it) (hypoMainSize it) (frozen it) (targetMainSize it).
Definition set_Shrink (v : Z) (it : Item) : Item :=
  mkItem (Basis it) (Grow it) v (Size it) (Min it) (Max it)
         (flexBaseSize it) (hypoMainSize it) (frozen it) (targetMainSize it).
Definition set_Size (v : Z) (it : Item) : Item :=
  mkItem (Basis it) (Grow it) (Shrink it) v (Min it) (Max it)
         (flexBaseSize it) (hypoMainSize it) (frozen it) (targetMainSize it).
Definition set_Min (v : Z) (it : Item) : Item :=
  mkItem (Basis it) (Grow it) (Shrink it) (Size it) v (Max it)
         (flexBaseSize it) (hypoMainSize it) (frozen it) (targetMainSize it).
Definition set_Max (v : Z) (it : Item) : Item :=
  mkItem (Basis it) (Grow it) (Shrink it) (Size it) (Min it) v
         (flexBaseSize it) (hypoMainSize it) (frozen it) (targetMainSize it).
Definition set_flexBaseSize (v : Z) (it : Item) : Item :=
  mkItem (Basis it) (Grow it) (Shrink it) (Size it) (Min it) (Max it)
         v (hypoMainSize it) (frozen it) (targetMainSize it).
Definition set_hypoMainSize (v : Z) (it : Item) : Item :=
  mkItem (Basis it) (Grow it) (Shrink it) (Size it) (Min it) (Max it)
         (flexBaseSize it) v (frozen it) (targetMainSize it).
Definition set_frozen (v : bool) (it : Item) : Item :=
  mkItem (Basis it) (Grow it) (Shrink it) (Size it) (Min it) (Max it)
         (flexBaseSize it) (hypoMainSize it) v (targetMainSize it).
Definition set_targetMainSize (v : Z) (it : Item) : Item :=
  mkItem (Basis it) (Grow it) (Shrink it) (Size it) (Min it) (Max it)
         (flexBaseSize it) (hypoMainSize it) (frozen it) v.

Arguments set_Grow v it /.
Arguments set_Shrink v it /.
Arguments set_Size v it /.
Arguments set_Min v it /.
Arguments set_Max v it /.
Arguments set_flexBaseSize v it /.
Arguments set_hypoMainSize v it /.
Arguments set_frozen v it /.
Arguments set_targetMainSize v it /.

(** The six exported fields, the part of an [Item] a caller can read. *)
Definition exported (it : Item) : Z * Z * Z * Z * Z * Z :=
  (Basis it, Grow it, Shrink it, Size it, Min it, Max it).

(** ** Methods of [Item] *)

Definition Validate (it : Item) : Item :=
  let it := if Min it <? 1 then set_Min 1 it else it in
  let it := if Grow it <? 0 then set_Grow 0 it else it in
  let it := if Shrink it <? 0 then set_Shrink 0 it else it in
  let it := if Size it <? 1 then set_Size 1 it else it in
  let it := if Max it <? 0 then set_Max 0 it else it in
  let it := if Size it <? Min it then set_Size (Min it) it else it in
  if negb (Max it =? 0) then
    let it := if Max it <? Min it then set_Max (Min it) it else it in
    if Size it >? Max it then set_Size (Max it) it else it
  else it.

Definition determineFlexBaseSize (it : Item) : Item :=
  if Basis it >=? 0 then set_flexBaseSize (Basis it) it
  else set_flexBaseSize (Size it) it.

Definition determineHypoMainSize (it : Item) : Item :=
  let it := set_hypoMainSize (flexBaseSize it) it in
  let it := if hypoMainSize it <? Min it
            then set_hypoMainSize (Min it) it else it in
  if negb (Max it =? 0) && (hypoMainSize it >? Max it)
  then set_hypoMainSize (Max it) it else it.

Definition sizeIfInflexible (useGrow : bool) (it : Item) : Item :=
  if useGrow then
    if (Grow it =? 0) || (flexBaseSize it >? hypoMainSize it)
    then set_frozen true (set_targetMainSize (hypoMainSize it) it)
    else it
  else
    if (Shrink it =? 0) || (flexBaseSize it <? hypoMainSize it)
    then set_frozen true (set_targetMainSize (hypoMainSize it) it)
    else it.

(** ** Helpers of [ResolveFlexLengths] *)

Definition allFrozen (items : list Item) : bool := forallb frozen items.

Definition sumUnfrozenGrowFactors (items : list Item) : Z :=
  fold_left (fun sum it => if frozen it then sum else add sum (Grow it))
            items 0.

(** The two run-time failures the function can end in. *)
Inductive panic : Type :=
| NoSolutionFound      (* panic("no solution found") *)
| IntegerDivideByZero. (* runtime error: integer divide by zero *)

Inductive outcome (A : Type) : Type :=
| Returned (a : A)
| Panicked (p : panic).
Arguments Returned {A} a.
Arguments Panicked {A} p.

(** Step 9.7/4.b: [containerSize] minus what every item takes now. *)
Definition freeSpace (containerSize : Z) (items : list Item) : Z :=
  fold_left (fun space it =>
               if frozen it then sub space (targetMainSize it)
               else sub space (flexBaseSize it))
            items containerSize.

(** Step 9.7/4.c, growing.  The loop runs over the items in order with
    the running [remainingFreeSpace] and [sumGF]; a zero divisor stops it
    where it stands, earlier items keep their new target. *)
Fixpoint distributeGrow (remainingFreeSpace sumGF : Z) (items : list Item)
  : list Item * option panic :=
  match items with
  | [] => ([], None)
  | it :: rest =>
      if frozen it then
        let '(rest', p) := distributeGrow remainingFreeSpace sumGF rest in
        (it :: rest', p)
      else if sumGF =? 0 then (it :: rest, Some IntegerDivideByZero)
      else
        let growSpace := quo (mul remainingFreeSpace (Grow it)) sumGF in
        let it' := set_targetMainSize (add (flexBaseSize it) growSpace) it in
        let '(rest', p) :=
          distributeGrow (sub remainingFreeSpace growSpace)
                         (sub sumGF (Grow it)) rest in
        (it' :: rest', p)
  end.

(** Step 9.7/4.c, shrinking: [scaledShrinks] has one entry per item,
    zero where the item is frozen. *)
Definition scaledShrinksOf (items : list Item) : list Z :=
  map (fun it => if frozen it then 0
                 else mul (Shrink it) (flexBaseSize it)) items.

Definition sumScaledShrinksOf (items : list Item) : Z :=
  fold_left (fun sum it =>
               if frozen it then sum
               else add sum (mul (Shrink it) (flexBaseSize it)))
            items 0.

Fixpoint distributeShrink (remainingFreeSpace sumScaledShrinks : Z)
         (items : list Item) (scaledShrinks : list Z)
  : list Item * option panic :=
  match items, scaledShrinks with
  | it :: rest, scaled :: scaledRest =>
      if frozen it then
        let '(rest', p) :=
          distributeShrink remainingFreeSpace sumScaledShrinks
                           rest scaledRest in
        (it :: rest', p)
      else if sumScaledShrinks =? 0
      then (it :: rest, Some IntegerDivideByZero)
      else
        let shrinkSpace :=
          quo (mul remainingFreeSpace scaled) sumScaledShrinks in
        let it' :=
          set_targetMainSize (add (flexBaseSize it) shrinkSpace) it in
        let '(rest', p) :=
          distributeShrink (sub remainingFreeSpace shrinkSpace)
                           (sub sumScaledShrinks scaled) rest scaledRest in
        (it' :: rest', p)
  | _, _ => (items, None)
  end.

Definition distribute (useGrow : bool) (remainingFreeSpace : Z)
           (items : list Item) : list Item * option panic :=
  if remainingFreeSpace =? 0 then (items, None)
  else if useGrow
       then distributeGrow remainingFreeSpace
                           (sumUnfrozenGrowFactors items) items
       else distributeShrink remainingFreeSpace (sumScaledShrinksOf items)
                             items (scaledShrinksOf items).

(** Step 9.7/4.d for one item: the clamped item and its violation. *)
Definition clampItem (it : Item) : Item * Z :=
  if frozen it then (it, 0)
  else if targetMainSize it <? Min it
       then (set_targetMainSize (Min it) it, sub (Min it) (targetMainSize it))
       else if negb (Max it =? 0) && (targetMainSize it >? Max it)
            then (set_targetMainSize (Max it) it,
                  sub (Max it) (targetMainSize it))
            else (it, 0).

Definition clampAll (items : list Item) : list Item * list Z :=
  (map (fun it => fst (clampItem it)) items,
   map (fun it => snd (clampItem it)) items).

(** [totalViolation]: the entries of frozen or unclamped items are zero
    and the source skips them, which adds nothing. *)
Definition totalViolationOf (violations : list Z) : Z :=
  fold_left add violations 0.

Fixpoint freezeWhere (sel : Z -> bool) (items : list Item)
         (violations : list Z) : list Item :=
  match items, violations with
  | it :: rest, v :: vs =>
      (if sel v then set_frozen true it else it) :: freezeWhere sel rest vs
  | _, _ => items
  end.

Definition freezeViolators (totalViolation : Z) (items : list Item)
           (violations : list Z) : list Item :=
  if totalViolation =? 0 then map (set_frozen true) items
  else if totalViolation >? 0
       then freezeWhere (fun v => v >? 0) items violations
       else freezeWhere (fun v => v <? 0) items violations.

(** One pass of the loop body after the [allFrozen] test: the new store,
    the [violations] slice of the pass, and the panic if one was raised. *)
Definition pass (useGrow : bool) (containerSize : Z) (items : list Item)
  : list Item * list Z * option panic :=
  let remainingFreeSpace := freeSpace containerSize items in
  match distribute useGrow remainingFreeSpace items with
  | (items, Some p) => (items, [], Some p)
  | (items, None) =>
      let '(items, violations) := clampAll items in
      let totalViolation := totalViolationOf violations in
      (freezeViolators totalViolation items violations, violations, None)
  end.

(** What a call leaves behind: the caller's slice as mutated, the
    [violations] slice of every completed pass (oldest first), and the
    result, the widths or a panic. *)
Record Run : Type := mkRun {
  itemsAfter : list Item;
  violationsLog : list (list Z);
  result : outcome (list Z)
}.

(** The [for] loop.  [budget] is [len(mutItems)+1-iterations] on entry of
    the body: once it is used up, [iterations++] makes the guard
    [iterations > len(mutItems)+1] true. *)
Fixpoint distributionLoop (budget : nat) (useGrow : bool)
         (containerSize : Z) (items : list Item) (log : list (list Z)) : Run :=
  match budget with
  | O => mkRun items log (Panicked NoSolutionFound)
  | S budget' =>
      if allFrozen items
      then mkRun items log (Returned (map targetMainSize items))
      else
        match pass useGrow containerSize items with
        | (items, _, Some p) => mkRun items log (Panicked p)
        | (items, violations, None) =>
            distributionLoop budget' useGrow containerSize items
                             (log ++ [violations])
        end
  end.

(** Lines 103-116: clamp of [containerSize] and the first loop. *)
Definition clampContainerSize (containerSize : Z) : Z :=
  if containerSize <? 0 then 0 else containerSize.

Definition prepare (it : Item) : Item :=
  determineHypoMainSize (determineFlexBaseSize (Validate it)).

Definition sumHypoMainSizeOf (items : list Item) : Z :=
  fold_left (fun sum it => add sum (hypoMainSize it)) items 0.

(** Lines 127-254: everything after the fast path.  [initialFreeSpace] of
    the source is computed and never read; it is left out. *)
Definition resolveLoop (items : list Item) (containerSize : Z)
           (sumHypoMainSize : Z) : Run :=
  let useGrow := sumHypoMainSize <? containerSize in
  let items := map (sizeIfInflexible useGrow) items in
  distributionLoop (S (length items)) useGrow containerSize items [].

Definition ResolveFlexLengths (items : list Item) (containerSize : Z) : Run :=
  let containerSize := clampContainerSize containerSize in
  let items := map prepare items in
  let sumHypoMainSize := sumHypoMainSizeOf items in
  if sumHypoMainSize =? containerSize
  then mkRun items [] (Returned (map hypoMainSize items))
  else resolveLoop items containerSize sumHypoMainSize.


(** * Package [flexwriter] *)

(** The callers of [ResolveFlexLengths] and what they are built from.
    Lengths and indexes of slices are natural numbers; an index out of
    range is a run-time panic of the source and [None] here.  A Go
    [string] is the list of its bytes. *)

Module flexwriter.

(** ** [functional.go] *)

(** [s[i] = v]. *)
Fixpoint store {T : Type} (s : list T) (i : nat) (v : T) : option (list T) :=
  match s, i with
  | [], _ => None
  | _ :: rest, O => Some (v :: rest)
  | x :: rest, S i' =>
      match store rest i' v with
      | Some rest' => Some (x :: rest')
      | None => None
      end
  end.

(** [out[j][i] = v]. *)
Definition storeCell {T : Type} (out : list (list T)) (j i : nat) (v : T)
  : option (list (list T)) :=
  match nth_error out j with
  | Some row =>
      match store row i v with
      | Some row' => store out j row'
      | None => None
      end
  | None => None
  end.

(** The first loop of [transpose]: the length of the longest column. *)
Definition maxLinesOf {T : Type} (data : list (list T)) : nat :=
  fold_left (fun maxLines col =>
               if (maxLines <? length col)%nat then length col else maxLines)
            data 0%nat.

(** The inner loop of [transpose], [for j, line := range col], from
    line [j] on. *)
Fixpoint fillColumn {T : Type} (out : list (list T)) (i j : nat)
         (col : list T) : option (list (list T)) :=
  match col with
  | [] => Some out
  | line :: rest =>
      match storeCell out j i line with
      | Some out' => fillColumn out' i (S j) rest
      | None => None
      end
  end.

(** The outer loop, [for i, col := range data], from column [i] on. *)
Fixpoint fillColumns {T : Type} (out : list (list T)) (i : nat)
         (data : list (list T)) : option (list (list T)) :=
  match data with
  | [] => Some out
  | col :: rest =>
      match fillColumn out i 0 col with
      | Some out' => fillColumns out' (S i) rest
      | None => None
      end
  end.

(** [zero] is the zero value of [T], what [make] fills a slice with. *)
Definition transpose {T : Type} (zero : T) (data : list (list T))
  : option (list (list T)) :=
  let maxLines := maxLinesOf data in
  let out := repeat (repeat zero (length data)) maxLines in
  fillColumns out 0 data.

(** [out[i] = f(v)] for every index: the list of the images. *)
Definition transform {F T : Type} (s : list F) (f : F -> T) : list T :=
  map f s.

(** [max] at the only type the package uses it at, [int]. *)
Definition max (s : list Z) : Z :=
  match s with
  | [] => 0
  | first :: rest =>
      fold_left (fun max v => if v >? max then v else max) rest first
  end.

(** ** What the package imports *)

(** The functions of other modules the code below calls.  Their code is
    not part of the repository: every theorem holds whatever they
    compute, or says what it takes of them. *)
Record Imports : Type := mkImports {
  (* text.Len of go-term-text: the width of a string on a terminal *)
  text_Len : String.string -> Z;
  (* text.TrimSpace of go-term-text *)
  text_TrimSpace : String.string -> String.string;
  (* text.ExtractTermEscapes of go-term-text, then the runes that
     [for _, r := range escaped] yields *)
  visibleRunes : String.string -> list Z;
  (* runewidth.RuneWidth of go-runewidth *)
  runewidth_RuneWidth : Z -> Z
}.

(** [strings.Repeat(" ", n)], which the code calls with [n >= 0] only. *)
Fixpoint blanks (n : nat) : String.string :=
  match n with
  | O => String.EmptyString
  | S n' => String.String " " (blanks n')
  end.

Definition spaces (n : Z) : String.string := blanks (Z.to_nat n).

(** [strings.Split(s, sep)] for a separator of one byte: the pieces of
    [s] between the occurrences of [sep], one more than there are
    occurrences. *)
Fixpoint strings_Split (s : String.string) (sep : ascii)
  : list String.string :=
  match s with
  | String.EmptyString => [String.EmptyString]
  | String.String c rest =>
      if Ascii.eqb c sep then String.EmptyString :: strings_Split rest sep
      else match strings_Split rest sep with
           | piece :: pieces => String.String c piece :: pieces
           | [] => [String.String c String.EmptyString]
           end
  end.

(** ** [wrap.go] (with [minContent] of its later version,
    [unnamed/part_000]) *)

Inductive Alignment : Type := Left | Center | Right.

Definition align (imports : Imports) (s : String.string) (width : Z)
           (align : Alignment) (padRight : bool) : String.string :=
  let s := text_TrimSpace imports s in
  let padLen := sub width (text_Len imports s) in
  if padLen <=? 0 then s
  else
    match align with
    | Right => String.append (spaces padLen) s
    | _ =>
        let '(padLen, s) :=
          match align with
          | Center =>
              let padLeft := quo padLen 2 in
              (sub padLen padLeft, String.append (spaces padLeft) s)
          | _ => (padLen, s)
          end in
        if negb padRight then s
        else String.append s (spaces padLen)
    end.

(** Rune categories. *)
Inductive runeType : Type :=
| none | wideChar | invisible | shortUnicode | space | visibleAscii.

Definition runeType_eqb (a b : runeType) : bool :=
  match a, b with
  | none, none | wideChar, wideChar | invisible, invisible
  | shortUnicode, shortUnicode | space, space
  | visibleAscii, visibleAscii => true
  | _, _ => false
  end.

Definition runeTypeOf (imports : Imports) (r : Z) : runeType * Z :=
  let rw := runewidth_RuneWidth imports r in
  if rw >? 1 then (wideChar, rw)
  else if rw =? 0 then (invisible, rw)
  else if r >? 127 then (shortUnicode, rw)
  else if r =? 32 then (space, rw)
  else (visibleAscii, rw).

(** The variables [minContent] keeps while it walks over the runes. *)
Record words : Type := mkWords {
  words_max : Z;
  wordLen : Z;
  wordType : runeType
}.

Definition flushWord (st : words) : words :=
  mkWords (if wordLen st >? words_max st then wordLen st else words_max st)
          0 none.

(** The body of the loop of [minContent] for the rune [r]. *)
Definition minContent_step (imports : Imports) (st : words) (r : Z) : words :=
  let '(thisType, rw) := runeTypeOf imports r in
  if runeType_eqb thisType wideChar then
    let st := if negb (runeType_eqb (wordType st) none)
              then flushWord st else st in
    flushWord (mkWords (words_max st) rw (wordType st))
  else if negb (runeType_eqb thisType (wordType st)) then
    let st := if negb (runeType_eqb (wordType st) none)
              then flushWord st else st in
    mkWords (words_max st) rw thisType
  else mkWords (words_max st) (add (wordLen st) rw) (wordType st).

Definition minContent (imports : Imports) (s : String.string) : Z :=
  let st := fold_left (minContent_step imports) (visibleRunes imports s)
                      (mkWords 0 0 none) in
  let st := if negb (wordLen st =? 0) then flushWord st else st in
  words_max st.

(** ** The decorators ([doc.go]) *)

(** The [Decorator] interface, by the method the widths depend on;
    [RowSeparator] plays no part in them. *)
Record Decorator : Type := mkDecorator {
  ColumnSeparator : Z -> Z -> String.string
}.

Definition GapDecorator (Gap Left Right : String.string) : Decorator :=
  mkDecorator (fun _ colIdx =>
                 if colIdx =? 0 then Left
                 else if colIdx =? -1 then Right
                      else Gap).

(** [TableDecorator], by its field [VertBorders]. *)
Definition TableDecorator
           (VertBorders : String.string * String.string * String.string)
  : Decorator :=
  let '(border0, border1, border2) := VertBorders in
  mkDecorator (fun _ colIdx =>
                 if colIdx =? 0 then border0
                 else if colIdx =? -1 then border2
                      else border1).

Definition AsciiTableDecorator : Decorator :=
  TableDecorator ("| ", " | ", " |")%string.

Definition colorDecorator (parent : Decorator) (in_ out : String.string)
  : Decorator :=
  mkDecorator (fun rowIdx colIdx =>
                 String.append in_
                   (String.append (ColumnSeparator parent rowIdx colIdx) out)).

(** The loop [for i := 1; i < cols; i++] runs over [1 .. cols-1]. *)
Definition decoratorWidth (imports : Imports) (deco : Decorator) (cols : Z)
  : Z :=
  let rlen := text_Len imports in
  let w := 0 in
  let w := add w (rlen (ColumnSeparator deco 0 0)) in
  let w := add w (rlen (ColumnSeparator deco 0 (-1))) in
  fold_left (fun w i => add w (rlen (ColumnSeparator deco 0 (Z.of_nat i))))
            (seq 1 (Z.to_nat cols - 1)) w.

(** ** The writer ([unnamed/part_003]) *)

(** The implementations of the sealed interface [Column], each with the
    fields of its struct in the order of the source. *)
Inductive Column : Type :=
| Rigid (Min Max : Z) (Align : Alignment)
| Shrinkable (Weight Min Max : Z) (Align : Alignment)
| Omit
| Flexed (Weight Min Max : Z) (Align : Alignment)
| Flexbox (Basis Grow Shrink Min Max : Z) (Align : Alignment).

Record flexItem : Type := mkFlexItem {
  flexItem_Item : Item;
  flexItem_Alignment : Alignment
}.

Definition Auto : Z := -1.

(** The method [flex]; [None] is the panic of [Omit.flex]. *)
Definition flex (col : Column) : option flexItem :=
  match col with
  | Rigid Min Max Align =>
      let Min := if negb (Max =? 0) && (Min >? Max) then Max else Min in
      Some (mkFlexItem (newItem Auto 0 0 0 Min Max) Align)
  | Shrinkable Weight Min Max Align =>
      let Min := if negb (Max =? 0) && (Min >? Max) then Max else Min in
      let Weight := if Weight <? 1 then 1 else Weight in
      Some (mkFlexItem (newItem Auto 0 Weight 0 Min Max) Align)
  | Omit => None
  | Flexed Weight Min Max Align =>
      let Weight := if Weight <? 1 then 1 else Weight in
      let Min := if negb (Max =? 0) && (Min >? Max) then Max else Min in
      Some (mkFlexItem (newItem 0 Weight 1 0 Min Max) Align)
  | Flexbox Basis Grow Shrink Min Max Align =>
      let Min := if negb (Max =? 0) && (Min >? Max) then Max else Min in
      Some (mkFlexItem (newItem Basis Grow Shrink 0 Min Max) Align)
  end.

(** The type assertion [col.(Omit)]. *)
Definition isOmit (col : Column) : bool :=
  match col with Omit => true | _ => false end.

(** The fields of [Writer] but [output] and [mu]: what is written to
    [output] and the locking are not modelled. *)
Record Writer : Type := mkWriter {
  width : Z;
  omittedCols : list bool;
  omitDefault : bool;
  columns : list flexItem;
  defaultCol : flexItem;
  deco : Decorator;
  buffer : String.string;
  colBuffer : list (list String.string)
}.

Definition set_omittedCols (v : list bool) (w : Writer) : Writer :=
  mkWriter (width w) v (omitDefault w) (columns w) (defaultCol w) (deco w)
           (buffer w) (colBuffer w).
Definition set_columns (v : list flexItem) (w : Writer) : Writer :=
  mkWriter (width w) (omittedCols w) (omitDefault w) v (defaultCol w) (deco w)
           (buffer w) (colBuffer w).
Definition set_omitDefault (v : bool) (w : Writer) : Writer :=
  mkWriter (width w) (omittedCols w) v (columns w) (defaultCol w) (deco w)
           (buffer w) (colBuffer w).
Definition set_defaultCol (v : flexItem) (w : Writer) : Writer :=
  mkWriter (width w) (omittedCols w) (omitDefault w) (columns w) v (deco w)
           (buffer w) (colBuffer w).
Definition set_buffer (v : String.string) (w : Writer) : Writer :=
  mkWriter (width w) (omittedCols w) (omitDefault w) (columns w)
           (defaultCol w) (deco w) v (colBuffer w).
Definition set_colBuffer (v : list (list String.string)) (w : Writer)
  : Writer :=
  mkWriter (width w) (omittedCols w) (omitDefault w) (columns w)
           (defaultCol w) (deco w) (buffer w) v.

(** The loop of [SetColumns] from column [i] on. *)
Fixpoint SetColumns_loop (cols : list Column) (i : nat) (w : Writer)
  : option Writer :=
  match cols with
  | [] => Some w
  | col :: rest =>
      if isOmit col then
        match store (omittedCols w) i true with
        | Some omitted => SetColumns_loop rest (S i) (set_omittedCols omitted w)
        | None => None
        end
      else
        match flex col with
        | Some item =>
            SetColumns_loop rest (S i) (set_columns (columns w ++ [item]) w)
        | None => None
        end
  end.

Definition SetColumns (cols : list Column) (w : Writer) : option Writer :=
  let w := set_omittedCols (repeat false (length cols)) w in
  let w := set_columns [] w in
  SetColumns_loop cols 0 w.

Definition SetDefaultColumn (col : Column) (w : Writer) : option Writer :=
  if isOmit col then Some (set_omitDefault true w)
  else
    let w := set_omitDefault false w in
    match flex col with
    | Some item => Some (set_defaultCol item w)
    | None => None
    end.

Definition SetWidth (width : Z) (w : Writer) : Writer :=
  mkWriter width (omittedCols w) (omitDefault w) (columns w) (defaultCol w)
           (deco w) (buffer w) (colBuffer w).

Definition SetDecorator (deco : Decorator) (w : Writer) : Writer :=
  mkWriter (width w) (omittedCols w) (omitDefault w) (columns w)
           (defaultCol w) deco (buffer w) (colBuffer w).

(** [Write] returns [len(b)] and a nil error next to the new state. *)
Definition Write (b : String.string) (w : Writer) : Writer * Z :=
  (set_buffer (String.append (buffer w) b) w, Z.of_nat (String.length b)).

Definition isOmitted (w : Writer) (i : nat) : bool :=
  match nth_error (omittedCols w) i with
  | Some omitted => omitted
  | None => omitDefault w
  end.

Definition getColumnDef (w : Writer) (i : nat) : flexItem :=
  match nth_error (columns w) i with
  | Some col => col
  | None => defaultCol w
  end.

(** A cell as [WriteRow] takes it: a string, or a value of another type,
    given by what [fmt.Sprint] prints for it. *)
Inductive any : Type :=
| aString (s : String.string)
| aValue (sprint : String.string).

Definition toString (a : any) : String.string :=
  match a with
  | aString s => s
  | aValue sprint => sprint
  end.

(** The first loop of [writeRow] from cell [i] on. *)
Fixpoint filterCells (w : Writer) (i : nat) (cells : list any) : list any :=
  match cells with
  | [] => []
  | cell :: rest =>
      if isOmitted w i then filterCells w (S i) rest
      else cell :: filterCells w (S i) rest
  end.

Definition writeRow (cells : list any) (w : Writer) : Writer :=
  let filteredCells := filterCells w 0 cells in
  let scells := transform filteredCells toString in
  set_colBuffer (colBuffer w ++ [scells]) w.

Definition WriteRow (cells : list any) (w : Writer) : Writer :=
  writeRow cells w.

Definition colMinContent (imports : Imports) (w : Writer) (colIdx : nat) : Z :=
  max (transform (colBuffer w)
                 (fun row =>
                    match nth_error row colIdx with
                    | None => 0
                    | Some cell => minContent imports cell
                    end)).

(** What can stop [computeWidths]. *)
Inductive crash : Type :=
| IndexOutOfRange
| InFlex (p : panic).

(** The item [computeWidths] builds for column [i]. *)
Definition columnItem (imports : Imports) (w : Writer) (i : nat)
           (colLength : Z) : Item :=
  let col := getColumnDef w i in
  let minSize :=
    if Min (flexItem_Item col) >? 0 then Min (flexItem_Item col)
    else colMinContent imports w i in
  let minSize :=
    if (Max (flexItem_Item col) >? 0) && (minSize >? Max (flexItem_Item col))
    then Max (flexItem_Item col) else minSize in
  let it := flexItem_Item col in
  let it := set_Min minSize it in
  let it := set_Size colLength it in
  it.

(** The loop [for i := 0; i < nColumns; i++] from column [i] on,
    [colLengths] being the lengths from that column on. *)
Fixpoint columnItems (imports : Imports) (w : Writer) (i : nat)
         (colLengths : list Z) : list Item :=
  match colLengths with
  | [] => []
  | colLength :: rest =>
      columnItem imports w i colLength :: columnItems imports w (S i) rest
  end.

Definition computeWidths (imports : Imports) (w : Writer)
  : crash + list Z :=
  let rowColLengths :=
    transform (colBuffer w)
              (fun rows => transform rows (text_Len imports)) in
  match transpose 0 rowColLengths with
  | None => inl IndexOutOfRange
  | Some colRowLengths =>
      let colLengths := transform colRowLengths max in
      let nColumns := length colLengths in
      let flexItems := columnItems imports w 0 colLengths in
      let freeSpace :=
        sub (width w) (decoratorWidth imports (deco w) (Z.of_nat nColumns)) in
      match result (ResolveFlexLengths flexItems freeSpace) with
      | Returned lens => inr lens
      | Panicked p => inl (InFlex p)
      end
  end.

(** [rows[:len(rows)-1]] when the last row is empty. *)
Definition dropTrailingEmpty (rows : list String.string)
  : list String.string :=
  match rev rows with
  | String.EmptyString :: before => rev before
  | _ => rows
  end.

Definition flushBuffer (w : Writer) : Writer :=
  let rows := strings_Split (buffer w) "010"%char in
  let rows := dropTrailingEmpty rows in
  let w :=
    fold_left (fun w row =>
                 let cells := map aString (strings_Split row "009"%char) in
                 writeRow cells w)
              rows w in
  set_buffer String.EmptyString w.

End flexwriter.

(** * Specification *)

(** The predicates and the reference computations the theorems are
    stated with. *)

(** ** Normalization *)

(** What [Validate] establishes (the invariants of the data model). *)
Definition valid (it : Item) : Prop :=
  1 <= Min it /\ 0 <= Grow it /\ 0 <= Shrink it /\ 1 <= Size it /\
  0 <= Max it /\ Min it <= Size it /\
  (Max it <> 0 -> Min it <= Max it /\ Size it <= Max it).

(** The statements of [Validate] one by one, to walk through the method
    in the order it runs. *)
Module ValidateSteps.
Definition minAtLeast1 (it : Item) : Item :=
  if Min it <? 1 then set_Min 1 it else it.
Definition growAtLeast0 (it : Item) : Item :=
  if Grow it <? 0 then set_Grow 0 it else it.
Definition shrinkAtLeast0 (it : Item) : Item :=
  if Shrink it <? 0 then set_Shrink 0 it else it.
Definition sizeAtLeast1 (it : Item) : Item :=
  if Size it <? 1 then set_Size 1 it else it.
Definition maxAtLeast0 (it : Item) : Item :=
  if Max it <? 0 then set_Max 0 it else it.
Definition sizeAtLeastMin (it : Item) : Item :=
  if Size it <? Min it then set_Size (Min it) it else it.
Definition maxAtLeastMin (it : Item) : Item :=
  if Max it <? Min it then set_Max (Min it) it else it.
Definition sizeAtMostMax (it : Item) : Item :=
  if Size it >? Max it then set_Size (Max it) it else it.
Definition whenBounded (it : Item) : Item :=
  if negb (Max it =? 0) then sizeAtMostMax (maxAtLeastMin it) else it.
End ValidateSteps.
Import ValidateSteps.

Arguments minAtLeast1 !it /.
Arguments growAtLeast0 !it /.
Arguments shrinkAtLeast0 !it /.
Arguments sizeAtLeast1 !it /.
Arguments maxAtLeast0 !it /.
Arguments sizeAtLeastMin !it /.
Arguments maxAtLeastMin !it /.
Arguments sizeAtMostMax !it /.
Arguments whenBounded !it /.

(** [Validate] in closed form: the normalized value of every field. *)
Definition normMin (it : Item) : Z := Z.max 1 (Min it).
Definition normMax (it : Item) : Z :=
  if Z.max 0 (Max it) =? 0 then 0 else Z.max (normMin it) (Max it).
Definition normSize (it : Item) : Z :=
  let size := Z.max (normMin it) (Z.max 1 (Size it)) in
  if Z.max 0 (Max it) =? 0 then size else Z.min size (normMax it).

(** ** What a pass may change *)

(** Only [targetMainSize] and [frozen] are written after the first loop;
    a frozen item is never written again and never thawed. *)
Definition evolves (it it' : Item) : Prop :=
  exported it' = exported it /\
  flexBaseSize it' = flexBaseSize it /\
  hypoMainSize it' = hypoMainSize it /\
  (frozen it = true ->
   frozen it' = true /\ targetMainSize it' = targetMainSize it).

(** A write to the target of an unfrozen item, the flag untouched. *)
Definition retargeted (it it' : Item) : Prop :=
  it' = it \/
  (frozen it = false /\ exists t, it' = set_targetMainSize t it).

(** Freezing sets the flag and nothing else. *)
Definition refrozen (it it' : Item) : Prop :=
  it' = it \/ it' = set_frozen true it.

(** A prepared item: normalized, with [flexBaseSize] a legal size and
    [hypoMainSize] within the item's bounds. *)
Definition prepared (it : Item) : Prop :=
  valid it /\ 0 <= flexBaseSize it /\
  Min it <= hypoMainSize it /\
  (Max it <> 0 -> hypoMainSize it <= Max it) /\
  hypoMainSize it =
  (if negb (Max it =? 0) && (Z.max (flexBaseSize it) (Min it) >? Max it)
   then Max it else Z.max (flexBaseSize it) (Min it)).

(** ** The returned widths, position by position *)

(** The fast path of lines 118-125 is taken. *)
Definition fastPath (items : list Item) (containerSize : Z) : bool :=
  sumHypoMainSizeOf (map prepare items) =? clampContainerSize containerSize.

(** The field a width is read from: [hypoMainSize] on the fast path,
    [targetMainSize] after the loop. *)
Definition resolvedWidth (fast : bool) (it : Item) : Z :=
  if fast then hypoMainSize it else targetMainSize it.

(** ** Widths respect the bounds of their item *)

(** [w] is a legal width for [it]: at least 1, at least the normalized
    [Min], at most the normalized [Max] when there is one. *)
Definition withinBounds (it : Item) (w : Z) : Prop :=
  1 <= w /\ Min (Validate it) <= w /\
  (Max (Validate it) <> 0 -> w <= Max (Validate it)).

(** The bounds of an item are consistent and its target is between them. *)
Definition inBounds (it : Item) : Prop :=
  1 <= Min it /\ (Max it <> 0 -> Min it <= Max it) /\
  Min it <= targetMainSize it /\
  (Max it <> 0 -> targetMainSize it <= Max it).

(** The loop invariant: every frozen item is within its bounds. *)
Definition settled (it : Item) : Prop :=
  1 <= Min it /\ (Max it <> 0 -> Min it <= Max it) /\
  (frozen it = true -> inBounds it).

(** ** The fast path against the loop *)


(** ** Exact arithmetic *)

(** The same computation over the integers, and the ranges in which the
    wrap-around of the code never acts. *)

Definition zsum (l : list Z) : Z := fold_right Z.add 0 l.

(** Largest field value and container size, and the largest number of
    items, for which no intermediate result leaves 64 bits. *)
Definition limit : Z := 32768.

(** Bound of the free space and of every target while the loop runs. *)
Definition span : Z := limit * limit + limit.

(** What an item takes of the container at the start of a pass. *)
Definition used (it : Item) : Z :=
  if frozen it then targetMainSize it else flexBaseSize it.

Definition exactFreeSpace (c : Z) (items : list Item) : Z :=
  c - zsum (map used items).

(** The flex factor of the active direction: the grow factor, or the
    scaled shrink factor. *)
Definition weight (useGrow : bool) (it : Item) : Z :=
  if useGrow then Grow it else Shrink it * flexBaseSize it.

Definition unfrozenWeight (useGrow : bool) (it : Item) : Z :=
  if frozen it then 0 else weight useGrow it.

Definition sumUnfrozenWeights (useGrow : bool) (items : list Item) : Z :=
  zsum (map (unfrozenWeight useGrow) items).

(** Step 4.c over the integers: every unfrozen item in turn takes its
    share of what is left. *)
Fixpoint exactShares (wt : Item -> Z) (r s : Z) (items : list Item)
  : list Item :=
  match items with
  | [] => []
  | it :: rest =>
      if frozen it then it :: exactShares wt r s rest
      else
        let q := Z.quot (r * wt it) s in
        set_targetMainSize (flexBaseSize it + q) it
          :: exactShares wt (r - q) (s - wt it) rest
  end.

Definition exactDistribute (useGrow : bool) (r : Z) (items : list Item)
  : list Item :=
  if r =? 0 then items
  else exactShares (weight useGrow) r (sumUnfrozenWeights useGrow items) items.

(** The fields the loop never writes, within the limit, and a positive
    factor on every item the pre-freeze pass left unfrozen. *)
Definition sized (useGrow : bool) (it : Item) : Prop :=
  1 <= Min it <= limit /\ 0 <= Max it <= limit /\
  (Max it <> 0 -> Min it <= Max it) /\
  0 <= flexBaseSize it <= limit /\
  0 <= Grow it <= limit /\ 0 <= Shrink it <= limit /\
  (frozen it = false -> 1 <= weight useGrow it).

(** The target while the loop runs: within the span, and a legal size
    within the limit once the item is frozen. *)
Definition ranged (it : Item) : Prop :=
  - span <= targetMainSize it <= span /\
  (frozen it = true -> 1 <= targetMainSize it <= limit).

Definition live (useGrow : bool) (it : Item) : Prop :=
  sized useGrow it /\ ranged it.

(** ** What the exact distribution gives every item *)

(** An unfrozen item gets its flex base size plus a share between zero
    and the free space [r]; a frozen item is left alone. *)
Definition shared (r : Z) (it it' : Item) : Prop :=
  if frozen it then it' = it
  else exists q, it' = set_targetMainSize (flexBaseSize it + q) it /\
                 (0 <= r -> 0 <= q <= r) /\ (r <= 0 -> r <= q <= 0).

(** ** Clamping, exactly *)

(** The violation step 4.d records for an item, over the integers. *)
Definition violationOf (it : Item) : Z :=
  if frozen it then 0
  else if targetMainSize it <? Min it then Min it - targetMainSize it
       else if negb (Max it =? 0) && (targetMainSize it >? Max it)
            then Max it - targetMainSize it
            else 0.

Definition clamped (it : Item) : Item := fst (clampItem it).

(** ** One pass, exactly *)

Definition exactPass (useGrow : bool) (c : Z) (items : list Item)
  : list Item * list Z :=
  let items1 := exactDistribute useGrow (exactFreeSpace c items) items in
  let vs := map violationOf items1 in
  (freezeViolators (zsum vs) (map clamped items1) vs, vs).

(** ** Freezing, item by item *)

(** Steps 4.d and 4.e for one item, given the total violation. *)
Definition freezesNow (total : Z) (it : Item) : bool :=
  if total =? 0 then true
  else if total >? 0 then violationOf it >? 0 else violationOf it <? 0.

Definition settle (total : Z) (it : Item) : Item :=
  if freezesNow total it then set_frozen true (clamped it) else clamped it.

(** ** Progress *)

Definition unfrozenCount (items : list Item) : nat :=
  length (filter negb (map frozen items)).

(** ** Inputs within the limits *)

(** An item as a caller builds it: not frozen, no target yet. *)
Definition fresh (it : Item) : Prop :=
  frozen it = false /\ targetMainSize it = 0.

(** No exported field above the limit (values below their legal range
    are normalized away by [Validate]). *)
Definition modest (it : Item) : Prop :=
  Basis it <= limit /\ Grow it <= limit /\ Shrink it <= limit /\
  Size it <= limit /\ Min it <= limit /\ Max it <= limit.

(** The direction of the call and the store on entry of the loop. *)
Definition growing (items : list Item) (c : Z) : bool :=
  sumHypoMainSizeOf (map prepare items) <? clampContainerSize c.

Definition loopEntry (items : list Item) (c : Z) : list Item :=
  map (sizeIfInflexible (growing items c)) (map prepare items).

(** ** The sign of the free space *)

(** What an item is sure to take: its target once frozen, its
    hypothetical size before. *)
Definition reserved (it : Item) : Z :=
  if frozen it then targetMainSize it else hypoMainSize it.

(** An item the pre-freeze pass left unfrozen can move in the direction
    of the call; its hypothetical size is its flex base size clamped. *)
Definition flexible (useGrow : bool) (it : Item) : Prop :=
  hypoMainSize it =
  (if negb (Max it =? 0) && (Z.max (flexBaseSize it) (Min it) >? Max it)
   then Max it else Z.max (flexBaseSize it) (Min it)) /\
  (frozen it = false ->
   if useGrow then flexBaseSize it <= hypoMainSize it
   else hypoMainSize it <= flexBaseSize it).

(** ** Later items are served at least as well *)

(** [y] is at least as far as [x] in the direction of the free space
    [r]: above when there is space to hand out, below when there is space
    to take back. *)
Definition beyond (r x y : Z) : Prop :=
  (0 <= r -> x <= y) /\ (r <= 0 -> y <= x).

(** ** The direction of a call *)

(** [y] is at least as far as [x] in the direction of the call: above
    when growing, below when shrinking. *)
Definition dir (useGrow : bool) (x y : Z) : Prop :=
  if useGrow then x <= y else y <= x.

(** Step 4.d on a target. *)
Definition clampZ (mn mx t : Z) : Z :=
  if t <? mn then mn
  else if negb (mx =? 0) && (t >? mx) then mx else t.

(** ** Targets after a pass *)

(** The target is a legal size, at least as far as the hypothetical size
    in the direction of the call. *)
Definition steady (useGrow : bool) (it : Item) : Prop :=
  Min it <= targetMainSize it /\
  (Max it <> 0 -> targetMainSize it <= Max it) /\
  dir useGrow (hypoMainSize it) (targetMainSize it).

(** A frozen item keeps a steady target. *)
Definition anchored (useGrow : bool) (it : Item) : Prop :=
  frozen it = true -> steady useGrow it.

(** The total violation runs along the direction of the call (the items
    frozen are those clamped towards their hypothetical size) or against
    it. *)
Definition along (g : bool) (total : Z) : Prop :=
  if g then 0 < total else total < 0.

(** ** Two items alike but for their factor *)

(** The flex factor the call uses. *)
Definition factor (useGrow : bool) (it : Item) : Z :=
  if useGrow then Grow it else Shrink it.

(** [a] and [b] have the same flex base size, the same bounds and
    [b] has the larger factor. *)
Definition matched (g : bool) (a b : Item) : Prop :=
  flexBaseSize a = flexBaseSize b /\ Min a = Min b /\ Max a = Max b /\
  hypoMainSize a = hypoMainSize b /\ factor g a <= factor g b.

(** The loop invariant of the pair: [b] is at least as far as [a] in the
    direction of the call, now or once both are frozen. *)
Definition paired (g : bool) (a b : Item) : Prop :=
  (frozen a = frozen b -> dir g (targetMainSize a) (targetMainSize b)) /\
  (frozen a = true -> frozen b = false ->
   dir g (targetMainSize a) (hypoMainSize b)) /\
  (frozen a = false -> frozen b = true ->
   targetMainSize b = (if g then Max b else Min b) /\
   (g = true -> Max b <> 0)).

(** ** The invariant of the loop for a pair of positions *)

Definition ordered (g : bool) (c : Z) (i j : nat) (items : list Item)
  : Prop :=
  Forall (flexible g) items /\ Forall (anchored g) items /\
  (exactFreeSpace c items <> 0 \/ Forall (steady g) items) /\
  (allFrozen items = true \/ dir g (zsum (map reserved items)) c) /\
  exists a b,
    nth_error items i = Some a /\ nth_error items j = Some b /\
    matched g a b /\ paired g a b.

(** Two input items alike but for their factor. *)
Definition alike (a b : Item) : Prop :=
  Basis a = Basis b /\ Min a = Min b /\ Max a = Max b /\
  (Basis a < 0 -> Size a = Size b).

(** ** An item seen alone *)

(** The hypothetical main size in closed form: the flex base size (the
    basis, or the normalized size for an auto basis) clamped by the
    normalized bounds. *)
Definition baseSize (it : Item) : Z :=
  if Basis it >=? 0 then Basis it else normSize it.

Definition hypotheticalSize (it : Item) : Z :=
  clampZ (normMin it) (normMax it) (baseSize it).

(** The item has no factor for the direction of the call. *)
Definition inactive (useGrow : bool) (it : Item) : Prop :=
  if useGrow then Grow it <= 0 else Shrink it <= 0.

(** ** Items handed to a second call *)

(** The first loop of the function finds nothing to write. *)
Definition ready (it : Item) : Prop :=
  valid it /\
  flexBaseSize it = (if Basis it >=? 0 then Basis it else Size it) /\
  hypoMainSize it =
  (if negb (Max it =? 0) && (Z.max (flexBaseSize it) (Min it) >? Max it)
   then Max it else Z.max (flexBaseSize it) (Min it)).

(** ** The side of the container the widths stay on *)

(** [y] is strictly further than [x] in the direction of the call. *)
Definition strictly (useGrow : bool) (x y : Z) : Prop :=
  if useGrow then x < y else y < x.

(** The invariant of the loop: what the items are sure to take has not
    reached the container size, or the loop is over and the targets have
    not passed it. *)
Definition balanced (g : bool) (c : Z) (items : list Item) : Prop :=
  Forall (flexible g) items /\ Forall (anchored g) items /\
  (allFrozen items = true /\ dir g (zsum (map targetMainSize items)) c \/
   strictly g (zsum (map reserved items)) c).

(** The same for a call that grows items none of which has a maximum:
    the loop is over only once the targets add up to the container
    size. *)
Definition filling (c : Z) (items : list Item) : Prop :=
  Forall (flexible true) items /\ Forall (anchored true) items /\
  Forall (fun it => Max it = 0) items /\
  (allFrozen items = true /\ zsum (map targetMainSize items) = c \/
   allFrozen items = false /\ zsum (map reserved items) < c).

(** ** Tables of cells *)

(** The cell in row [r], position [k], the zero value where there is
    none. *)
Definition cell {T : Type} (zero : T) (rows : list (list T)) (r k : nat) : T :=
  nth k (nth r rows []) zero.

(** [m] rows of [n] cells each. *)
Definition shape {T : Type} (m n : nat) (rows : list (list T)) : Prop :=
  length rows = m /\ Forall (fun row => length row = n) rows.

(** ** Columns and the cells of a row *)

(** The columns [SetColumns] keeps: those that are not [Omit], as flex
    items. *)
Definition keptColumns (cols : list flexwriter.Column)
  : list flexwriter.flexItem :=
  flat_map (fun col => match flexwriter.flex col with
                       | Some item => [item]
                       | None => []
                       end) cols.

(** The cells of a row that are to appear, each with the definition of
    the column it was written for: the configured column at its position
    when there is one, the default column otherwise. *)
Fixpoint laidOut (cols : list flexwriter.Column) (omitDefault : bool)
         (defaultCol : flexwriter.flexItem) (cells : list flexwriter.any)
  : list (String.string * flexwriter.flexItem) :=
  match cells with
  | [] => []
  | cell :: rest =>
      match cols with
      | [] =>
          if omitDefault then laidOut [] omitDefault defaultCol rest
          else (flexwriter.toString cell, defaultCol)
                 :: laidOut [] omitDefault defaultCol rest
      | col :: cols' =>
          match flexwriter.flex col with
          | None => laidOut cols' omitDefault defaultCol rest
          | Some item =>
              (flexwriter.toString cell, item)
                :: laidOut cols' omitDefault defaultCol rest
          end
      end
  end.

(** ** The widths of the columns *)

(** The flex items of the writer are as [flex] builds them: no call of
    [ResolveFlexLengths] has frozen them. *)
Definition unlaid (w : flexwriter.Writer) : Prop :=
  Forall (fun col => frozen (flexwriter.flexItem_Item col) = false)
         (flexwriter.columns w) /\
  frozen (flexwriter.flexItem_Item (flexwriter.defaultCol w)) = false.

(** [x] is a legal width for a column defined by [col]: at least 1, at
    most the maximum when there is one, at least the minimum when there
    is one that does not contradict the maximum. *)
Definition legalWidth (col : Item) (x : Z) : Prop :=
  1 <= x /\ (0 < Max col -> x <= Max col) /\
  (0 < Min col -> (0 < Max col -> Min col <= Max col) -> Min col <= x).

(** ** Rows written as text *)

Definition tab : ascii := "009"%char.
Definition newline : ascii := "010"%char.

(** The byte [c] does not occur in [s]. *)
Fixpoint lacks (c : ascii) (s : String.string) : bool :=
  match s with
  | String.EmptyString => true
  | String.String a rest => negb (Ascii.eqb a c) && lacks c rest
  end.

(** The cells of a row with [sep] between them. *)
Fixpoint joined (sep : ascii) (cells : list String.string) : String.string :=
  match cells with
  | [] => String.EmptyString
  | [cell] => cell
  | cell :: rest => String.append cell (String.String sep (joined sep rest))
  end.

(** Rows as [text/tabwriter] takes them: the cells of a row separated by
    tabs, every row ended by a newline. *)
Fixpoint tabbed (rows : list (list String.string)) : String.string :=
  match rows with
  | [] => String.EmptyString
  | row :: rest =>
      String.append (joined tab row) (String.String newline (tabbed rest))
  end.

(** A cell that can be written between tabs and newlines. *)
Definition plainCell (cell : String.string) : Prop :=
  lacks tab cell = true /\ lacks newline cell = true.

(** ** The longest word *)

(** What [minContent] has seen after some runes of total width [total]:
    no word is longer than the text so far, every rune seen fits into the
    longest word or the current one, and there is no current word
    without a type. *)
Definition wordsSeen (imports : flexwriter.Imports) (total : Z)
           (seen : list Z) (st : flexwriter.words) : Prop :=
  0 <= flexwriter.words_max st <= total /\
  0 <= flexwriter.wordLen st <= total /\
  Forall (fun r => flexwriter.runewidth_RuneWidth imports r
                   <= Z.max (flexwriter.words_max st) (flexwriter.wordLen st))
         seen /\
  (flexwriter.wordType st = flexwriter.none -> flexwriter.wordLen st = 0).

(** ** Aligned cells *)

(** The spaces [align] puts before a text that is [pad] columns short
    of the width. *)
Definition padBefore (al : flexwriter.Alignment) (pad : Z) : Z :=
  match al with
  | flexwriter.Left => 0
  | flexwriter.Center => pad / 2
  | flexwriter.Right => pad
  end.

(** * Proofs *)

(** ** Normalization *)

Lemma Validate_steps (it : Item) :
  Validate it =
  whenBounded (sizeAtLeastMin (maxAtLeast0 (sizeAtLeast1
    (shrinkAtLeast0 (growAtLeast0 (minAtLeast1 it)))))).
Proof. reflexivity. Qed.

Ltac reduce_item :=
  cbn [negb andb orb fst snd Min Max Size Grow Shrink Basis flexBaseSize
       hypoMainSize frozen targetMainSize set_Min set_Max set_Size set_Grow
       set_Shrink set_flexBaseSize set_hypoMainSize set_frozen
       set_targetMainSize minAtLeast1 growAtLeast0 shrinkAtLeast0
       sizeAtLeast1 maxAtLeast0 sizeAtLeastMin maxAtLeastMin sizeAtMostMax
       whenBounded] in *.

Ltac reduce_goal :=
  cbn [negb andb orb fst snd Min Max Size Grow Shrink Basis flexBaseSize
       hypoMainSize frozen targetMainSize set_Min set_Max set_Size set_Grow
       set_Shrink set_flexBaseSize set_hypoMainSize set_frozen
       set_targetMainSize minAtLeast1 growAtLeast0 shrinkAtLeast0
       sizeAtLeast1 maxAtLeast0 sizeAtLeastMin maxAtLeastMin sizeAtMostMax
       whenBounded].

(** Decide the comparisons of the source one after the other, in the
    order the code evaluates them. *)
Ltac case_cmp :=
  repeat (reduce_goal;
          match goal with
          | |- context [?a >? ?b] => rewrite (Z.gtb_ltb a b)
          | |- context [?a >=? ?b] => rewrite (Z.geb_leb a b)
          | |- context [if ?a <? ?b then _ else _] =>
              destruct (Z.ltb_spec a b)
          | |- context [if ?a <=? ?b then _ else _] =>
              destruct (Z.leb_spec a b)
          | |- context [if ?a =? ?b then _ else _] =>
              destruct (Z.eqb_spec a b)
          | |- context [negb (?a =? ?b)] => destruct (Z.eqb_spec a b)
          | |- context [(?a =? ?b) || _] => destruct (Z.eqb_spec a b)
          | |- context [_ || (?a <? ?b)] => destruct (Z.ltb_spec a b)
          | |- context [_ && (?a <? ?b)] => destruct (Z.ltb_spec a b)
          end);
  reduce_goal.

(** Each statement of [Validate] as the assignment it amounts to. *)
Lemma minAtLeast1_eq it : minAtLeast1 it = set_Min (Z.max 1 (Min it)) it.
Proof. destruct it; case_cmp; f_equal; lia. Qed.
Lemma growAtLeast0_eq it : growAtLeast0 it = set_Grow (Z.max 0 (Grow it)) it.
Proof. destruct it; case_cmp; f_equal; lia. Qed.
Lemma shrinkAtLeast0_eq it :
  shrinkAtLeast0 it = set_Shrink (Z.max 0 (Shrink it)) it.
Proof. destruct it; case_cmp; f_equal; lia. Qed.
Lemma sizeAtLeast1_eq it : sizeAtLeast1 it = set_Size (Z.max 1 (Size it)) it.
Proof. destruct it; case_cmp; f_equal; lia. Qed.
Lemma maxAtLeast0_eq it : maxAtLeast0 it = set_Max (Z.max 0 (Max it)) it.
Proof. destruct it; case_cmp; f_equal; lia. Qed.
Lemma sizeAtLeastMin_eq it :
  sizeAtLeastMin it = set_Size (Z.max (Min it) (Size it)) it.
Proof. destruct it; case_cmp; f_equal; lia. Qed.
Lemma maxAtLeastMin_eq it :
  maxAtLeastMin it = set_Max (Z.max (Min it) (Max it)) it.
Proof. destruct it; case_cmp; f_equal; lia. Qed.
Lemma sizeAtMostMax_eq it :
  sizeAtMostMax it = set_Size (Z.min (Size it) (Max it)) it.
Proof. destruct it; case_cmp; f_equal; lia. Qed.

Lemma Validate_closed (it : Item) :
  Validate it =
  mkItem (Basis it) (Z.max 0 (Grow it)) (Z.max 0 (Shrink it)) (normSize it)
         (normMin it) (normMax it)
         (flexBaseSize it) (hypoMainSize it) (frozen it) (targetMainSize it).
Proof.
  rewrite Validate_steps. unfold whenBounded.
  rewrite sizeAtMostMax_eq, maxAtLeastMin_eq, sizeAtLeastMin_eq,
    maxAtLeast0_eq, sizeAtLeast1_eq, shrinkAtLeast0_eq, growAtLeast0_eq,
    minAtLeast1_eq.
  unfold normSize, normMax, normMin; reduce_goal.
  destruct (Z.eqb_spec (Z.max 0 (Max it)) 0) as [E | E]; reduce_goal;
    f_equal; lia.
Qed.

Lemma Validate_valid (it : Item) : valid (Validate it).
Proof.
  rewrite Validate_closed; unfold valid, normSize, normMax, normMin.
  reduce_goal.
  destruct (Z.eqb_spec (Z.max 0 (Max it)) 0); lia.
Qed.

Lemma Validate_fixes_valid (it : Item) : valid it -> Validate it = it.
Proof.
  rewrite Validate_closed; unfold valid, normSize, normMax, normMin.
  destruct it; reduce_goal. intros (H1 & H2 & H3 & H4 & H5 & H6 & H7).
  destruct (Z.eqb_spec (Z.max 0 Max0) 0); f_equal; lia.
Qed.

Lemma Validate_private (it : Item) :
  flexBaseSize (Validate it) = flexBaseSize it /\
  hypoMainSize (Validate it) = hypoMainSize it /\
  frozen (Validate it) = frozen it /\
  targetMainSize (Validate it) = targetMainSize it.
Proof. rewrite Validate_closed; auto. Qed.

(** C9.  Normalization is idempotent: validating an item a second time
    changes nothing, neither the exported fields (Basis, Grow, Shrink,
    Size, Min, Max) nor the rest of the record. *)
Theorem Validate_idempotent (it : Item) :
  exported (Validate (Validate it)) = exported (Validate it) /\
  Validate (Validate it) = Validate it.
Proof.
  assert (E : Validate (Validate it) = Validate it)
    by (apply Validate_fixes_valid, Validate_valid).
  now rewrite E.
Qed.

(** ** Lists related position by position *)

Lemma Forall2_trans' {A B C : Type} (R : A -> B -> Prop)
      (S : B -> C -> Prop) (T : A -> C -> Prop) :
  (forall a b c, R a b -> S b c -> T a c) ->
  forall l1 l2 l3, Forall2 R l1 l2 -> Forall2 S l2 l3 -> Forall2 T l1 l3.
Proof.
  intros H l1 l2 l3 H12; revert l3.
  induction H12; intros l3 H23; inversion H23; subst; eauto.
Qed.

Lemma Forall2_map_right {A B : Type} (R : A -> B -> Prop) (f : A -> B) l :
  (forall a, R a (f a)) -> Forall2 R l (map f l).
Proof. intros H; induction l; cbn; auto. Qed.

Lemma Forall2_map_eq {A B C : Type} (R : A -> B -> Prop) (f : A -> C)
      (g : B -> C) l l' :
  (forall a b, R a b -> f a = g b) -> Forall2 R l l' -> map f l = map g l'.
Proof. intros H F; induction F; cbn; f_equal; auto. Qed.

(** ** What a pass may change *)

Lemma evolves_refl it : evolves it it.
Proof. unfold evolves; auto. Qed.

Lemma evolves_trans a b c : evolves a b -> evolves b c -> evolves a c.
Proof.
  unfold evolves; intros (E1 & F1 & H1 & K1) (E2 & F2 & H2 & K2).
  split; [| split; [| split]]; try congruence.
  intros Fa. destruct (K1 Fa) as [Fb Tb]. destruct (K2 Fb). split; congruence.
Qed.

Lemma evolves_all_refl items : Forall2 evolves items items.
Proof. induction items; auto using evolves_refl. Qed.

Lemma evolves_all_trans l1 l2 l3 :
  Forall2 evolves l1 l2 -> Forall2 evolves l2 l3 -> Forall2 evolves l1 l3.
Proof. apply Forall2_trans', evolves_trans. Qed.

Lemma retargeted_evolves it it' : retargeted it it' -> evolves it it'.
Proof.
  intros [-> | [F [t ->]]]; [apply evolves_refl |].
  unfold evolves, exported; reduce_goal.
  split; [| split; [| split]]; auto. intros; congruence.
Qed.

Lemma retargeted_frozen it it' : retargeted it it' -> frozen it' = frozen it.
Proof. now intros [-> | [F [t ->]]]. Qed.

Lemma retargeted_all_refl items : Forall2 retargeted items items.
Proof. induction items; constructor; auto. now left. Qed.

Lemma distributeGrow_retargeted items :
  forall r s, Forall2 retargeted items (fst (distributeGrow r s items)).
Proof.
  induction items as [| it rest IH]; intros r s; cbn [distributeGrow].
  - constructor.
  - destruct (frozen it) eqn:F.
    + specialize (IH r s). destruct (distributeGrow r s rest); cbn in *.
      constructor; auto. now left.
    + destruct (s =? 0).
      * cbn. apply retargeted_all_refl.
      * match goal with
        | |- context [distributeGrow ?r' ?s' rest] =>
            specialize (IH r' s'); destruct (distributeGrow r' s' rest)
        end.
        cbn in *. constructor; auto. right. split; [assumption | eexists; reflexivity].
Qed.

Lemma distributeShrink_retargeted items :
  forall r s scaled,
    Forall2 retargeted items (fst (distributeShrink r s items scaled)).
Proof.
  induction items as [| it rest IH]; intros r s scaled;
    cbn [distributeShrink].
  - destruct scaled; constructor.
  - destruct scaled as [| w ws]; [apply retargeted_all_refl |].
    destruct (frozen it) eqn:F.
    + specialize (IH r s ws). destruct (distributeShrink r s rest ws).
      cbn in *. constructor; auto. now left.
    + destruct (s =? 0).
      * cbn. apply retargeted_all_refl.
      * match goal with
        | |- context [distributeShrink ?r' ?s' rest ws] =>
            specialize (IH r' s' ws);
            destruct (distributeShrink r' s' rest ws)
        end.
        cbn in *. constructor; auto. right. split; [assumption | eexists; reflexivity].
Qed.

Lemma distribute_retargeted useGrow r items :
  Forall2 retargeted items (fst (distribute useGrow r items)).
Proof.
  unfold distribute. destruct (r =? 0); [apply retargeted_all_refl |].
  destruct useGrow;
    [apply distributeGrow_retargeted | apply distributeShrink_retargeted].
Qed.

Lemma clampItem_retargeted it : retargeted it (fst (clampItem it)).
Proof.
  unfold clampItem. destruct (frozen it) eqn:F; [now left |].
  destruct (targetMainSize it <? Min it); [right; split; [assumption | eexists; reflexivity] |].
  destruct (negb (Max it =? 0) && (targetMainSize it >? Max it));
    [right; split; [assumption | eexists; reflexivity] | now left].
Qed.

Lemma clampAll_retargeted items :
  Forall2 retargeted items (fst (clampAll items)).
Proof. apply Forall2_map_right, clampItem_retargeted. Qed.

Lemma refrozen_evolves it it' : refrozen it it' -> evolves it it'.
Proof.
  intros [-> | ->]; [apply evolves_refl |].
  unfold evolves, exported; reduce_goal. auto.
Qed.

Lemma freezeWhere_refrozen sel items :
  forall vs, Forall2 refrozen items (freezeWhere sel items vs).
Proof.
  induction items as [| it rest IH]; intros [| v vs]; cbn;
    try constructor; auto.
  - left; auto.
  - clear. induction rest; constructor; auto. now left.
  - destruct (sel v); [now right | now left].
Qed.

Lemma freezeViolators_refrozen total items vs :
  Forall2 refrozen items (freezeViolators total items vs).
Proof.
  unfold freezeViolators. destruct (total =? 0).
  - apply Forall2_map_right. now right.
  - destruct (total >? 0); apply freezeWhere_refrozen.
Qed.

Lemma pass_evolves useGrow c items :
  Forall2 evolves items (fst (fst (pass useGrow c items))).
Proof.
  unfold pass.
  pose proof (distribute_retargeted useGrow (freeSpace c items) items) as D.
  destruct (distribute useGrow (freeSpace c items) items) as [items1 [p |]];
    cbn [fst] in *.
  - eapply Forall2_impl; [| exact D]. apply retargeted_evolves.
  - pose proof (clampAll_retargeted items1) as K.
    destruct (clampAll items1) as [items2 vs]; cbn [fst] in *.
    pose proof (freezeViolators_refrozen (totalViolationOf vs) items2 vs).
    eapply evolves_all_trans; [| eapply evolves_all_trans].
    + eapply Forall2_impl; [| exact D]. apply retargeted_evolves.
    + eapply Forall2_impl; [| exact K]. apply retargeted_evolves.
    + eapply Forall2_impl; [| eassumption]. apply refrozen_evolves.
Qed.

Lemma distributionLoop_evolves useGrow c :
  forall budget items log,
    Forall2 evolves items
            (itemsAfter (distributionLoop budget useGrow c items log)).
Proof.
  induction budget as [| budget IH]; intros items log;
    cbn [distributionLoop].
  - apply evolves_all_refl.
  - destruct (allFrozen items); [apply evolves_all_refl |].
    pose proof (pass_evolves useGrow c items) as P.
    destruct (pass useGrow c items) as [[items' vs] [p |]]; cbn [fst] in P.
    + exact P.
    + eapply evolves_all_trans; [exact P | apply IH].
Qed.

Lemma Forall_through_Forall2 {A B : Type} (P : A -> Prop) (Q : B -> Prop)
      (R : A -> B -> Prop) l l' :
  (forall a b, P a -> R a b -> Q b) ->
  Forall P l -> Forall2 R l l' -> Forall Q l'.
Proof.
  intros H FP FR; induction FR; inversion FP; subst; constructor; eauto.
Qed.

(** ** The loop in general *)

(** Whatever the loop preserves pass after pass holds of the store it
    returns with, every item of which is frozen; the widths are the
    targets of that store. *)
Lemma distributionLoop_returned (P : list Item -> Prop) useGrow c :
  (forall items items' vs,
      P items -> allFrozen items = false ->
      pass useGrow c items = (items', vs, None) -> P items') ->
  forall budget items log lens,
    P items ->
    result (distributionLoop budget useGrow c items log) = Returned lens ->
    P (itemsAfter (distributionLoop budget useGrow c items log)) /\
    allFrozen (itemsAfter (distributionLoop budget useGrow c items log))
    = true /\
    lens = map targetMainSize
               (itemsAfter (distributionLoop budget useGrow c items log)).
Proof.
  intros Hpass. induction budget as [| budget IH]; intros items log lens HP;
    cbn [distributionLoop].
  - discriminate.
  - destruct (allFrozen items) eqn:AF.
    + cbn. intros [= <-]. auto.
    + pose proof (Hpass items) as Hp.
      destruct (pass useGrow c items) as [[items' vs] [p |]].
      * discriminate.
      * apply IH. eapply Hp; eauto.
Qed.

(** ** Preparation of the items (lines 107-116) *)

Lemma determineHypoMainSize_hypo it :
  hypoMainSize (determineHypoMainSize it) =
  let h := Z.max (flexBaseSize it) (Min it) in
  if negb (Max it =? 0) && (h >? Max it) then Max it else h.
Proof.
  unfold determineHypoMainSize; reduce_goal.
  destruct (Z.ltb_spec (flexBaseSize it) (Min it)); reduce_goal.
  - replace (Z.max (flexBaseSize it) (Min it)) with (Min it) by lia.
    now destruct (negb (Max it =? 0) && (Min it >? Max it)).
  - replace (Z.max (flexBaseSize it) (Min it)) with (flexBaseSize it) by lia.
    now destruct (negb (Max it =? 0) && (flexBaseSize it >? Max it)).
Qed.

Lemma determineHypoMainSize_frame it :
  exported (determineHypoMainSize it) = exported it /\
  flexBaseSize (determineHypoMainSize it) = flexBaseSize it /\
  frozen (determineHypoMainSize it) = frozen it /\
  targetMainSize (determineHypoMainSize it) = targetMainSize it.
Proof.
  unfold determineHypoMainSize, exported; reduce_goal.
  destruct (flexBaseSize it <? Min it); reduce_goal;
    match goal with |- context [if ?c then _ else _] => destruct c end;
    auto.
Qed.

Lemma determineFlexBaseSize_frame it :
  exported (determineFlexBaseSize it) = exported it /\
  frozen (determineFlexBaseSize it) = frozen it /\
  targetMainSize (determineFlexBaseSize it) = targetMainSize it /\
  flexBaseSize (determineFlexBaseSize it) =
  if Basis it >=? 0 then Basis it else Size it.
Proof.
  unfold determineFlexBaseSize, exported.
  destruct (Basis it >=? 0); auto.
Qed.

Lemma prepare_frame it :
  exported (prepare it) = exported (Validate it) /\
  frozen (prepare it) = frozen it /\
  targetMainSize (prepare it) = targetMainSize it.
Proof.
  unfold prepare.
  destruct (determineHypoMainSize_frame
              (determineFlexBaseSize (Validate it))) as (E1 & _ & F1 & T1).
  destruct (determineFlexBaseSize_frame (Validate it)) as (E2 & F2 & T2 & _).
  destruct (Validate_private it) as (_ & _ & F3 & T3).
  repeat split; congruence.
Qed.

Lemma exported_fields it it' :
  exported it' = exported it ->
  Basis it' = Basis it /\ Grow it' = Grow it /\ Shrink it' = Shrink it /\
  Size it' = Size it /\ Min it' = Min it /\ Max it' = Max it.
Proof. unfold exported. intros [= -> -> -> -> -> ->]. auto 10. Qed.

Lemma prepare_prepared it : prepared (prepare it).
Proof.
  unfold prepare, prepared.
  set (v := Validate it). pose proof (Validate_valid it) as V. fold v in V.
  set (b := determineFlexBaseSize v).
  destruct (determineFlexBaseSize_frame v) as (Eb & _ & _ & Fb). fold b in Eb, Fb.
  destruct (determineHypoMainSize_frame b) as (Eh & Fh & _ & _).
  pose proof (determineHypoMainSize_hypo b) as Hh. cbv zeta in Hh.
  destruct (exported_fields _ _ Eb) as (B1 & G1 & S1 & Z1 & M1 & X1).
  destruct (exported_fields _ _ Eh) as (B2 & G2 & S2 & Z2 & M2 & X2).
  unfold valid in *. rewrite Fh, Hh, ?B2, ?G2, ?S2, ?Z2, ?M2, ?X2.
  rewrite ?G1, ?S1, ?Z1, ?M1, ?X1, Fb.
  destruct V as (V1 & V2 & V3 & V4 & V5 & V6 & V7).
  assert (0 <= (if Basis v >=? 0 then Basis v else Size v)).
  { rewrite Z.geb_leb. destruct (Z.leb_spec 0 (Basis v)); lia. }
  destruct (Z.eqb_spec (Max v) 0); cbn [negb andb].
  - repeat split; try lia.
  - rewrite Z.gtb_ltb.
    match goal with |- context [?a <? ?b] => destruct (Z.ltb_spec a b) end;
      repeat split; try lia.
Qed.

Lemma sizeIfInflexible_frame useGrow it :
  exported (sizeIfInflexible useGrow it) = exported it /\
  flexBaseSize (sizeIfInflexible useGrow it) = flexBaseSize it /\
  hypoMainSize (sizeIfInflexible useGrow it) = hypoMainSize it /\
  (frozen (sizeIfInflexible useGrow it) = true ->
   frozen it = true \/
   targetMainSize (sizeIfInflexible useGrow it) = hypoMainSize it).
Proof.
  unfold sizeIfInflexible, exported.
  destruct useGrow;
    match goal with |- context [if ?c then _ else _] => destruct c end;
    reduce_goal; auto.
Qed.

(** ** The store after a call *)

Lemma cons_eq_inv {A : Type} (a b : A) l l' :
  a :: l = b :: l' -> a = b /\ l = l'.
Proof. intros [= -> ->]. auto. Qed.

Lemma prepare_all_exported items :
  map exported (map prepare items) =
  map (fun it => exported (Validate it)) items.
Proof.
  rewrite map_map. apply map_ext. intros it. apply prepare_frame.
Qed.

Lemma resolveLoop_exported items c sum :
  map exported (itemsAfter (resolveLoop items c sum)) = map exported items.
Proof.
  unfold resolveLoop.
  transitivity (map exported (map (sizeIfInflexible (sum <? c)) items)).
  - symmetry. eapply Forall2_map_eq; [| apply distributionLoop_evolves].
    intros a b E. symmetry. apply E.
  - rewrite map_map. apply map_ext. intros it. apply sizeIfInflexible_frame.
Qed.

Lemma ResolveFlexLengths_exported items c :
  map exported (itemsAfter (ResolveFlexLengths items c)) =
  map (fun it => exported (Validate it)) items.
Proof.
  unfold ResolveFlexLengths.
  destruct (sumHypoMainSizeOf (map prepare items) =? clampContainerSize c).
  - apply prepare_all_exported.
  - rewrite resolveLoop_exported. apply prepare_all_exported.
Qed.

(** C10.  [ResolveFlexLengths] writes into the caller's items: after any
    call, returned or panicked, the exported fields of the item at each
    position are those of the input item normalized by [Validate] (so
    [Min] is at least 1), which need not be the values the caller
    supplied: an item passed with [Min] 0 comes back with [Min] 1. *)
Theorem ResolveFlexLengths_mutates_items :
  (forall items c,
      map exported (itemsAfter (ResolveFlexLengths items c)) =
      map (fun it => exported (Validate it)) items /\
      Forall (fun it => 1 <= Min it)
             (itemsAfter (ResolveFlexLengths items c))) /\
  (let items := [newItem 0 1 0 0 0 0] in
   map Min items = [0] /\
   map Min (itemsAfter (ResolveFlexLengths items 60)) = [1] /\
   itemsAfter (ResolveFlexLengths items 60) <> items).
Proof.
  split.
  - intros items c. pose proof (ResolveFlexLengths_exported items c) as E.
    split; [exact E |].
    remember (itemsAfter (ResolveFlexLengths items c)) as after eqn:Ea.
    clear Ea. revert after E.
    induction items as [| it items IH]; intros [| a after]; cbn;
      try discriminate; constructor.
    + apply cons_eq_inv in E. destruct E as [E _].
      apply exported_fields in E.
      destruct E as (_ & _ & _ & _ & -> & _). apply Validate_valid.
    + apply IH. now apply cons_eq_inv in E.
  - cbv zeta. split; [reflexivity |]. split; [reflexivity |].
    vm_compute. discriminate.
Qed.

(** ** The returned widths, position by position *)

Lemma resolveLoop_widths items c sum lens :
  result (resolveLoop items c sum) = Returned lens ->
  lens = map targetMainSize (itemsAfter (resolveLoop items c sum)) /\
  allFrozen (itemsAfter (resolveLoop items c sum)) = true.
Proof.
  unfold resolveLoop. intros H.
  eapply (distributionLoop_returned (fun _ => True)) in H; auto.
  tauto.
Qed.

(** C7.  The list [ResolveFlexLengths] returns has one width per input
    item, and the width at each position is the one resolved for the item
    at that position: the item at position i of the store is input item i
    (normalized), and width i is read from it. *)
Theorem ResolveFlexLengths_widths_in_order items c lens :
  result (ResolveFlexLengths items c) = Returned lens ->
  length lens = length items /\
  map exported (itemsAfter (ResolveFlexLengths items c)) =
  map (fun it => exported (Validate it)) items /\
  lens = map (resolvedWidth (fastPath items c))
             (itemsAfter (ResolveFlexLengths items c)).
Proof.
  intros H. pose proof (ResolveFlexLengths_exported items c) as E.
  assert (W : lens = map (resolvedWidth (fastPath items c))
                         (itemsAfter (ResolveFlexLengths items c))).
  { revert H. unfold ResolveFlexLengths, fastPath, resolvedWidth.
    destruct (sumHypoMainSizeOf (map prepare items) =? clampContainerSize c).
    - cbn. now intros [= <-].
    - intros H. now apply resolveLoop_widths in H. }
  split; [| split]; auto.
  rewrite W, length_map.
  rewrite <- (length_map exported), E. apply length_map.
Qed.

Lemma ResolveFlexLengths_widths_in_order_witness :
  let items := [newItem 0 1 0 0 0 0; newItem 0 2 0 0 0 0] in
  result (ResolveFlexLengths items 60) = Returned [20; 40] /\
  length [20; 40] = length items.
Proof.
  cbv zeta. split; [vm_compute; reflexivity |].
  apply (ResolveFlexLengths_widths_in_order
           [newItem 0 1 0 0 0 0; newItem 0 2 0 0 0 0] 60 [20; 40]).
  vm_compute; reflexivity.
Defined.

(** ** Widths respect the bounds of their item *)

Lemma settled_retargeted it it' : settled it -> retargeted it it' -> settled it'.
Proof.
  intros S [-> | [F [t ->]]]; auto.
  unfold settled, inBounds in *; reduce_goal.
  destruct S as (S1 & S2 & _). repeat split; auto; congruence.
Qed.

Lemma clampItem_inBounds it : settled it -> inBounds (fst (clampItem it)).
Proof.
  unfold settled, clampItem. intros (S1 & S2 & S3).
  destruct (frozen it) eqn:F; [cbn; auto |].
  destruct (Z.ltb_spec (targetMainSize it) (Min it)).
  - unfold inBounds; reduce_goal. repeat split; auto; lia.
  - destruct (Z.eqb_spec (Max it) 0); cbn [negb andb].
    + unfold inBounds; cbn. repeat split; auto; lia.
    + rewrite Z.gtb_ltb.
      destruct (Z.ltb_spec (Max it) (targetMainSize it));
        unfold inBounds; reduce_goal; repeat split; auto; lia.
Qed.

Lemma inBounds_refrozen it it' : inBounds it -> refrozen it it' -> inBounds it'.
Proof. intros S [-> | ->]; auto. Qed.

Lemma inBounds_settled it : inBounds it -> settled it.
Proof. unfold settled, inBounds. tauto. Qed.

Lemma pass_settled useGrow c items items' vs :
  Forall settled items ->
  pass useGrow c items = (items', vs, None) ->
  Forall settled items'.
Proof.
  unfold pass. intros S.
  pose proof (distribute_retargeted useGrow (freeSpace c items) items) as D.
  destruct (distribute useGrow (freeSpace c items) items) as [items1 [p |]];
    [discriminate |].
  cbn [fst] in D. unfold clampAll. intros [= <- <-].
  assert (S1 : Forall settled items1)
    by (eapply Forall_through_Forall2; [| exact S | exact D];
        apply settled_retargeted).
  eapply Forall_through_Forall2;
    [| | apply freezeViolators_refrozen].
  - intros a b Ha R. apply inBounds_settled.
    eapply inBounds_refrozen; eauto.
  - apply Forall_map. eapply Forall_impl; [| exact S1].
    apply clampItem_inBounds.
Qed.

Lemma prefreeze_settled useGrow it :
  prepared it -> frozen it = false -> settled (sizeIfInflexible useGrow it).
Proof.
  intros (V & B & H1 & H2 & _) F.
  destruct (sizeIfInflexible_frame useGrow it) as (E & _ & Hh & K).
  apply exported_fields in E. destruct E as (_ & _ & _ & _ & EM & EX).
  unfold settled, inBounds, valid in *. rewrite EM, EX.
  destruct V as (V1 & _ & _ & _ & _ & _ & V7).
  split; [lia |]. split; [intros X; apply V7 in X; lia |].
  intros Fz. destruct (K Fz) as [K1 | K1]; [congruence |].
  rewrite K1. repeat split; try lia; intros X; apply V7 in X; lia.
Qed.

Lemma settled_frozen_inBounds items :
  Forall settled items -> allFrozen items = true -> Forall inBounds items.
Proof.
  unfold allFrozen. rewrite forallb_forall, !Forall_forall.
  intros S F it In. apply S; auto.
Qed.

(** C2 (as amended).  For items that are not frozen when the call starts
    (any item not left behind by an earlier call), every width that
    [ResolveFlexLengths] returns is at least 1, at least the item's
    normalized [Min], and at most its normalized [Max] when that is not
    zero; this holds for all integer field values. *)
Theorem ResolveFlexLengths_widths_within_bounds items c lens :
  Forall (fun it => frozen it = false) items ->
  result (ResolveFlexLengths items c) = Returned lens ->
  Forall2 withinBounds items lens.
Proof.
  intros Fresh H.
  destruct (ResolveFlexLengths_widths_in_order items c lens H)
    as (_ & E & W).
  assert (P : Forall prepared (map prepare items))
    by (apply Forall_map, Forall_forall; intros; apply prepare_prepared).
  assert (F0 : Forall (fun it => frozen it = false) (map prepare items)).
  { apply Forall_map. eapply Forall_impl; [| exact Fresh].
    intros it F. now rewrite (proj1 (proj2 (prepare_frame it))). }
  assert (G : Forall (fun it => 1 <= resolvedWidth (fastPath items c) it /\
                                Min it <= resolvedWidth (fastPath items c) it /\
                                (Max it <> 0 ->
                                 resolvedWidth (fastPath items c) it <= Max it))
                     (itemsAfter (ResolveFlexLengths items c))).
  { revert H. unfold ResolveFlexLengths, fastPath, resolvedWidth.
    destruct (sumHypoMainSizeOf (map prepare items) =? clampContainerSize c).
    - cbn. intros _. eapply Forall_impl; [| exact P].
      intros it (V & _ & H1 & H2 & _). unfold valid in V. repeat split;
        auto; lia.
    - unfold resolveLoop. intros H.
      eapply (distributionLoop_returned (Forall settled)) in H.
      + destruct H as (S & AF & _).
        eapply Forall_impl; [| apply settled_frozen_inBounds; eauto].
        unfold inBounds. intros it ?. repeat split; try tauto; lia.
      + intros; eapply pass_settled; eauto.
      + apply Forall_map. rewrite Forall_forall in *.
        intros it In. apply prefreeze_settled; auto. }
  subst lens. clear H.
  remember (itemsAfter (ResolveFlexLengths items c)) as after eqn:Ea.
  remember (fastPath items c) as fast eqn:Ef.
  clear Ea Ef P F0 Fresh. revert after E G.
  induction items as [| it items IH]; intros [| a after] E G; cbn in *;
    try discriminate; constructor.
  - apply cons_eq_inv in E. destruct E as [E _].
    apply exported_fields in E. destruct E as (_ & _ & _ & _ & EM & EX).
    inversion G; subst. unfold withinBounds. rewrite <- EM, <- EX. assumption.
  - apply cons_eq_inv in E. inversion G; subst. apply IH; tauto.
Qed.

Lemma ResolveFlexLengths_widths_within_bounds_witness :
  let items := [newItem 10 0 1 0 0 0; newItem 0 0 1 0 10 20] in
  Forall2 withinBounds items [1; 10].
Proof.
  cbv zeta.
  apply (ResolveFlexLengths_widths_within_bounds
           [newItem 10 0 1 0 0 0; newItem 0 0 1 0 10 20] 0 [1; 10]).
  - repeat constructor.
  - vm_compute; reflexivity.
Defined.

(** C2, the claim as stated: an item that went through the loop keeps its
    [frozen] flag and its target, so a second call on the same slice hands
    the old width back whatever the bounds now are.  Here the caller
    resolves [{Grow: 1}] at 60, sets [Max] to 10 and resolves again: the
    width is still 60. *)
Lemma reused_item_exceeds_Max :
  let first := ResolveFlexLengths [newItem 0 1 0 0 0 0] 60 in
  let items := map (set_Max 10) (itemsAfter first) in
  result first = Returned [60] /\
  result (ResolveFlexLengths items 60) = Returned [60] /\
  map (fun it => Max (Validate it)) items = [10] /\
  ~ Forall2 withinBounds items [60].
Proof.
  cbv zeta. split; [vm_compute; reflexivity |].
  split; [vm_compute; reflexivity |]. split; [vm_compute; reflexivity |].
  assert (E : map (set_Max 10)
                  (itemsAfter (ResolveFlexLengths [newItem 0 1 0 0 0 0] 60))
              = [mkItem 0 1 0 1 1 10 0 1 true 60])
    by (vm_compute; reflexivity).
  rewrite E. intros H.
  inversion H as [| it w l l' (_ & _ & HM) _]; subst.
  assert (V : Max (Validate (mkItem 0 1 0 1 1 10 0 1 true 60)) = 10)
    by (vm_compute; reflexivity).
  rewrite V in HM. lia.
Qed.

(** ** Concrete runs *)

(** C5 (as amended).  With container size 60, the two items
    [{Grow: 1, Basis: 10}, {Grow: 2}] (the basis on the first item, as in
    [TestFlexGrowBasisNonZero]) resolve to [26, 34]. *)
Theorem grow_with_basis_on_first_item :
  result (ResolveFlexLengths [newItem 10 1 0 0 0 0; newItem 0 2 0 0 0 0] 60)
  = Returned [26; 34].
Proof. vm_compute; reflexivity. Qed.

(** C5, the claim as stated: with the basis 10 on the second item the
    widths are [16, 44], not [26, 34]. *)
Lemma grow_with_basis_on_second_item :
  result (ResolveFlexLengths [newItem 0 1 0 0 0 0; newItem 10 2 0 0 0 0] 60)
  = Returned [16; 44] /\
  result (ResolveFlexLengths [newItem 0 1 0 0 0 0; newItem 10 2 0 0 0 0] 60)
  <> Returned [26; 34].
Proof. split; vm_compute; [reflexivity | discriminate]. Qed.

(** C1, at the failing input.  Three items [{Min: 2^62, Grow: 1}] in a
    container of 3: the sum of the hypothetical sizes wraps to -2^62, the
    call grows, every pass records the violation 2^62-1 three times, their
    sum wraps to a negative total, no item is frozen, and after the four
    passes the bound admits the function panics. *)
Theorem overflow_reaches_no_solution_panic :
  let items := [newItem 0 1 0 0 (2 ^ 62) 0; newItem 0 1 0 0 (2 ^ 62) 0;
                newItem 0 1 0 0 (2 ^ 62) 0] in
  Forall (fun it => in_range (Min it) /\ in_range (Grow it)) items /\
  result (ResolveFlexLengths items 3) = Panicked NoSolutionFound /\
  violationsLog (ResolveFlexLengths items 3) =
  repeat [2 ^ 62 - 1; 2 ^ 62 - 1; 2 ^ 62 - 1] 4.
Proof.
  cbv zeta. split; [| split]; [| vm_compute; reflexivity ..].
  repeat constructor; vm_compute; discriminate.
Qed.

(** C4, at the failing input.  One item [{Basis: 2^32, Shrink: 2^32}] in
    a container of 100: the call shrinks, the item is not frozen, the free
    space is not zero, and the scaled shrink factor 2^32 * 2^32 wraps to
    0, which is the divisor. *)
Theorem overflow_divides_by_zero :
  let items := [newItem (2 ^ 32) 0 (2 ^ 32) 0 0 0] in
  let store := map (sizeIfInflexible false) (map prepare items) in
  Forall (fun it => in_range (Basis it) /\ in_range (Shrink it)) items /\
  allFrozen store = false /\
  freeSpace 100 store <> 0 /\
  sumScaledShrinksOf store = 0 /\
  result (ResolveFlexLengths items 100) = Panicked IntegerDivideByZero.
Proof.
  cbv zeta. split; [| split; [| split; [| split]]];
    [| vm_compute; reflexivity | vm_compute; discriminate
     | vm_compute; reflexivity ..].
  repeat constructor; vm_compute; discriminate.
Qed.


(** C6, the claim as stated: the single item [{Basis: 30}] in a container
    of 60 is frozen before the loop, no pass runs, no violation is
    recorded, and the width 30 is returned. *)
Lemma inflexible_items_leave_space :
  let r := ResolveFlexLengths [newItem 30 0 0 0 0 0] 60 in
  violationsLog r = [] /\ result r = Returned [30] /\
  fold_right Z.add 0 [30] <> clampContainerSize 60.
Proof.
  cbv zeta; repeat split; vm_compute; try reflexivity; discriminate.
Qed.

(** C8, the claim as stated: the items [{Grow: 3}, {Grow: 2}] in a
    container of 3 have the same basis, min and max; the call grows and
    the item with the larger factor gets the smaller width. *)
Lemma larger_grow_gets_less :
  let items := [newItem 0 3 0 0 0 0; newItem 0 2 0 0 0 0] in
  sumHypoMainSizeOf (map prepare items) < clampContainerSize 3 /\
  result (ResolveFlexLengths items 3) = Returned [1; 2] /\
  ~ (1 >= 2).
Proof.
  cbv zeta; repeat split; try (vm_compute; reflexivity). lia.
Qed.

(** ** The fast path against the loop *)





(** ** Exact arithmetic *)

Lemma wrap_small z : in_range z -> wrap z = z.
Proof.
  unfold in_range, wrap, min_int, max_int. intros H.
  change (2 ^ 63) with 9223372036854775808 in *.
  change (2 ^ 64) with 18446744073709551616.
  rewrite Z.mod_small; lia.
Qed.

Lemma in_range_bounded z :
  - 4611686018427387904 <= z <= 4611686018427387904 -> in_range z.
Proof.
  unfold in_range, min_int, max_int.
  change (2 ^ 63) with 9223372036854775808. lia.
Qed.

Lemma zsum_app l1 l2 : zsum (l1 ++ l2) = zsum l1 + zsum l2.
Proof. unfold zsum. induction l1; cbn; lia. Qed.

Lemma zsum_bounds (lo hi : Z) l :
  Forall (fun x => lo <= x <= hi) l ->
  Z.of_nat (length l) * lo <= zsum l <= Z.of_nat (length l) * hi.
Proof.
  induction 1 as [| x l Hx _ IH]; [cbn; lia |].
  cbn [zsum fold_right length]. fold (zsum l).
  rewrite Nat2Z.inj_succ. lia.
Qed.

(** A running total kept by the code is the exact sum as long as the
    total stays in range at every step. *)
Lemma fold_left_exact {A : Type} (step : Z -> A -> Z) (f : A -> Z) (M : Z)
      (l : list A) :
  0 <= M ->
  (forall acc a, In a l -> in_range acc -> in_range (acc + f a) ->
                 step acc a = acc + f a) ->
  Forall (fun a => - M <= f a <= M) l ->
  forall acc,
    min_int <= acc - Z.of_nat (length l) * M ->
    acc + Z.of_nat (length l) * M <= max_int ->
    fold_left step l acc = acc + zsum (map f l).
Proof.
  intros HM. induction l as [| a l IH]; intros Hstep HF acc Hlo Hhi.
  - cbn. lia.
  - inversion HF as [| ? ? Ha HF']; subst.
    cbn [fold_left map zsum fold_right length] in *. fold (zsum (map f l)).
    rewrite Nat2Z.inj_succ in Hlo, Hhi.
    assert (Hl : 0 <= Z.of_nat (length l) * M) by (apply Z.mul_nonneg_nonneg; lia).
    rewrite Hstep; [| now left | unfold in_range; lia | unfold in_range; lia].
    rewrite IH; auto; try lia.
    intros; apply Hstep; auto. now right.
Qed.

Lemma zsum_map_opp {A : Type} (f : A -> Z) l :
  zsum (map (fun a => - f a) l) = - zsum (map f l).
Proof. unfold zsum. induction l; cbn; lia. Qed.

Lemma mul_bounded (a b A B : Z) :
  - A <= a <= A -> 0 <= b <= B -> - (A * B) <= a * b <= A * B.
Proof. intros. nia. Qed.

Lemma live_used useGrow it : live useGrow it -> 0 <= used it <= limit.
Proof.
  unfold live, sized, ranged, used. intros (S & R).
  destruct (frozen it); [| tauto].
  destruct R as [_ R]. specialize (R eq_refl). lia.
Qed.

Lemma live_weight useGrow it :
  live useGrow it -> 0 <= unfrozenWeight useGrow it <= limit * limit.
Proof.
  unfold live, sized, unfrozenWeight, weight, limit. intros (S & _).
  destruct (frozen it); [lia |]. destruct useGrow; nia.
Qed.

Lemma sumUnfrozenWeights_nonneg useGrow items :
  Forall (live useGrow) items -> 0 <= sumUnfrozenWeights useGrow items.
Proof.
  unfold sumUnfrozenWeights, zsum.
  induction 1 as [| it items H _ IH]; cbn; [lia |].
  apply live_weight in H. lia.
Qed.

(** ** The running totals of the code are exact *)

Ltac range_side :=
  unfold min_int, max_int, limit in *;
  change (2 ^ 63) with 9223372036854775808; lia.

Lemma freeSpace_exact useGrow c items :
  Forall (live useGrow) items ->
  Z.of_nat (length items) < limit -> 0 <= c <= limit ->
  freeSpace c items = exactFreeSpace c items /\
  - (limit * limit) <= exactFreeSpace c items <= limit.
Proof.
  intros L N C. unfold freeSpace, exactFreeSpace.
  assert (U : Forall (fun it => 0 <= used it <= limit) items)
    by (eapply Forall_impl; [| exact L]; apply live_used).
  pose proof (zsum_bounds 0 limit (map used items)) as B.
  rewrite length_map in B.
  assert (B' : 0 <= zsum (map used items) <= Z.of_nat (length items) * limit).
  { rewrite Z.mul_0_r in B. apply B. now apply Forall_map. }
  split; [| unfold limit in *; lia].
  replace (c - zsum (map used items))
    with (c + zsum (map (fun it => - used it) items))
    by (rewrite zsum_map_opp; lia).
  apply (fold_left_exact _ (fun it => - used it) limit).
  - unfold limit; lia.
  - intros acc it _ _ R. unfold used in *.
    destruct (frozen it); unfold sub;
      (rewrite wrap_small; [lia |]);
      match goal with H : in_range ?x |- in_range ?y =>
                        replace y with x by lia; exact H end.
  - eapply Forall_impl; [| exact U]. unfold limit. intros; lia.
  - range_side.
  - range_side.
Qed.

Lemma sumHypoMainSizeOf_exact items :
  Forall (fun it => 1 <= hypoMainSize it <= limit) items ->
  Z.of_nat (length items) < limit ->
  sumHypoMainSizeOf items = zsum (map hypoMainSize items).
Proof.
  intros H N. unfold sumHypoMainSizeOf.
  change (zsum (map hypoMainSize items))
    with (0 + zsum (map hypoMainSize items)).
  apply (fold_left_exact _ hypoMainSize limit).
  - unfold limit; lia.
  - intros acc it _ _ R. unfold add. now rewrite wrap_small.
  - eapply Forall_impl; [| exact H]. unfold limit. intros; lia.
  - range_side.
  - range_side.
Qed.

Lemma mul_exact_weight it useGrow :
  live useGrow it -> mul (Shrink it) (flexBaseSize it)
                     = Shrink it * flexBaseSize it.
Proof.
  unfold live, sized, limit. intros (S & _).
  unfold mul. apply wrap_small, in_range_bounded. nia.
Qed.

Lemma sumUnfrozenGrowFactors_exact items :
  Forall (live true) items -> Z.of_nat (length items) < limit ->
  sumUnfrozenGrowFactors items = sumUnfrozenWeights true items.
Proof.
  intros L N. unfold sumUnfrozenGrowFactors, sumUnfrozenWeights.
  change (zsum (map (unfrozenWeight true) items))
    with (0 + zsum (map (unfrozenWeight true) items)).
  apply (fold_left_exact _ (unfrozenWeight true) limit).
  - unfold limit; lia.
  - intros acc it _ R1 R2. unfold unfrozenWeight, weight in *.
    destruct (frozen it); [lia |]. unfold add. now rewrite wrap_small.
  - eapply Forall_impl; [| exact L]. intros it (S & _).
    unfold sized, unfrozenWeight, weight, limit in *.
    destruct (frozen it); lia.
  - range_side.
  - range_side.
Qed.

Lemma sumScaledShrinksOf_exact items :
  Forall (live false) items -> Z.of_nat (length items) < limit ->
  sumScaledShrinksOf items = sumUnfrozenWeights false items.
Proof.
  intros L N. unfold sumScaledShrinksOf, sumUnfrozenWeights.
  change (zsum (map (unfrozenWeight false) items))
    with (0 + zsum (map (unfrozenWeight false) items)).
  apply (fold_left_exact _ (unfrozenWeight false) (limit * limit)).
  - unfold limit; lia.
  - intros acc it In R1 R2. unfold unfrozenWeight, weight in *.
    destruct (frozen it); [lia |].
    rewrite Forall_forall in L.
    rewrite (mul_exact_weight it false) in * by auto.
    unfold add. now rewrite wrap_small.
  - eapply Forall_impl; [| exact L]. intros it H.
    apply live_weight in H. unfold limit in *. lia.
  - range_side.
  - range_side.
Qed.

Lemma scaledShrinksOf_exact items :
  Forall (live false) items ->
  scaledShrinksOf items = map (unfrozenWeight false) items.
Proof.
  intros L. unfold scaledShrinksOf. apply map_ext_in. intros it In.
  rewrite Forall_forall in L. unfold unfrozenWeight, weight.
  destruct (frozen it); [reflexivity |]. now apply (mul_exact_weight it false), L.
Qed.

(** ** One share *)

(** The share [r * w / s] of a factor [w] out of the remaining sum [s]
    lies between zero and the remaining free space [r]. *)
Lemma share_between (r w s : Z) :
  0 < w <= s ->
  (0 <= r -> 0 <= Z.quot (r * w) s <= r) /\
  (r <= 0 -> r <= Z.quot (r * w) s <= 0).
Proof.
  intros W. split; intros R.
  - rewrite Z.quot_div_nonneg by nia. split.
    + apply Z.div_pos; nia.
    + apply Z.div_le_upper_bound; nia.
  - replace (r * w) with (- (- r * w)) by ring.
    rewrite Z.quot_opp_l by lia.
    rewrite Z.quot_div_nonneg by nia.
    assert (0 <= - r * w / s) by (apply Z.div_pos; nia).
    assert (- r * w / s <= - r) by (apply Z.div_le_upper_bound; nia).
    lia.
Qed.

(** The last unfrozen item takes all that is left. *)
Lemma share_last (r w : Z) : 0 < w -> Z.quot (r * w) w = r.
Proof. intros. apply Z.quot_mul. lia. Qed.

Lemma share_code_exact (r w s : Z) :
  - (limit * limit) <= r <= limit * limit ->
  0 < w <= limit * limit -> w <= s ->
  quo (mul r w) s = Z.quot (r * w) s.
Proof.
  intros R W S. unfold quo, mul.
  pose proof (mul_bounded r w (limit * limit) (limit * limit) R
                          ltac:(lia)) as B.
  rewrite (wrap_small (r * w)) by (apply in_range_bounded; unfold limit in *; lia).
  apply wrap_small, in_range_bounded.
  destruct (share_between r w s ltac:(lia)) as [P Q].
  unfold limit in *. lia.
Qed.

(** ** The distribution of the code is the exact one *)

Lemma sumUnfrozenWeights_cons useGrow it rest :
  sumUnfrozenWeights useGrow (it :: rest) =
  unfrozenWeight useGrow it + sumUnfrozenWeights useGrow rest.
Proof. reflexivity. Qed.

Lemma sumUnfrozenWeights_bounds useGrow items :
  Forall (live useGrow) items ->
  0 <= sumUnfrozenWeights useGrow items
  <= Z.of_nat (length items) * (limit * limit).
Proof.
  intros L. unfold sumUnfrozenWeights.
  pose proof (zsum_bounds 0 (limit * limit)
                          (map (unfrozenWeight useGrow) items)) as B.
  rewrite length_map in B. rewrite Z.mul_0_r in B. apply B.
  apply Forall_map. eapply Forall_impl; [| exact L]. apply live_weight.
Qed.

Lemma live_unfrozen_weight useGrow it :
  live useGrow it -> frozen it = false ->
  0 < weight useGrow it <= limit * limit /\
  unfrozenWeight useGrow it = weight useGrow it.
Proof.
  intros L F. pose proof (live_weight _ _ L) as B.
  destruct L as [S _]. unfold sized, unfrozenWeight in *. rewrite F in *.
  split; [| reflexivity]. lia.
Qed.

Lemma distributeGrow_exact items :
  forall r s,
    Forall (live true) items -> Z.of_nat (length items) < limit ->
    - (limit * limit) <= r <= limit * limit ->
    s = sumUnfrozenWeights true items ->
    distributeGrow r s items = (exactShares (weight true) r s items, None).
Proof.
  induction items as [| it rest IH]; intros r s L N R S; [reflexivity |].
  inversion L as [| ? ? Lit Lrest]; subst.
  cbn [length] in N. rewrite Nat2Z.inj_succ in N.
  cbn [distributeGrow exactShares]. rewrite sumUnfrozenWeights_cons.
  destruct (frozen it) eqn:F.
  - unfold unfrozenWeight at 1 2. rewrite F, Z.add_0_l.
    rewrite (IH r _ Lrest ltac:(lia) R eq_refl). reflexivity.
  - destruct (live_unfrozen_weight _ _ Lit F) as [W ->].
    pose proof (sumUnfrozenWeights_bounds _ _ Lrest) as B.
    set (w := weight true it) in *. set (s' := sumUnfrozenWeights true rest) in *.
    assert (Ew : Grow it = w) by reflexivity.
    destruct (Z.eqb_spec (w + s') 0); [lia |].
    rewrite Ew, (share_code_exact r w (w + s')) by lia.
    destruct (share_between r w (w + s') ltac:(lia)) as [P Q].
    set (q := Z.quot (r * w) (w + s')) in *.
    assert (Eadd : add (flexBaseSize it) q = flexBaseSize it + q).
    { unfold add. apply wrap_small, in_range_bounded.
      destruct Lit as [Sz _]. unfold sized, limit in *. lia. }
    assert (Er : sub r q = r - q).
    { unfold sub. apply wrap_small, in_range_bounded. unfold limit in *. lia. }
    assert (Es : sub (w + s') w = w + s' - w).
    { unfold sub. apply wrap_small, in_range_bounded. unfold limit in *. lia. }
    rewrite Eadd, Er, Es.
    rewrite (IH (r - q) (w + s' - w) Lrest ltac:(lia)); [reflexivity | lia | lia].
Qed.

Lemma distributeShrink_exact items :
  forall r s,
    Forall (live false) items -> Z.of_nat (length items) < limit ->
    - (limit * limit) <= r <= limit * limit ->
    s = sumUnfrozenWeights false items ->
    distributeShrink r s items (map (unfrozenWeight false) items)
    = (exactShares (weight false) r s items, None).
Proof.
  induction items as [| it rest IH]; intros r s L N R S; [reflexivity |].
  inversion L as [| ? ? Lit Lrest]; subst.
  cbn [length] in N. rewrite Nat2Z.inj_succ in N.
  cbn [distributeShrink exactShares map]. rewrite sumUnfrozenWeights_cons.
  destruct (frozen it) eqn:F.
  - assert (E0 : unfrozenWeight false it = 0)
      by (unfold unfrozenWeight; now rewrite F).
    rewrite E0, Z.add_0_l.
    rewrite (IH r _ Lrest ltac:(lia) R eq_refl). reflexivity.
  - destruct (live_unfrozen_weight _ _ Lit F) as [W ->].
    pose proof (sumUnfrozenWeights_bounds _ _ Lrest) as B.
    set (w := weight false it) in *.
    set (s' := sumUnfrozenWeights false rest) in *.
    destruct (Z.eqb_spec (w + s') 0); [lia |].
    rewrite (share_code_exact r w (w + s')) by lia.
    destruct (share_between r w (w + s') ltac:(lia)) as [P Q].
    set (q := Z.quot (r * w) (w + s')) in *.
    assert (Eadd : add (flexBaseSize it) q = flexBaseSize it + q).
    { unfold add. apply wrap_small, in_range_bounded.
      destruct Lit as [Sz _]. unfold sized, limit in *. lia. }
    assert (Er : sub r q = r - q).
    { unfold sub. apply wrap_small, in_range_bounded. unfold limit in *. lia. }
    assert (Es : sub (w + s') w = w + s' - w).
    { unfold sub. apply wrap_small, in_range_bounded. unfold limit in *. lia. }
    rewrite Eadd, Er, Es.
    rewrite (IH (r - q) (w + s' - w) Lrest ltac:(lia)); [reflexivity | lia | lia].
Qed.

Lemma distribute_exact useGrow r items :
  Forall (live useGrow) items -> Z.of_nat (length items) < limit ->
  - (limit * limit) <= r <= limit * limit ->
  distribute useGrow r items = (exactDistribute useGrow r items, None).
Proof.
  intros L N R. unfold distribute, exactDistribute.
  destruct (r =? 0); [reflexivity |]. destruct useGrow.
  - rewrite sumUnfrozenGrowFactors_exact by assumption.
    now apply distributeGrow_exact.
  - rewrite sumScaledShrinksOf_exact, scaledShrinksOf_exact by assumption.
    now apply distributeShrink_exact.
Qed.

(** ** What the exact distribution gives every item *)

Lemma shared_weaken r r' it it' :
  (0 <= r -> 0 <= r' <= r) -> (r <= 0 -> r <= r' <= 0) ->
  shared r' it it' -> shared r it it'.
Proof.
  unfold shared. intros P Q. destruct (frozen it); [auto |].
  intros (q & E & H1 & H2). exists q. split; [exact E |]. lia.
Qed.

Lemma exactShares_shared useGrow items :
  forall r s,
    Forall (live useGrow) items ->
    s = sumUnfrozenWeights useGrow items ->
    Forall2 (shared r) items (exactShares (weight useGrow) r s items).
Proof.
  induction items as [| it rest IH]; intros r s L S; [constructor |].
  inversion L as [| ? ? Lit Lrest]; subst.
  cbn [exactShares]. rewrite sumUnfrozenWeights_cons.
  destruct (frozen it) eqn:F.
  - assert (E0 : unfrozenWeight useGrow it = 0)
      by (unfold unfrozenWeight; now rewrite F).
    rewrite E0, Z.add_0_l. constructor; [| now apply IH].
    unfold shared. now rewrite F.
  - destruct (live_unfrozen_weight _ _ Lit F) as [W ->].
    pose proof (sumUnfrozenWeights_bounds _ _ Lrest) as B.
    set (w := weight useGrow it) in *.
    set (s' := sumUnfrozenWeights useGrow rest) in *.
    destruct (share_between r w (w + s') ltac:(lia)) as [P Q].
    set (q := Z.quot (r * w) (w + s')) in *.
    constructor.
    + unfold shared. rewrite F. exists q. auto.
    + eapply Forall2_impl; [| apply IH; [exact Lrest | unfold s'; lia]].
      intros a b. apply shared_weaken; lia.
Qed.

Lemma shared_live useGrow r it it' :
  - (limit * limit) <= r <= limit * limit ->
  live useGrow it -> shared r it it' -> live useGrow it'.
Proof.
  unfold shared. intros R L. destruct (frozen it) eqn:F; [now intros -> |].
  intros (q & -> & H1 & H2). destruct L as [S Rg].
  split; [exact S |].
  unfold ranged, sized, span, limit in *; reduce_goal. rewrite F.
  split; [lia | discriminate].
Qed.

Lemma shared_frozen r it it' : shared r it it' -> frozen it' = frozen it.
Proof.
  unfold shared. destruct (frozen it) eqn:F; [now intros -> |].
  now intros (q & -> & _).
Qed.

Lemma exactDistribute_shared useGrow r items :
  Forall (live useGrow) items ->
  r = 0 /\ exactDistribute useGrow r items = items \/
  r <> 0 /\ Forall2 (shared r) items (exactDistribute useGrow r items).
Proof.
  intros L. unfold exactDistribute. destruct (Z.eqb_spec r 0); [auto |].
  right. split; [assumption |]. now apply exactShares_shared.
Qed.

Lemma exactDistribute_live useGrow r items :
  - (limit * limit) <= r <= limit * limit ->
  Forall (live useGrow) items ->
  Forall (live useGrow) (exactDistribute useGrow r items).
Proof.
  intros R L. destruct (exactDistribute_shared useGrow r items L)
    as [[_ ->] | [_ S]]; [exact L |].
  eapply Forall_through_Forall2; [| exact L | exact S].
  intros a b. now apply shared_live.
Qed.

Lemma exactDistribute_frozen useGrow r items :
  Forall (live useGrow) items ->
  map frozen (exactDistribute useGrow r items) = map frozen items.
Proof.
  intros L. destruct (exactDistribute_shared useGrow r items L)
    as [[_ ->] | [_ S]]; [reflexivity |].
  symmetry. eapply Forall2_map_eq; [| exact S].
  intros a b H. symmetry. eapply shared_frozen; eauto.
Qed.

(** ** Clamping, exactly *)

Lemma clampItem_exact useGrow it :
  live useGrow it ->
  snd (clampItem it) = violationOf it /\
  - (span + limit) <= violationOf it <= span + limit.
Proof.
  intros [S [R _]]. unfold clampItem, violationOf, sized in *.
  destruct (frozen it); [cbn; unfold span, limit; lia |].
  destruct (Z.ltb_spec (targetMainSize it) (Min it)); cbn [snd].
  - unfold sub. rewrite wrap_small; [unfold span, limit in *; lia |].
    apply in_range_bounded. unfold span, limit in *. lia.
  - destruct (negb (Max it =? 0) && (targetMainSize it >? Max it));
      cbn [snd]; [| unfold span, limit; lia].
    unfold sub. rewrite wrap_small; [unfold span, limit in *; lia |].
    apply in_range_bounded. unfold span, limit in *. lia.
Qed.

Lemma clampAll_exact useGrow items :
  Forall (live useGrow) items ->
  clampAll items = (map clamped items, map violationOf items).
Proof.
  intros L. unfold clampAll. f_equal. apply map_ext_in. intros it In.
  rewrite Forall_forall in L. now apply (clampItem_exact useGrow), L.
Qed.

Lemma totalViolationOf_exact useGrow items :
  Forall (live useGrow) items -> Z.of_nat (length items) < limit ->
  totalViolationOf (map violationOf items) = zsum (map violationOf items).
Proof.
  intros L N. unfold totalViolationOf.
  replace (zsum (map violationOf items))
    with (0 + zsum (map (fun v => v) (map violationOf items)))
    by (now rewrite map_id).
  apply (fold_left_exact _ (fun v => v) (span + limit)).
  - unfold span, limit; lia.
  - intros acc v _ _ R. unfold add. now rewrite wrap_small.
  - apply Forall_map. eapply Forall_impl; [| exact L].
    intros it H. now apply (clampItem_exact useGrow).
  - rewrite length_map. unfold span. range_side.
  - rewrite length_map. unfold span. range_side.
Qed.

(** ** One pass, exactly *)

(** Under the limits the pass of the code is the exact pass and raises
    no panic. *)
Lemma pass_exact useGrow c items :
  Forall (live useGrow) items ->
  Z.of_nat (length items) < limit -> 0 <= c <= limit ->
  pass useGrow c items =
  (fst (exactPass useGrow c items), snd (exactPass useGrow c items), None).
Proof.
  intros L N C. unfold pass, exactPass.
  destruct (freeSpace_exact useGrow c items L N C) as [-> R].
  rewrite distribute_exact by (auto; unfold limit in *; lia).
  set (items1 := exactDistribute useGrow (exactFreeSpace c items) items).
  assert (L1 : Forall (live useGrow) items1)
    by (apply exactDistribute_live; [unfold limit in *; lia | exact L]).
  assert (N1 : length items1 = length items).
  { rewrite <- (length_map frozen items1), <- (length_map frozen items).
    f_equal. now apply exactDistribute_frozen. }
  rewrite (clampAll_exact useGrow) by exact L1.
  rewrite (totalViolationOf_exact useGrow) by (auto; now rewrite N1).
  reflexivity.
Qed.

(** ** Freezing, item by item *)

Lemma freezeWhere_map sel (f : Item -> Item) (v : Item -> Z) items :
  freezeWhere sel (map f items) (map v items) =
  map (fun it => if sel (v it) then set_frozen true (f it) else f it) items.
Proof. induction items; cbn; [reflexivity | now f_equal]. Qed.

Lemma exactPass_settle useGrow c items :
  fst (exactPass useGrow c items) =
  map (settle (zsum (snd (exactPass useGrow c items))))
      (exactDistribute useGrow (exactFreeSpace c items) items).
Proof.
  unfold exactPass; cbn [fst snd]. unfold freezeViolators, settle, freezesNow.
  destruct (_ =? 0).
  - now rewrite map_map.
  - destruct (_ >? 0); now rewrite freezeWhere_map.
Qed.

(** The four cases of step 4.d. *)
Lemma clamped_cases useGrow it :
  live useGrow it ->
  (frozen it = true /\ violationOf it = 0 /\ clamped it = it) \/
  (frozen it = false /\ targetMainSize it < Min it /\
   violationOf it = Min it - targetMainSize it /\
   clamped it = set_targetMainSize (Min it) it) \/
  (frozen it = false /\ Min it <= targetMainSize it /\ Max it <> 0 /\
   Max it < targetMainSize it /\
   violationOf it = Max it - targetMainSize it /\
   clamped it = set_targetMainSize (Max it) it) \/
  (frozen it = false /\ Min it <= targetMainSize it /\
   (Max it <> 0 -> targetMainSize it <= Max it) /\
   violationOf it = 0 /\ clamped it = it).
Proof.
  intros _. unfold clamped, clampItem, violationOf.
  destruct (frozen it); [left; auto |]. right.
  destruct (Z.ltb_spec (targetMainSize it) (Min it)); [left; auto |]. right.
  destruct (Z.eqb_spec (Max it) 0); cbn [negb andb].
  - right. repeat split; auto; lia.
  - rewrite Z.gtb_ltb.
    destruct (Z.ltb_spec (Max it) (targetMainSize it)); [left | right];
      repeat split; auto; lia.
Qed.

Lemma settle_live useGrow total it :
  total <> 0 -> live useGrow it -> live useGrow (settle total it).
Proof.
  intros T L. pose proof (clamped_cases useGrow it L) as C.
  unfold settle, freezesNow. destruct (Z.eqb_spec total 0); [contradiction |].
  destruct L as [S [R Rf]]. unfold live, sized, ranged, weight in *.
  rewrite !Z.gtb_ltb.
  destruct C as [(F & V & ->) | [(F & Lt & V & ->) | [(F & Ge & X & Gt & V & ->)
                                                   | (F & Ge & Le & V & ->)]]];
    rewrite V;
    destruct (Z.ltb_spec 0 total);
    repeat match goal with
           | |- context [?a <? ?b] => destruct (Z.ltb_spec a b)
           end;
    reduce_goal; rewrite ?F; unfold span, limit in *;
    repeat split; intros; try lia; try discriminate; try tauto.
Qed.

Lemma settle_keeps_frozen total it :
  frozen it = true -> frozen (settle total it) = true.
Proof.
  intros F. unfold settle, clamped, clampItem. rewrite F.
  now destruct (freezesNow total it).
Qed.

Lemma settle_zero it : frozen (settle 0 it) = true.
Proof. reflexivity. Qed.

Lemma settle_freezes_violator useGrow total it :
  live useGrow it ->
  (0 < total /\ 0 < violationOf it) \/ (total < 0 /\ violationOf it < 0) ->
  frozen it = false /\ frozen (settle total it) = true.
Proof.
  intros L H. split.
  - unfold violationOf in H. destruct (frozen it); [lia | reflexivity].
  - unfold settle, freezesNow.
    destruct (Z.eqb_spec total 0); [lia |]. rewrite !Z.gtb_ltb.
    destruct (Z.ltb_spec 0 total).
    + destruct (Z.ltb_spec 0 (violationOf it)); [reflexivity | lia].
    + destruct (Z.ltb_spec (violationOf it) 0); [reflexivity | lia].
Qed.

(** ** Progress *)

Lemma unfrozenCount_cons it items :
  unfrozenCount (it :: items) =
  ((if frozen it then 0 else 1) + unfrozenCount items)%nat.
Proof. unfold unfrozenCount. cbn. now destruct (frozen it). Qed.

Lemma unfrozenCount_allFrozen items :
  allFrozen items = false -> (0 < unfrozenCount items)%nat.
Proof.
  unfold allFrozen. induction items as [| it items IH]; [discriminate |].
  rewrite unfrozenCount_cons. cbn. destruct (frozen it); cbn; [exact IH | lia].
Qed.

Lemma unfrozenCount_map_le (f : Item -> Item) items :
  (forall it, In it items -> frozen it = true -> frozen (f it) = true) ->
  (unfrozenCount (map f items) <= unfrozenCount items)%nat.
Proof.
  induction items as [| it items IH]; intros H; [cbn; lia |].
  cbn [map]. rewrite !unfrozenCount_cons.
  specialize (IH (fun a In => H a (or_intror In))).
  pose proof (H it (or_introl eq_refl)) as Hit.
  destruct (frozen it); [rewrite Hit by reflexivity; lia |].
  destruct (frozen (f it)); lia.
Qed.

Lemma unfrozenCount_map_lt (f : Item -> Item) items :
  (forall it, In it items -> frozen it = true -> frozen (f it) = true) ->
  (exists it, In it items /\ frozen it = false /\ frozen (f it) = true) ->
  (unfrozenCount (map f items) < unfrozenCount items)%nat.
Proof.
  induction items as [| it items IH]; intros H (a & In & Fa & Ffa);
    [contradiction |].
  cbn [map]. rewrite !unfrozenCount_cons.
  pose proof (unfrozenCount_map_le f items (fun a In => H a (or_intror In))).
  pose proof (H it (or_introl eq_refl)) as Hit.
  destruct In as [-> | In].
  - rewrite Fa, Ffa. lia.
  - specialize (IH (fun a In => H a (or_intror In))
                   (ex_intro _ a (conj In (conj Fa Ffa)))).
    destruct (frozen it); [rewrite Hit by reflexivity; lia |].
    destruct (frozen (f it)); lia.
Qed.

Lemma zsum_pos_exists {A : Type} (v : A -> Z) l :
  0 < zsum (map v l) -> exists a, In a l /\ 0 < v a.
Proof.
  unfold zsum. induction l as [| a l IH]; cbn; [lia |]. intros H.
  destruct (Z.ltb_spec 0 (v a)); [exists a; auto |].
  destruct IH as (b & In & Hb); [lia |]. exists b; auto.
Qed.

Lemma zsum_neg_exists {A : Type} (v : A -> Z) l :
  zsum (map v l) < 0 -> exists a, In a l /\ v a < 0.
Proof.
  unfold zsum. induction l as [| a l IH]; cbn; [lia |]. intros H.
  destruct (Z.ltb_spec (v a) 0); [exists a; auto |].
  destruct IH as (b & In & Hb); [lia |]. exists b; auto.
Qed.

Lemma allFrozen_map_settle_zero items :
  allFrozen (map (settle 0) items) = true.
Proof. unfold allFrozen. now induction items. Qed.

(** A pass under the limits either freezes every item or keeps the store
    within the limits and freezes at least one more item. *)
Lemma exactPass_progress useGrow c items :
  Forall (live useGrow) items ->
  Z.of_nat (length items) < limit -> 0 <= c <= limit ->
  length (fst (exactPass useGrow c items)) = length items /\
  (allFrozen (fst (exactPass useGrow c items)) = true \/
   Forall (live useGrow) (fst (exactPass useGrow c items)) /\
   (unfrozenCount (fst (exactPass useGrow c items))
    < unfrozenCount items)%nat).
Proof.
  intros L N C. rewrite exactPass_settle.
  destruct (freeSpace_exact useGrow c items L N C) as [_ R].
  set (items1 := exactDistribute useGrow (exactFreeSpace c items) items).
  assert (L1 : Forall (live useGrow) items1)
    by (apply exactDistribute_live; [unfold limit in *; lia | exact L]).
  assert (F1 : map frozen items1 = map frozen items)
    by now apply exactDistribute_frozen.
  assert (C1 : unfrozenCount items1 = unfrozenCount items)
    by (unfold unfrozenCount; now rewrite F1).
  split.
  { rewrite length_map, <- (length_map frozen items1), F1. apply length_map. }
  unfold exactPass; cbn [snd]. fold items1.
  set (total := zsum (map violationOf items1)).
  destruct (Z.eq_dec total 0) as [-> | T];
    [left; apply allFrozen_map_settle_zero | right].
  split.
  - apply Forall_map. eapply Forall_impl; [| exact L1].
    intros it. now apply settle_live.
  - rewrite <- C1. apply unfrozenCount_map_lt.
    + intros it _. apply settle_keeps_frozen.
    + rewrite Forall_forall in L1.
      assert (0 < total \/ total < 0) as [P | P] by lia.
      * destruct (zsum_pos_exists violationOf items1 P) as (a & In & Va).
        exists a. split; [exact In |].
        apply (settle_freezes_violator useGrow); auto.
      * destruct (zsum_neg_exists violationOf items1 P) as (a & In & Va).
        exists a. split; [exact In |].
        apply (settle_freezes_violator useGrow); auto.
Qed.

(** ** The loop under the limits *)

(** With a budget above the number of unfrozen items the loop returns,
    and what the exact pass preserves holds of the returned store. *)
Lemma boundedLoop (P : list Item -> Prop) useGrow c :
  0 <= c <= limit ->
  (forall items,
      Forall (live useGrow) items -> Z.of_nat (length items) < limit ->
      allFrozen items = false -> P items ->
      P (fst (exactPass useGrow c items))) ->
  forall budget items log,
    Z.of_nat (length items) < limit ->
    allFrozen items = true \/ Forall (live useGrow) items ->
    P items ->
    (unfrozenCount items < budget)%nat ->
    result (distributionLoop budget useGrow c items log) =
    Returned (map targetMainSize
                  (itemsAfter (distributionLoop budget useGrow c items log)))
    /\ allFrozen (itemsAfter (distributionLoop budget useGrow c items log))
       = true
    /\ P (itemsAfter (distributionLoop budget useGrow c items log)).
Proof.
  intros C Hpass. induction budget as [| budget IH];
    intros items log N L HP B; [lia |].
  cbn [distributionLoop]. destruct (allFrozen items) eqn:AF; [cbn; auto |].
  destruct L as [L | L]; [discriminate |].
  rewrite pass_exact by assumption.
  destruct (exactPass_progress useGrow c items L N C) as [Len Pr].
  pose proof (unfrozenCount_allFrozen items AF).
  apply IH.
  - now rewrite Len.
  - tauto.
  - now apply Hpass.
  - destruct Pr as [AF' | [_ Lt]]; [| lia].
    assert (E : unfrozenCount (fst (exactPass useGrow c items)) = 0%nat).
    { clear - AF'. unfold allFrozen, unfrozenCount in *.
      induction (fst (exactPass useGrow c items)) as [| a l IHl];
        [reflexivity |].
      cbn in *. apply andb_true_iff in AF'. destruct AF' as [-> ?].
      cbn. auto. }
    lia.
Qed.

(** ** Inputs within the limits *)

Lemma prepare_fields it :
  let p := prepare it in
  Grow p = Z.max 0 (Grow it) /\ Shrink p = Z.max 0 (Shrink it) /\
  Min p = normMin it /\ Max p = normMax it /\
  flexBaseSize p = (if Basis it >=? 0 then Basis it else normSize it).
Proof.
  cbv zeta. destruct (prepare_frame it) as (E & _ & _).
  apply exported_fields in E. destruct E as (EB & EG & ES & EZ & EM & EX).
  rewrite EG, ES, EM, EX. rewrite Validate_closed in *; reduce_item.
  repeat split. unfold prepare.
  destruct (determineHypoMainSize_frame
              (determineFlexBaseSize (Validate it))) as (_ & -> & _).
  destruct (determineFlexBaseSize_frame (Validate it)) as (_ & _ & _ & ->).
  rewrite Validate_closed; reduce_goal. reflexivity.
Qed.

Lemma prepare_modest it :
  modest it ->
  Grow (prepare it) <= limit /\ Shrink (prepare it) <= limit /\
  Min (prepare it) <= limit /\ Max (prepare it) <= limit /\
  flexBaseSize (prepare it) <= limit /\ hypoMainSize (prepare it) <= limit.
Proof.
  intros (MB & MG & MS & MZ & MM & MX).
  destruct (prepare_fields it) as (EG & ES & EM & EX & EF).
  destruct (prepare_prepared it) as (_ & _ & _ & _ & EH).
  assert (Hm : normMin it <= limit) by (unfold normMin, limit in *; lia).
  assert (Hx : normMax it <= limit).
  { unfold normMax, normMin, limit in *.
    destruct (Z.max 0 (Max it) =? 0); lia. }
  assert (Hz : normSize it <= limit).
  { unfold normSize, normMin, limit in *. cbv zeta.
    destruct (Z.max 0 (Max it) =? 0); lia. }
  assert (Hf : flexBaseSize (prepare it) <= limit).
  { rewrite EF. destruct (Basis it >=? 0); assumption. }
  rewrite EH, EG, ES, EM, EX.
  repeat split; try (unfold limit in *; lia).
  destruct (negb (normMax it =? 0) &&
            (Z.max (flexBaseSize (prepare it)) (normMin it) >? normMax it));
    unfold limit in *; lia.
Qed.

Lemma prefreeze_live useGrow it :
  fresh it -> modest it -> live useGrow (sizeIfInflexible useGrow (prepare it)).
Proof.
  intros [F T] M. pose proof (prepare_modest it M) as (BG & BS & BM & BX & BF & BH).
  destruct (prepare_prepared it) as (V & F0 & H1 & H2 & _).
  destruct (prepare_frame it) as (_ & Fp & Tp). rewrite F in Fp. rewrite T in Tp.
  unfold valid in V. destruct V as (V1 & V2 & V3 & _ & V5 & _ & V7).
  set (p := prepare it) in *.
  unfold live, sized, ranged, weight, sizeIfInflexible.
  destruct useGrow.
  - destruct (Z.eqb_spec (Grow p) 0); cbn [orb]; [| rewrite Z.gtb_ltb;
      destruct (Z.ltb_spec (hypoMainSize p) (flexBaseSize p))];
      reduce_goal; rewrite ?Fp, ?Tp; unfold span, limit in *;
      repeat split; intros; try lia; try discriminate;
      try (apply V7; assumption).
  - destruct (Z.eqb_spec (Shrink p) 0); cbn [orb];
      [| destruct (Z.ltb_spec (flexBaseSize p) (hypoMainSize p))];
      reduce_goal; rewrite ?Fp, ?Tp; unfold span, limit in *;
      repeat split; intros; try lia; try discriminate;
      try (apply V7; assumption); nia.
Qed.

Lemma loopEntry_live items c :
  Forall fresh items -> Forall modest items ->
  Forall (live (growing items c)) (loopEntry items c).
Proof.
  intros F M. unfold loopEntry. rewrite map_map. apply Forall_map.
  rewrite Forall_forall in *. intros it In. apply prefreeze_live; auto.
Qed.

Lemma clampContainerSize_range c :
  c <= limit -> 0 <= clampContainerSize c <= limit.
Proof.
  unfold clampContainerSize, limit. destruct (Z.ltb_spec c 0); lia.
Qed.

Lemma loopEntry_length items c : length (loopEntry items c) = length items.
Proof. unfold loopEntry. now rewrite !length_map. Qed.

Lemma ResolveFlexLengths_unfold items c :
  ResolveFlexLengths items c =
  if fastPath items c
  then mkRun (map prepare items) [] (Returned (map hypoMainSize
                                                   (map prepare items)))
  else distributionLoop (S (length items)) (growing items c)
                        (clampContainerSize c) (loopEntry items c) [].
Proof.
  unfold ResolveFlexLengths, fastPath, resolveLoop, loopEntry, growing.
  now rewrite !length_map.
Qed.

Lemma unfrozenCount_le_length items :
  (unfrozenCount items <= length items)%nat.
Proof.
  unfold unfrozenCount. rewrite <- (length_map frozen items).
  apply filter_length_le.
Qed.

(** The log only grows, by one entry per pass the budget grants. *)
Lemma distributionLoop_log useGrow c :
  forall budget items log,
  exists more,
    violationsLog (distributionLoop budget useGrow c items log)
    = log ++ more /\
    (length more <= budget)%nat /\
    (forall lens,
        result (distributionLoop budget useGrow c items log) = Returned lens ->
        (length more < budget)%nat).
Proof.
  induction budget as [| budget IH]; intros items log; cbn [distributionLoop].
  - exists []. cbn. rewrite app_nil_r. repeat split; auto. discriminate.
  - destruct (allFrozen items).
    + exists []. cbn. rewrite app_nil_r. repeat split; auto; lia.
    + destruct (pass useGrow c items) as [[items' vs] [p |]].
      * exists []. cbn. rewrite app_nil_r. repeat split; [lia | discriminate].
      * destruct (IH items' (log ++ [vs])) as (more & E & Len & Ret).
        exists (vs :: more). rewrite E, <- app_assoc. cbn.
        repeat split; [lia |]. intros lens H. specialize (Ret lens H). lia.
Qed.

(** X1.  Within the limits -- every exported field and the container
    size at most 32768, fewer than 32768 items, items fresh -- the call
    returns:
    it raises neither panic, and the loop completes at most as many passes
    as there are items (so its body is entered at most that many times
    plus one). *)
Theorem ResolveFlexLengths_returns_within_limits items c :
  Forall fresh items -> Forall modest items ->
  c <= limit -> Z.of_nat (length items) < limit ->
  (exists lens, result (ResolveFlexLengths items c) = Returned lens /\
                length lens = length items) /\
  (length (violationsLog (ResolveFlexLengths items c)) <= length items)%nat.
Proof.
  intros F M C N. rewrite ResolveFlexLengths_unfold.
  destruct (fastPath items c).
  - cbn. split; [| lia]. eexists. split; [reflexivity |].
    now rewrite !length_map.
  - pose proof (clampContainerSize_range c C) as C'.
    destruct (boundedLoop (fun _ => True) (growing items c)
                          (clampContainerSize c) C' ltac:(auto)
                          (S (length items)) (loopEntry items c) [])
      as (R & AF & _).
    + now rewrite loopEntry_length.
    + right. now apply loopEntry_live.
    + exact I.
    + pose proof (unfrozenCount_le_length (loopEntry items c)).
      rewrite loopEntry_length in *. lia.
    + split.
      * eexists. split; [exact R |]. rewrite length_map.
        pose proof (distributionLoop_evolves
                      (growing items c) (clampContainerSize c)
                      (S (length items)) (loopEntry items c) []) as E.
        apply Forall2_length in E. rewrite <- E. apply loopEntry_length.
      * destruct (distributionLoop_log
                    (growing items c) (clampContainerSize c)
                    (S (length items)) (loopEntry items c) [])
          as (more & E & _ & Ret).
        rewrite E. cbn. specialize (Ret _ R). lia.
Qed.

Lemma ResolveFlexLengths_returns_within_limits_witness :
  exists lens,
    result (ResolveFlexLengths
              [newItem 0 1 1 3 3 0; newItem 0 4 1 10 5 0; newItem 0 1 1 3 3 8]
              60)
    = Returned lens /\ length lens = 3%nat.
Proof.
  refine (proj1 (ResolveFlexLengths_returns_within_limits
           [newItem 0 1 1 3 3 0; newItem 0 4 1 10 5 0; newItem 0 1 1 3 3 8]
           60 _ _ _ _)).
  - repeat constructor.
  - repeat constructor; vm_compute; discriminate.
  - vm_compute; discriminate.
  - vm_compute; reflexivity.
Defined.

(** ** The exact shares use up the free space *)

Lemma allFrozen_cons it rest :
  allFrozen (it :: rest) = frozen it && allFrozen rest.
Proof. reflexivity. Qed.

Lemma exactShares_allFrozen wt r s items :
  allFrozen items = true -> exactShares wt r s items = items.
Proof.
  induction items as [| it rest IH]; [reflexivity |].
  rewrite allFrozen_cons, andb_true_iff. intros [F AF].
  cbn [exactShares]. rewrite F. now rewrite IH.
Qed.

Lemma allFrozen_weights useGrow items :
  allFrozen items = true -> sumUnfrozenWeights useGrow items = 0.
Proof.
  induction items as [| it rest IH]; [reflexivity |].
  rewrite allFrozen_cons, andb_true_iff. intros [F AF].
  rewrite sumUnfrozenWeights_cons, IH by assumption.
  unfold unfrozenWeight. now rewrite F.
Qed.

Lemma allFrozen_used items :
  allFrozen items = true -> map used items = map targetMainSize items.
Proof.
  induction items as [| it rest IH]; [reflexivity |].
  rewrite allFrozen_cons, andb_true_iff. intros [F AF].
  cbn [map]. rewrite IH by assumption. unfold used. now rewrite F.
Qed.

Lemma zsum_cons x l : zsum (x :: l) = x + zsum l.
Proof. reflexivity. Qed.

(** The sequential shares add up to the free space exactly: after the
    distribution the targets fill the container. *)
Lemma exactShares_total useGrow items :
  forall r s,
    Forall (live useGrow) items ->
    s = sumUnfrozenWeights useGrow items ->
    allFrozen items = false ->
    zsum (map targetMainSize (exactShares (weight useGrow) r s items))
    = zsum (map used items) + r.
Proof.
  induction items as [| it rest IH]; intros r s L S AF; [discriminate |].
  inversion L as [| ? ? Lit Lrest]; subst.
  rewrite allFrozen_cons in AF.
  cbn [exactShares map]. rewrite sumUnfrozenWeights_cons.
  destruct (frozen it) eqn:F.
  - assert (E0 : unfrozenWeight useGrow it = 0)
      by (unfold unfrozenWeight; now rewrite F).
    rewrite E0, Z.add_0_l. cbn [map]. rewrite !zsum_cons.
    rewrite (IH r _ Lrest eq_refl AF). unfold used. rewrite F. lia.
  - destruct (live_unfrozen_weight _ _ Lit F) as [W ->].
    cbn [map]. rewrite !zsum_cons. reduce_goal.
    unfold used at 1. rewrite F.
    destruct (allFrozen rest) eqn:AFr.
    + rewrite exactShares_allFrozen by assumption.
      rewrite (allFrozen_weights useGrow rest AFr), Z.add_0_r.
      rewrite share_last by lia.
      rewrite (allFrozen_used rest AFr). lia.
    + rewrite (IH _ (weight useGrow it + sumUnfrozenWeights useGrow rest
                       - weight useGrow it) Lrest ltac:(lia) eq_refl).
      lia.
Qed.

(** ** The sign of the free space on entry *)

Lemma prefreeze_flexible useGrow it :
  fresh it ->
  flexible useGrow (sizeIfInflexible useGrow (prepare it)) /\
  reserved (sizeIfInflexible useGrow (prepare it))
  = hypoMainSize (prepare it).
Proof.
  intros [F T]. destruct (prepare_prepared it) as (_ & _ & _ & _ & EH).
  destruct (prepare_frame it) as (_ & Fp & _). rewrite F in Fp.
  set (p := prepare it) in *.
  unfold flexible, reserved, sizeIfInflexible.
  destruct useGrow.
  - destruct (Z.eqb_spec (Grow p) 0); cbn [orb]; [| rewrite Z.gtb_ltb;
      destruct (Z.ltb_spec (hypoMainSize p) (flexBaseSize p))];
      reduce_goal; rewrite ?Fp; repeat split; auto; intros;
      try discriminate; try lia.
  - destruct (Z.eqb_spec (Shrink p) 0); cbn [orb];
      [| destruct (Z.ltb_spec (flexBaseSize p) (hypoMainSize p))];
      reduce_goal; rewrite ?Fp; repeat split; auto; intros;
      try discriminate; try lia.
Qed.

Lemma zsum_map_le {A : Type} (f g : A -> Z) l :
  Forall (fun a => f a <= g a) l -> zsum (map f l) <= zsum (map g l).
Proof. unfold zsum. induction 1; cbn; lia. Qed.

Lemma flexible_used useGrow it :
  flexible useGrow it ->
  if useGrow then used it <= reserved it else reserved it <= used it.
Proof.
  unfold flexible, used, reserved. intros [_ H].
  destruct (frozen it); [destruct useGrow; lia |].
  specialize (H eq_refl). destruct useGrow; lia.
Qed.

Lemma prepare_hypo_range it :
  modest it -> 1 <= hypoMainSize (prepare it) <= limit.
Proof.
  intros M. destruct (prepare_modest it M) as (_ & _ & _ & _ & _ & H).
  destruct (prepare_prepared it) as (V & _ & H1 & _). unfold valid in V. lia.
Qed.

Lemma sumHypo_exact items :
  Forall modest items -> Z.of_nat (length items) < limit ->
  sumHypoMainSizeOf (map prepare items)
  = zsum (map hypoMainSize (map prepare items)).
Proof.
  intros M N. apply sumHypoMainSizeOf_exact; [| now rewrite length_map].
  apply Forall_map. eapply Forall_impl; [| exact M].
  apply prepare_hypo_range.
Qed.

Lemma loopEntry_reserved items c :
  Forall fresh items ->
  Forall (flexible (growing items c)) (loopEntry items c) /\
  map reserved (loopEntry items c) = map hypoMainSize (map prepare items).
Proof.
  intros F. unfold loopEntry. generalize (growing items c) as g. intros g.
  induction F as [| it items Fit _ [IH1 IH2]]; cbn [map]; [auto |].
  destruct (prefreeze_flexible g it Fit) as [Fl R].
  split; [constructor; assumption | now rewrite R, IH2].
Qed.

(** On entry of the loop the free space is positive when the call grows
    and negative when it shrinks. *)
Lemma loopEntry_freeSpace items c :
  Forall fresh items -> Forall modest items ->
  Z.of_nat (length items) < limit ->
  fastPath items c = false ->
  if growing items c
  then 0 < exactFreeSpace (clampContainerSize c) (loopEntry items c)
  else exactFreeSpace (clampContainerSize c) (loopEntry items c) < 0.
Proof.
  intros F M N Fast. destruct (loopEntry_reserved items c F) as [Fl R].
  pose proof (sumHypo_exact items M N) as E.
  unfold fastPath in Fast. apply Z.eqb_neq in Fast.
  unfold exactFreeSpace. unfold growing in *.
  destruct (Z.ltb_spec (sumHypoMainSizeOf (map prepare items))
                       (clampContainerSize c)) as [G | G].
  - assert (zsum (map used (loopEntry items c))
            <= zsum (map reserved (loopEntry items c))).
    { apply zsum_map_le. eapply Forall_impl; [| exact Fl].
      intros it H. apply (flexible_used true it H). }
    rewrite R, <- E in *. lia.
  - assert (zsum (map reserved (loopEntry items c))
            <= zsum (map used (loopEntry items c))).
    { apply zsum_map_le. eapply Forall_impl; [| exact Fl].
      intros it H. apply (flexible_used false it H). }
    rewrite R, <- E in *. lia.
Qed.

(** ** Conservation of space *)

Lemma distributionLoop_S budget useGrow c items log :
  distributionLoop (S budget) useGrow c items log =
  if allFrozen items
  then mkRun items log (Returned (map targetMainSize items))
  else match pass useGrow c items with
       | (items', _, Some p) => mkRun items' log (Panicked p)
       | (items', violations, None) =>
           distributionLoop budget useGrow c items' (log ++ [violations])
       end.
Proof. reflexivity. Qed.

Lemma distributionLoop_pass budget useGrow c items log :
  Forall (live useGrow) items ->
  Z.of_nat (length items) < limit -> 0 <= c <= limit ->
  allFrozen items = false ->
  distributionLoop (S budget) useGrow c items log =
  distributionLoop budget useGrow c (fst (exactPass useGrow c items))
                   (log ++ [snd (exactPass useGrow c items)]).
Proof.
  intros L N C AF. rewrite distributionLoop_S, AF, pass_exact by assumption.
  reflexivity.
Qed.

Lemma settle_without_violation useGrow it :
  live useGrow it -> violationOf it = 0 ->
  targetMainSize (settle 0 it) = targetMainSize it.
Proof.
  intros L V. unfold settle. cbn [freezesNow Z.eqb]. reduce_goal.
  destruct (clamped_cases useGrow it L)
    as [(_ & _ & ->) | [(_ & Lt & V' & _) | [(_ & _ & _ & Gt & V' & _)
                                          | (_ & _ & _ & _ & ->)]]];
    auto; lia.
Qed.

(** C6 (as amended).  Within the limits (fresh items, every exported
    field and the container size at most 32768, fewer than 32768 items),
    if no pass records a violation and either the fast path is taken or
    the pre-freeze pass leaves at least one item unfrozen, the returned
    widths add up to the container size clamped to at least 0. *)
Theorem widths_fill_container_without_violation items c :
  Forall fresh items -> Forall modest items ->
  c <= limit -> Z.of_nat (length items) < limit ->
  Forall (Forall (fun v => v = 0))
         (violationsLog (ResolveFlexLengths items c)) ->
  fastPath items c = true \/ allFrozen (loopEntry items c) = false ->
  exists lens,
    result (ResolveFlexLengths items c) = Returned lens /\
    zsum lens = clampContainerSize c.
Proof.
  intros F M C N. rewrite ResolveFlexLengths_unfold.
  destruct (fastPath items c) eqn:Fast.
  - intros _ _. eexists. split; [reflexivity |].
    rewrite <- sumHypo_exact by assumption. now apply Z.eqb_eq.
  - intros Log [? | AF]; [discriminate |].
    pose proof (clampContainerSize_range c C) as C'.
    pose proof (loopEntry_live items c F M) as L.
    pose proof (loopEntry_freeSpace items c F M N Fast) as Sign.
    pose proof (loopEntry_length items c) as Len.
    set (g := growing items c) in *. set (c' := clampContainerSize c) in *.
    set (items0 := loopEntry items c) in *.
    assert (N0 : Z.of_nat (length items0) < limit) by now rewrite Len.
    destruct (length items) as [| n] eqn:En.
    { destruct items0; [discriminate AF | discriminate Len]. }
    revert Log. rewrite distributionLoop_pass by assumption. cbn [app].
    set (vs := snd (exactPass g c' items0)).
    set (items' := fst (exactPass g c' items0)).
    destruct (distributionLoop_log g c' (S n) items' [vs])
      as (more & E & _). rewrite E. intros Log.
    assert (Z0 : Forall (fun v => v = 0) vs) by now inversion Log.
    assert (T0 : zsum vs = 0).
    { clear - Z0. induction Z0 as [| v l -> _ IH]; [reflexivity |].
      rewrite zsum_cons. lia. }
    set (r0 := exactFreeSpace c' items0) in *.
    assert (R0 : r0 <> 0) by (destruct g; lia).
    set (items1 := exactDistribute g r0 items0).
    assert (L1 : Forall (live g) items1).
    { apply exactDistribute_live; [| exact L].
      destruct (freeSpace_exact g c' items0 L N0 C') as [_ B].
      fold r0 in B. unfold limit in *. lia. }
    assert (E' : items' = map (settle 0) items1).
    { unfold items'. rewrite exactPass_settle. fold vs. now rewrite T0. }
    assert (AF' : allFrozen items' = true)
      by (rewrite E'; apply allFrozen_map_settle_zero).
    rewrite distributionLoop_S, AF'. cbn [result].
    eexists. split; [reflexivity |].
    assert (Et : map targetMainSize items' = map targetMainSize items1).
    { rewrite E', map_map. apply map_ext_in. intros it In.
      rewrite Forall_forall in L1.
      apply (settle_without_violation g); [now apply L1 |].
      unfold vs, exactPass in Z0. cbn [snd] in Z0. fold r0 items1 in Z0.
      rewrite Forall_map, Forall_forall in Z0. now apply Z0. }
    rewrite Et. unfold items1, exactDistribute.
    destruct (Z.eqb_spec r0 0); [contradiction |].
    rewrite (exactShares_total g) by auto.
    unfold r0, exactFreeSpace. lia.
Qed.

Lemma widths_fill_container_without_violation_witness :
  exists lens,
    result (ResolveFlexLengths
              [newItem 30 0 0 0 0 0; newItem 0 1 0 0 0 0; newItem 0 2 0 0 0 0]
              60)
    = Returned lens /\ zsum lens = clampContainerSize 60.
Proof.
  apply (widths_fill_container_without_violation
           [newItem 30 0 0 0 0 0; newItem 0 1 0 0 0 0; newItem 0 2 0 0 0 0]
           60).
  - repeat constructor.
  - repeat constructor; vm_compute; discriminate.
  - vm_compute; discriminate.
  - vm_compute; reflexivity.
  - vm_compute. repeat constructor.
  - right. vm_compute; reflexivity.
Defined.

(** ** Later items are served at least as well *)

Lemma beyond_refl r x : beyond r x x.
Proof. unfold beyond; lia. Qed.

Lemma beyond_trans r x y z : beyond r x y -> beyond r y z -> beyond r x z.
Proof. unfold beyond; lia. Qed.

Lemma beyond_same_sign r r' x y :
  (0 <= r -> 0 <= r') -> (r <= 0 -> r' <= 0) ->
  beyond r' x y -> beyond r x y.
Proof. unfold beyond; intuition lia. Qed.

(** Truncation leaves the later items a slightly larger share per unit
    of factor. *)
Lemma share_ratio_nonneg (r w wb s : Z) :
  0 <= r -> 0 < w -> 0 < wb -> w + wb <= s ->
  Z.quot (r * wb) s <= Z.quot ((r - Z.quot (r * w) s) * wb) (s - w).
Proof.
  intros R W Wb S.
  destruct (share_between r w s ltac:(lia)) as [P _]. specialize (P R).
  rewrite !Z.quot_div_nonneg by nia.
  rewrite Z.quot_div_nonneg in P by nia.
  set (q := r * w / s) in *. set (x := r * wb / s).
  apply Z.div_le_lower_bound; [lia |].
  assert (Hq : s * q <= r * w) by (apply Z.mul_div_le; lia).
  assert (Hx : s * x <= r * wb) by (apply Z.mul_div_le; lia).
  assert (X0 : 0 <= x) by (apply Z.div_pos; nia).
  (* s * ((s - w) * x) <= s * ((r - q) * wb) *)
  apply (Z.mul_le_mono_pos_l _ _ s); [lia |].
  assert (A : s * ((s - w) * x) <= (s - w) * (r * wb)) by nia.
  assert (B : (s - w) * (r * wb) <= s * ((r - q) * wb)) by nia.
  lia.
Qed.

Lemma share_ratio (r w wb s : Z) :
  0 < w -> 0 < wb -> w + wb <= s ->
  beyond r (Z.quot (r * wb) s)
         (Z.quot ((r - Z.quot (r * w) s) * wb) (s - w)).
Proof.
  intros W Wb S. split; intros R.
  - now apply share_ratio_nonneg.
  - pose proof (share_ratio_nonneg (- r) w wb s ltac:(lia) W Wb S) as H.
    replace (- r * wb) with (- (r * wb)) in H by ring.
    replace (- r * w) with (- (r * w)) in H by ring.
    rewrite !Z.quot_opp_l in H by lia.
    replace ((- r - - Z.quot (r * w) s) * wb)
      with (- ((r - Z.quot (r * w) s) * wb)) in H by ring.
    rewrite Z.quot_opp_l in H by lia. lia.
Qed.

Lemma share_weight_mono (r wa wb s : Z) :
  0 < s -> wa <= wb -> beyond r (Z.quot (r * wa) s) (Z.quot (r * wb) s).
Proof.
  intros S W. split; intros R; apply Z.quot_le_mono; nia.
Qed.

(** The share of the unfrozen item at position [k] is at least what the
    ratio at the start of the list grants it. *)
Lemma exactShares_nth_beyond useGrow items :
  forall r s k b,
    Forall (live useGrow) items ->
    s = sumUnfrozenWeights useGrow items ->
    nth_error items k = Some b -> frozen b = false ->
    exists q,
      nth_error (exactShares (weight useGrow) r s items) k
      = Some (set_targetMainSize (flexBaseSize b + q) b) /\
      beyond r (Z.quot (r * weight useGrow b) s) q.
Proof.
  induction items as [| it rest IH]; intros r s k b L S Hk Fb;
    [destruct k; discriminate |].
  inversion L as [| ? ? Lit Lrest]; subst.
  cbn [exactShares]. rewrite sumUnfrozenWeights_cons.
  destruct k as [| k]; cbn [nth_error] in Hk.
  - injection Hk as ->. rewrite Fb.
    destruct (live_unfrozen_weight _ _ Lit Fb) as [W ->].
    eexists. split; [reflexivity | apply beyond_refl].
  - destruct (frozen it) eqn:F.
    + assert (E0 : unfrozenWeight useGrow it = 0)
        by (unfold unfrozenWeight; now rewrite F).
      rewrite E0, Z.add_0_l. cbn [nth_error]. now apply IH.
    + destruct (live_unfrozen_weight _ _ Lit F) as [W ->].
      cbn [nth_error].
      set (w := weight useGrow it) in *.
      set (s' := sumUnfrozenWeights useGrow rest) in *.
      destruct (IH (r - Z.quot (r * w) (w + s')) (w + s' - w) k b Lrest
                   ltac:(unfold s'; lia) Hk Fb) as (q & E & B).
      exists q. split; [exact E |].
      assert (Lb : live useGrow b)
        by (rewrite Forall_forall in Lrest; eapply Lrest, nth_error_In;
            eauto).
      destruct (live_unfrozen_weight _ _ Lb Fb) as [Wb Eb].
      assert (Wle : weight useGrow b <= s').
      { unfold s', sumUnfrozenWeights. clear - Hk Eb Lrest.
        revert k Hk. induction Lrest as [| x l Lx Ll IHl]; intros k Hk;
          [destruct k; discriminate |].
        cbn [map]. rewrite zsum_cons.
        pose proof (live_weight _ _ Lx).
        assert (0 <= zsum (map (unfrozenWeight useGrow) l))
          by (apply sumUnfrozenWeights_nonneg; assumption).
        destruct k as [| k]; cbn in Hk.
        - injection Hk as ->. lia.
        - specialize (IHl k Hk). lia. }
      pose proof (share_ratio r w (weight useGrow b) (w + s')
                              ltac:(lia) ltac:(lia) ltac:(lia)) as Rt.
      destruct (share_between r w (w + s') ltac:(lia)) as [P Q].
      eapply beyond_trans; [exact Rt |].
      eapply beyond_same_sign; [| | exact B]; lia.
Qed.

Lemma exactShares_nth_frozen wt items :
  forall r s k b,
    nth_error items k = Some b -> frozen b = true ->
    nth_error (exactShares wt r s items) k = Some b.
Proof.
  induction items as [| it rest IH]; intros r s k b Hk Fb;
    [destruct k; discriminate |].
  cbn [exactShares]. destruct k as [| k]; cbn [nth_error] in Hk.
  - injection Hk as ->. now rewrite Fb.
  - destruct (frozen it); cbn [nth_error]; now apply IH.
Qed.

(** Of two unfrozen items, the later one with the larger factor gets the
    share further in the direction of the free space. *)
Lemma exactShares_ordered useGrow items :
  forall r s i j a b,
    Forall (live useGrow) items ->
    s = sumUnfrozenWeights useGrow items ->
    (i < j)%nat ->
    nth_error items i = Some a -> nth_error items j = Some b ->
    frozen a = false -> frozen b = false ->
    weight useGrow a <= weight useGrow b ->
    exists qa qb,
      nth_error (exactShares (weight useGrow) r s items) i
      = Some (set_targetMainSize (flexBaseSize a + qa) a) /\
      nth_error (exactShares (weight useGrow) r s items) j
      = Some (set_targetMainSize (flexBaseSize b + qb) b) /\
      beyond r qa qb /\ beyond r 0 qa.
Proof.
  induction items as [| it rest IH]; intros r s i j a b L S Lt Hi Hj Fa Fb W;
    [destruct i; discriminate |].
  inversion L as [| ? ? Lit Lrest]; subst.
  destruct j as [| j]; [lia |]. cbn [nth_error] in Hj.
  destruct i as [| i]; cbn [nth_error] in Hi.
  - injection Hi as ->.
    destruct (exactShares_nth_beyond useGrow (a :: rest) r _ (S j) b L
                                     eq_refl Hj Fb) as (qb & Eb & Bb).
    destruct (exactShares_nth_beyond useGrow (a :: rest) r _ 0%nat a L
                                     eq_refl eq_refl Fa) as (qa & Ea & _).
    exists (Z.quot (r * weight useGrow a)
                   (sumUnfrozenWeights useGrow (a :: rest))), qb.
    assert (Lb : live useGrow b)
      by (rewrite Forall_forall in Lrest; eapply Lrest, nth_error_In; eauto).
    destruct (live_unfrozen_weight _ _ Lit Fa) as [Wa Ea'].
    pose proof (sumUnfrozenWeights_nonneg _ _ Lrest) as Nn.
    assert (Spos : 0 < sumUnfrozenWeights useGrow (a :: rest)).
    { rewrite sumUnfrozenWeights_cons, Ea'. lia. }
    split; [| split; [exact Eb | split]].
    + cbn [exactShares nth_error]. rewrite Fa. reflexivity.
    + eapply beyond_trans; [| exact Bb]. now apply share_weight_mono.
    + destruct (share_between r (weight useGrow a)
                              (sumUnfrozenWeights useGrow (a :: rest)))
        as [P Q].
      * rewrite sumUnfrozenWeights_cons, Ea'. lia.
      * unfold beyond. lia.
  - cbn [exactShares]. rewrite sumUnfrozenWeights_cons.
    destruct (frozen it) eqn:F.
    + assert (E0 : unfrozenWeight useGrow it = 0)
        by (unfold unfrozenWeight; now rewrite F).
      rewrite E0, Z.add_0_l. cbn [nth_error].
      apply IH; auto. lia.
    + destruct (live_unfrozen_weight _ _ Lit F) as [Wt ->].
      cbn [nth_error].
      set (w := weight useGrow it) in *.
      set (s' := sumUnfrozenWeights useGrow rest) in *.
      pose proof (sumUnfrozenWeights_nonneg _ _ Lrest) as Nn. fold s' in Nn.
      destruct (share_between r w (w + s') ltac:(lia)) as [P Q].
      destruct (IH (r - Z.quot (r * w) (w + s')) (w + s' - w) i j a b Lrest
                   ltac:(unfold s'; lia) ltac:(lia) Hi Hj Fa Fb W)
        as (qa & qb & Ea & Eb & B1 & B2).
      exists qa, qb. split; [exact Ea |]. split; [exact Eb |].
      unfold beyond in *. split; lia.
Qed.

(** ** The direction of a call *)

Lemma dir_refl g x : dir g x x.
Proof. destruct g; cbn; lia. Qed.

Lemma dir_trans g x y z : dir g x y -> dir g y z -> dir g x z.
Proof. destruct g; cbn; lia. Qed.

Lemma clampZ_spec mn mx t :
  (t < mn /\ clampZ mn mx t = mn) \/
  (mn <= t /\ mx <> 0 /\ mx < t /\ clampZ mn mx t = mx) \/
  (mn <= t /\ (mx <> 0 -> t <= mx) /\ clampZ mn mx t = t).
Proof.
  unfold clampZ. destruct (Z.ltb_spec t mn); [left; auto |]. right.
  destruct (Z.eqb_spec mx 0); cbn [negb andb]; [right; lia |].
  rewrite Z.gtb_ltb. destruct (Z.ltb_spec mx t); [left | right]; lia.
Qed.

Lemma settle_frozen total it : frozen it = true -> settle total it = it.
Proof.
  intros F. unfold settle, clamped, clampItem. rewrite F. cbn [fst].
  destruct (freezesNow total it); [| reflexivity].
  destruct it; cbn in *. now subst.
Qed.

(** What steps 4.d and 4.e do to an unfrozen item. *)
Lemma settle_unfrozen total it :
  frozen it = false ->
  exported (settle total it) = exported it /\
  flexBaseSize (settle total it) = flexBaseSize it /\
  hypoMainSize (settle total it) = hypoMainSize it /\
  targetMainSize (settle total it)
  = clampZ (Min it) (Max it) (targetMainSize it) /\
  (frozen (settle total it) = true <->
   total = 0 \/
   (0 < total /\ targetMainSize it < Min it) \/
   (total < 0 /\ Min it <= targetMainSize it /\ Max it <> 0 /\
    Max it < targetMainSize it)).
Proof.
  intros F.
  unfold settle, freezesNow, violationOf, clamped, clampItem, clampZ, exported.
  rewrite F, !Z.gtb_ltb.
  destruct (Z.eqb_spec total 0);
    destruct (Z.ltb_spec 0 total);
    destruct (Z.ltb_spec (targetMainSize it) (Min it));
    destruct (Z.eqb_spec (Max it) 0); cbn [negb andb fst];
    try destruct (Z.ltb_spec (Max it) (targetMainSize it));
    repeat match goal with
           | |- context [?a <? ?b] => destruct (Z.ltb_spec a b)
           end;
    reduce_goal; rewrite ?F;
    (split; [reflexivity |]); (split; [reflexivity |]);
    (split; [reflexivity |]); (split; [reflexivity |]);
    split; intros; try lia; try discriminate; try reflexivity.
Qed.

Lemma shared_statics r it it' :
  shared r it it' ->
  exported it' = exported it /\ flexBaseSize it' = flexBaseSize it /\
  hypoMainSize it' = hypoMainSize it /\ frozen it' = frozen it.
Proof.
  unfold shared. destruct (frozen it) eqn:F; [intros ->; auto |].
  intros (q & -> & _). unfold exported; reduce_goal. auto.
Qed.

Lemma Forall2_nth_error {A B : Type} (R : A -> B -> Prop) l l' :
  Forall2 R l l' ->
  forall i a, nth_error l i = Some a ->
              exists b, nth_error l' i = Some b /\ R a b.
Proof.
  induction 1 as [| x y l l' Hxy _ IH]; intros i a Hi;
    [destruct i; discriminate |].
  destruct i as [| i]; cbn in *.
  - injection Hi as ->. eauto.
  - now apply IH.
Qed.

(** ** Targets after a pass *)

Lemma steady_violation g it : steady g it -> violationOf it = 0.
Proof.
  unfold steady, violationOf. intros (S1 & S2 & _).
  destruct (frozen it); [reflexivity |].
  destruct (Z.ltb_spec (targetMainSize it) (Min it)); [lia |].
  destruct (Z.eqb_spec (Max it) 0); [reflexivity |]. cbn [negb andb].
  rewrite Z.gtb_ltb.
  destruct (Z.ltb_spec (Max it) (targetMainSize it)); [| reflexivity].
  specialize (S2 ltac:(assumption)). lia.
Qed.

(** A clamped target is steady when the target came from a share in the
    direction of the call, or was steady already. *)
Lemma clampZ_steady g it t :
  live g it -> flexible g it -> frozen it = false ->
  dir g (flexBaseSize it) t \/ dir g (hypoMainSize it) t ->
  Min it <= clampZ (Min it) (Max it) t /\
  (Max it <> 0 -> clampZ (Min it) (Max it) t <= Max it) /\
  dir g (hypoMainSize it) (clampZ (Min it) (Max it) t).
Proof.
  intros [S _] [H Fl] F D. specialize (Fl F).
  unfold sized in S. destruct S as (S1 & S2 & S3 & S4 & _).
  rewrite H in *. clear H.
  destruct (clampZ_spec (Min it) (Max it) t) as [(A & ->) | [(A & B & C & ->)
                                                          | (A & B & ->)]];
    destruct (Z.eqb_spec (Max it) 0); cbn [negb andb] in *;
    try rewrite Z.gtb_ltb in *;
    try destruct (Z.ltb_spec (Max it) (Z.max (flexBaseSize it) (Min it)));
    destruct g; cbn [dir] in *;
    repeat split; intros; try lia.
Qed.

Lemma zsum_map_dir {A : Type} g (f h : A -> Z) l :
  Forall (fun a => dir g (f a) (h a)) l ->
  dir g (zsum (map f l)) (zsum (map h l)).
Proof.
  intros H. destruct g; cbn [dir] in *; apply zsum_map_le;
    (eapply Forall_impl; [| exact H]); cbn; intros; lia.
Qed.

(** The free space has the sign of the direction as long as what the
    items are sure to take fits the container from that side. *)
Lemma freeSpace_sign g c items :
  Forall (flexible g) items ->
  dir g (zsum (map reserved items)) c ->
  dir g 0 (exactFreeSpace c items).
Proof.
  intros Fl I. unfold exactFreeSpace.
  assert (D : dir g (zsum (map used items)) (zsum (map reserved items))).
  { apply zsum_map_dir. eapply Forall_impl; [| exact Fl].
    intros it H. pose proof (flexible_used g it H). now destruct g. }
  destruct g; cbn [dir] in *; lia.
Qed.

Lemma flexible_statics g it it' :
  exported it' = exported it -> flexBaseSize it' = flexBaseSize it ->
  hypoMainSize it' = hypoMainSize it ->
  (frozen it = true -> frozen it' = true) ->
  flexible g it -> flexible g it'.
Proof.
  intros E Ef Eh Fz [H Fl]. apply exported_fields in E.
  destruct E as (_ & _ & _ & _ & EM & EX).
  unfold flexible. rewrite Eh, Ef, EM, EX. split; [exact H |].
  intros F. apply Fl. destruct (frozen it); [| reflexivity].
  specialize (Fz eq_refl). congruence.
Qed.

Lemma shared_flexible g r it it' :
  shared r it it' -> flexible g it -> flexible g it'.
Proof.
  intros S. destruct (shared_statics r it it' S) as (E & Ef & Eh & Fz).
  apply flexible_statics; auto. congruence.
Qed.

Lemma settle_statics total it :
  exported (settle total it) = exported it /\
  flexBaseSize (settle total it) = flexBaseSize it /\
  hypoMainSize (settle total it) = hypoMainSize it /\
  (frozen it = true -> frozen (settle total it) = true).
Proof.
  destruct (frozen it) eqn:F.
  - rewrite settle_frozen by assumption. auto.
  - destruct (settle_unfrozen total it F) as (E & Ef & Eh & _).
    repeat split; auto. discriminate.
Qed.

Lemma settle_flexible g total it : flexible g it -> flexible g (settle total it).
Proof.
  destruct (settle_statics total it) as (E & Ef & Eh & Fz).
  now apply flexible_statics.
Qed.

(** After steps 4.d and 4.e every target is steady. *)
Lemma settle_steady g total it :
  live g it -> flexible g it -> anchored g it ->
  (frozen it = false ->
   dir g (flexBaseSize it) (targetMainSize it) \/
   dir g (hypoMainSize it) (targetMainSize it)) ->
  steady g (settle total it).
Proof.
  intros L Fl A D. destruct (frozen it) eqn:F.
  - rewrite settle_frozen by assumption. now apply A.
  - destruct (settle_unfrozen total it F) as (E & _ & Eh & Et & _).
    apply exported_fields in E. destruct E as (_ & _ & _ & _ & EM & EX).
    unfold steady. rewrite Et, Eh, EM, EX.
    apply clampZ_steady; auto.
Qed.

(** The target of an item after the exact distribution: moved from the
    flex base size in the direction of the free space, or left as it
    was when there is nothing to distribute. *)
Lemma exactDistribute_nth g r items i a :
  Forall (live g) items -> nth_error items i = Some a ->
  exists a1,
    nth_error (exactDistribute g r items) i = Some a1 /\
    (r = 0 /\ a1 = a \/ r <> 0 /\ shared r a a1).
Proof.
  intros L Hi.
  destruct (exactDistribute_shared g r items L) as [[R ->] | [R S]].
  - exists a. auto.
  - destruct (Forall2_nth_error _ _ _ S i a Hi) as (a1 & H1 & S1).
    exists a1. auto.
Qed.

Lemma shared_target_dir g r it it1 :
  dir g 0 r -> r <> 0 -> shared r it it1 -> frozen it = false ->
  dir g (flexBaseSize it1) (targetMainSize it1).
Proof.
  unfold shared. intros D R S F. rewrite F in S.
  destruct S as (q & -> & P & Q). reduce_goal.
  destruct g; cbn [dir] in *; lia.
Qed.

Lemma shared_anchored g r it it1 :
  shared r it it1 -> anchored g it -> anchored g it1.
Proof.
  unfold shared, anchored. destruct (frozen it) eqn:F.
  - intros -> H _. exact (H eq_refl).
  - intros (q & -> & _) _. reduce_goal. rewrite F. discriminate.
Qed.

Lemma exactPass_steady g c items :
  Forall (live g) items -> Forall (flexible g) items ->
  Forall (anchored g) items ->
  exactFreeSpace c items <> 0 \/ Forall (steady g) items ->
  dir g 0 (exactFreeSpace c items) ->
  - (limit * limit) <= exactFreeSpace c items <= limit * limit ->
  Forall (steady g) (fst (exactPass g c items)) /\
  Forall (flexible g) (fst (exactPass g c items)).
Proof.
  intros L Fl A U D B. rewrite exactPass_settle.
  set (r := exactFreeSpace c items) in *.
  set (total := zsum (snd (exactPass g c items))).
  destruct (exactDistribute_shared g r items L) as [[R ->] | [R S]].
  - destruct U as [U | U]; [contradiction |].
    split; apply Forall_map; rewrite Forall_forall in *; intros it In.
    + apply settle_steady; auto. intros _. right. now apply U.
    + apply settle_flexible; auto.
  - split; apply Forall_map.
    + assert (H : Forall (fun it1 => live g it1 /\ flexible g it1 /\
                                      anchored g it1 /\
                                      (frozen it1 = false ->
                                       dir g (flexBaseSize it1)
                                           (targetMainSize it1)))
                         (exactDistribute g r items)).
      { eapply Forall_through_Forall2;
          [| exact (Forall_and L (Forall_and Fl A)) | exact S].
        intros it it1 (Li & Fi & Ai) Sh.
        destruct (shared_statics r it it1 Sh) as (_ & _ & _ & Fz).
        split; [eapply shared_live; eauto |].
        split; [eapply shared_flexible; eauto |].
        split; [eapply shared_anchored; eauto |].
        intros F1. eapply shared_target_dir; eauto; congruence. }
      eapply Forall_impl; [| exact H].
      intros it1 (L1 & F1 & A1 & D1). apply settle_steady; auto.
    + eapply Forall_through_Forall2; [| exact Fl | exact S].
      intros it it1 Hf Sh. apply settle_flexible.
      eapply shared_flexible; eauto.
Qed.

(** ** The free space keeps its sign *)

Lemma flexible_hypo_bounds g it :
  live g it -> flexible g it ->
  Min it <= hypoMainSize it /\ (Max it <> 0 -> hypoMainSize it <= Max it).
Proof.
  intros [S _] [H _]. unfold sized in S. rewrite H.
  destruct (Z.eqb_spec (Max it) 0); cbn [negb andb]; [lia |].
  rewrite Z.gtb_ltb.
  destruct (Z.ltb_spec (Max it) (Z.max (flexBaseSize it) (Min it))); lia.
Qed.

Lemma clamped_target it :
  targetMainSize (clamped it) =
  if frozen it then targetMainSize it
  else clampZ (Min it) (Max it) (targetMainSize it).
Proof.
  unfold clamped, clampItem, clampZ. destruct (frozen it); [reflexivity |].
  destruct (targetMainSize it <? Min it); [reflexivity |].
  now destruct (negb (Max it =? 0) && (targetMainSize it >? Max it)).
Qed.

Lemma clamped_violation g it :
  live g it ->
  targetMainSize (clamped it) = targetMainSize it + violationOf it.
Proof.
  intros L.
  destruct (clamped_cases g it L)
    as [(_ & -> & ->) | [(_ & _ & -> & ->) | [(_ & _ & _ & _ & -> & ->)
                                           | (_ & _ & _ & -> & ->)]]];
    reduce_goal; lia.
Qed.

Lemma zsum_map_add {A : Type} (f h : A -> Z) l :
  zsum (map (fun a => f a + h a) l) = zsum (map f l) + zsum (map h l).
Proof. unfold zsum. induction l; cbn; lia. Qed.

Lemma settle_reserved g total it :
  live g it -> flexible g it -> anchored g it ->
  steady g (settle total it) -> total <> 0 ->
  (along g total -> dir g (reserved (settle total it)) (reserved it)) /\
  (~ along g total ->
   dir g (reserved (settle total it)) (targetMainSize (clamped it))).
Proof.
  intros L Fl A St T. rewrite clamped_target.
  destruct (flexible_hypo_bounds g it L Fl) as [Hm Hx].
  destruct (frozen it) eqn:F.
  - rewrite settle_frozen by assumption. unfold reserved. rewrite F.
    split; intros; apply dir_refl.
  - destruct (settle_unfrozen total it F) as (E & _ & Eh & Et & Fz).
    apply exported_fields in E. destruct E as (_ & _ & _ & _ & EM & EX).
    destruct St as (S1 & S2 & S3). rewrite Et, Eh, ?EM, ?EX in *.
    unfold reserved. rewrite F, Eh, Et.
    destruct (frozen (settle total it)) eqn:F'.
    + apply proj1 in Fz. specialize (Fz eq_refl).
      split; intros Al; [| apply dir_refl].
      destruct (clampZ_spec (Min it) (Max it) (targetMainSize it))
        as [(C1 & C2) | [(C1 & C2 & C3 & C4) | (C1 & C2 & C3)]];
        rewrite ?C2, ?C3, ?C4 in *;
        destruct g; cbn [dir along] in *; lia.
    + split; intros Al; [apply dir_refl | exact S3].
Qed.

Lemma shared_reserved r it it1 : shared r it it1 -> reserved it1 = reserved it.
Proof.
  unfold shared, reserved. destruct (frozen it) eqn:F.
  - intros ->. now rewrite F.
  - intros (q & -> & _). reduce_goal. now rewrite F.
Qed.

(** What the items are sure to take stays on the same side of the
    container size from pass to pass, until all are frozen. *)
Lemma exactPass_reserved g c items :
  Forall (live g) items -> Forall (flexible g) items ->
  Forall (anchored g) items ->
  exactFreeSpace c items <> 0 \/ Forall (steady g) items ->
  Z.of_nat (length items) < limit -> 0 <= c <= limit ->
  allFrozen items = false ->
  dir g (zsum (map reserved items)) c ->
  allFrozen (fst (exactPass g c items)) = true \/
  dir g (zsum (map reserved (fst (exactPass g c items)))) c.
Proof.
  intros L Fl A U N C AF I.
  pose proof (freeSpace_sign g c items Fl I) as D.
  destruct (freeSpace_exact g c items L N C) as [_ B].
  assert (B' : - (limit * limit) <= exactFreeSpace c items <= limit * limit)
    by (unfold limit in *; lia).
  destruct (exactPass_steady g c items L Fl A U D B') as [St _].
  revert St. rewrite exactPass_settle. unfold exactPass; cbn [snd].
  set (r := exactFreeSpace c items) in *.
  set (items1 := exactDistribute g r items).
  set (total := zsum (map violationOf items1)).
  intros St.
  destruct (Z.eq_dec total 0) as [T | T];
    [left; rewrite T; apply allFrozen_map_settle_zero | right].
  assert (R : r <> 0).
  { intros R0. destruct U as [U | U]; [contradiction |]. apply T.
    unfold total, items1, exactDistribute. rewrite R0. cbn [Z.eqb].
    clear - U. induction U as [| it l H _ IH]; [reflexivity |].
    cbn [map]. rewrite zsum_cons, (steady_violation g it H). exact IH. }
  destruct (exactDistribute_shared g r items L) as [[R0 _] | [_ S]];
    [contradiction |]. fold items1 in S.
  assert (L1 : Forall (live g) items1)
    by (now apply exactDistribute_live).
  assert (P1 : Forall (fun it1 => live g it1 /\ flexible g it1 /\
                                   anchored g it1) items1).
  { eapply Forall_through_Forall2;
      [| exact (Forall_and L (Forall_and Fl A)) | exact S].
    intros it it1 (Li & Fi & Ai) Sh.
    split; [eapply shared_live; eauto |].
    split; [eapply shared_flexible; eauto | eapply shared_anchored; eauto]. }
  assert (R1 : map reserved items1 = map reserved items).
  { symmetry. eapply Forall2_map_eq; [| exact S].
    intros a b Sh. symmetry. eapply shared_reserved; eauto. }
  assert (T1 : zsum (map targetMainSize (map clamped items1)) = c + total).
  { rewrite map_map.
    rewrite (map_ext_in (fun it => targetMainSize (clamped it))
                        (fun it => targetMainSize it + violationOf it)).
    - rewrite zsum_map_add. fold total. unfold items1, exactDistribute.
      destruct (Z.eqb_spec r 0); [contradiction |].
      rewrite (exactShares_total g) by auto.
      unfold r, exactFreeSpace. lia.
    - intros it In. rewrite Forall_forall in L1.
      now apply (clamped_violation g), L1. }
  rewrite Forall_map in St.
  assert (K : Forall (fun it1 =>
                        (along g total ->
                         dir g (reserved (settle total it1)) (reserved it1)) /\
                        (~ along g total ->
                         dir g (reserved (settle total it1))
                             (targetMainSize (clamped it1)))) items1).
  { rewrite Forall_forall in *. intros it1 In.
    destruct (P1 it1 In) as (Li & Fi & Ai).
    apply settle_reserved; auto. }
  rewrite map_map.
  assert (Al : along g total \/ ~ along g total)
    by (unfold along; destruct g; lia).
  destruct Al as [Al | Al].
  - eapply dir_trans; [| exact I]. rewrite <- R1.
    apply zsum_map_dir. eapply Forall_impl; [| exact K].
    intros it1 [H _]. now apply H.
  - eapply dir_trans.
    + apply (zsum_map_dir g _ (fun it1 => targetMainSize (clamped it1))).
      eapply Forall_impl; [| exact K]. intros it1 [_ H]. now apply H.
    + rewrite <- map_map, T1. unfold along in Al.
      destruct g; cbn [dir]; lia.
Qed.

(** ** Two items alike but for their factor *)

Lemma matched_weight g a b :
  live g a -> matched g a b -> weight g a <= weight g b.
Proof.
  intros [S _] (Ef & _ & _ & _ & Fa). unfold sized in S.
  unfold weight, factor in *. destruct g; [exact Fa |].
  rewrite <- Ef. nia.
Qed.

Lemma matched_statics g a b a' b' :
  exported a' = exported a -> flexBaseSize a' = flexBaseSize a ->
  hypoMainSize a' = hypoMainSize a ->
  exported b' = exported b -> flexBaseSize b' = flexBaseSize b ->
  hypoMainSize b' = hypoMainSize b ->
  matched g a b -> matched g a' b'.
Proof.
  intros Ea Fa Ha Eb Fb Hb (M1 & M2 & M3 & M4 & M5).
  apply exported_fields in Ea, Eb.
  destruct Ea as (_ & Ga & Sa & _ & Ma & Xa).
  destruct Eb as (_ & Gb & Sb & _ & Mb & Xb).
  unfold matched, factor in *. rewrite Fa, Fb, Ha, Hb, Ma, Mb, Xa, Xb.
  repeat split; auto. destruct g; congruence.
Qed.

Lemma clampZ_mono mn mx t t' :
  (mx <> 0 -> mn <= mx) -> t <= t' -> clampZ mn mx t <= clampZ mn mx t'.
Proof.
  intros H Le.
  destruct (clampZ_spec mn mx t) as [(A & ->) | [(A & B & C & ->)
                                              | (A & B & ->)]];
    destruct (clampZ_spec mn mx t') as [(A' & ->) | [(A' & B' & C' & ->)
                                                  | (A' & B' & ->)]];
    lia.
Qed.

(** Steps 4.d and 4.e keep the pair in order. *)
Lemma settle_paired g total a b :
  live g a -> live g b -> flexible g a -> flexible g b ->
  matched g a b -> paired g a b ->
  steady g (settle total a) -> steady g (settle total b) ->
  paired g (settle total a) (settle total b).
Proof.
  intros La Lb Fa Fb M P Sa Sb.
  destruct M as (Mf & Mm & Mx & Mh & _).
  destruct P as (PA & PB & PC).
  destruct (flexible_hypo_bounds g a La Fa) as [Hm Hx].
  assert (Bd : Max a <> 0 -> Min a <= Max a)
    by (destruct La as [S _]; unfold sized in S; tauto).
  destruct (frozen a) eqn:Fza; destruct (frozen b) eqn:Fzb.
  - rewrite !settle_frozen by assumption.
    unfold paired. rewrite Fza, Fzb. repeat split; auto; discriminate.
  - rewrite (settle_frozen total a) by assumption.
    destruct (settle_unfrozen total b Fzb) as (_ & _ & Eh & _ & _).
    destruct Sb as (_ & _ & Sb3). rewrite Eh in Sb3.
    unfold paired. rewrite Fza, Eh.
    destruct (frozen (settle total b)); repeat split; intros;
      try discriminate; auto.
    eapply dir_trans; [apply PB; reflexivity | exact Sb3].
  - rewrite (settle_frozen total b) by assumption.
    destruct (settle_unfrozen total a Fza) as (E & _ & _ & _ & _).
    apply exported_fields in E. destruct E as (_ & _ & _ & _ & EM & EX).
    destruct Sa as (Sa1 & Sa2 & _). rewrite EM, EX in *.
    destruct (PC eq_refl eq_refl) as [Tb Xb].
    unfold paired. rewrite Fzb.
    destruct (frozen (settle total a)); repeat split; intros;
      try discriminate; auto.
    rewrite Tb. destruct g; cbn [dir]; [| lia].
    rewrite <- Mx in *. specialize (Xb eq_refl). specialize (Sa2 Xb). lia.
  - specialize (PA eq_refl).
    destruct (settle_unfrozen total a Fza) as (_ & _ & _ & Ta & Za).
    destruct (settle_unfrozen total b Fzb) as (Eb & _ & Ehb & Tb & Zb).
    apply exported_fields in Eb. destruct Eb as (_ & _ & _ & _ & EMb & EXb).
    unfold paired. rewrite Ta, Tb, Ehb, EMb, EXb, <- Mm, <- Mx, <- Mh.
    assert (Mono : dir g (clampZ (Min a) (Max a) (targetMainSize a))
                       (clampZ (Min a) (Max a) (targetMainSize b))).
    { destruct g; cbn [dir] in *; now apply clampZ_mono. }
    split; [intros _; exact Mono |].
    rewrite <- Mm, <- Mx in Zb.
    pose proof (clampZ_spec (Min a) (Max a) (targetMainSize a)) as Ca.
    pose proof (clampZ_spec (Min a) (Max a) (targetMainSize b)) as Cb.
    set (ca := clampZ (Min a) (Max a) (targetMainSize a)) in *.
    set (cb := clampZ (Min a) (Max a) (targetMainSize b)) in *.
    set (fa := frozen (settle total a)) in *.
    set (fb := frozen (settle total b)) in *.
    clear Mono Sa Sb Ta Tb.
    split; intros Fa' Fb'.
    + apply Za in Fa'.
      assert (Nb : ~ (total = 0 \/
                      0 < total /\ targetMainSize b < Min a \/
                      total < 0 /\ Min a <= targetMainSize b /\
                      Max a <> 0 /\ Max a < targetMainSize b))
        by (intros X; apply Zb in X; congruence).
      clear Za Zb. destruct g; cbn [dir] in *; lia.
    + apply Zb in Fb'.
      assert (Na : ~ (total = 0 \/
                      0 < total /\ targetMainSize a < Min a \/
                      total < 0 /\ Min a <= targetMainSize a /\
                      Max a <> 0 /\ Max a < targetMainSize a))
        by (intros X; apply Za in X; congruence).
      clear Za Zb. destruct g; cbn [dir] in *;
        (split; [lia | intros X; first [discriminate X | lia]]).
Qed.

(** ** The pair through a pass *)

Lemma exactDistribute_flexible g r items :
  Forall (live g) items -> Forall (flexible g) items ->
  Forall (flexible g) (exactDistribute g r items).
Proof.
  intros L Fl.
  destruct (exactDistribute_shared g r items L) as [[_ ->] | [_ S]];
    [exact Fl |].
  eapply Forall_through_Forall2; [| exact Fl | exact S].
  intros a b H Sh. eapply shared_flexible; eauto.
Qed.

(** The distribution keeps the pair in order: the later item with the
    larger factor gets the share further in the direction of the call. *)
Lemma exactDistribute_paired g r items i j a b :
  Forall (live g) items -> (i < j)%nat ->
  nth_error items i = Some a -> nth_error items j = Some b ->
  matched g a b -> paired g a b -> dir g 0 r ->
  exists a1 b1,
    nth_error (exactDistribute g r items) i = Some a1 /\
    nth_error (exactDistribute g r items) j = Some b1 /\
    matched g a1 b1 /\ paired g a1 b1.
Proof.
  intros L Lt Hi Hj M P D. unfold exactDistribute.
  destruct (Z.eqb_spec r 0) as [R | R]; [exists a, b; auto |].
  assert (La : live g a)
    by (rewrite Forall_forall in L; eapply L, nth_error_In; eauto).
  pose proof (matched_weight g a b La M) as W.
  destruct P as (PA & PB & PC).
  set (s := sumUnfrozenWeights g items).
  destruct (frozen a) eqn:Fa; destruct (frozen b) eqn:Fb.
  - exists a, b.
    rewrite (exactShares_nth_frozen _ items r s i a Hi Fa).
    rewrite (exactShares_nth_frozen _ items r s j b Hj Fb).
    split; [reflexivity |]. split; [reflexivity |]. split; [exact M |].
    unfold paired. rewrite Fa, Fb.
    split; [exact PA | split; [exact PB | exact PC]].
  - destruct (exactShares_nth_beyond g items r s j b L eq_refl Hj Fb)
      as (qb & Eb & _).
    exists a, (set_targetMainSize (flexBaseSize b + qb) b).
    rewrite (exactShares_nth_frozen _ items r s i a Hi Fa).
    split; [reflexivity |]. split; [exact Eb |]. split.
    + eapply matched_statics; try exact M; reflexivity.
    + unfold paired; reduce_goal. rewrite Fa, Fb.
      split; [discriminate |]. split; [intros _ _; now apply PB |].
      discriminate.
  - destruct (exactShares_nth_beyond g items r s i a L eq_refl Hi Fa)
      as (qa & Ea & _).
    exists (set_targetMainSize (flexBaseSize a + qa) a), b.
    rewrite (exactShares_nth_frozen _ items r s j b Hj Fb).
    split; [exact Ea |]. split; [reflexivity |]. split.
    + eapply matched_statics; try exact M; reflexivity.
    + unfold paired; reduce_goal. rewrite Fa, Fb.
      split; [discriminate |]. split; [discriminate |].
      intros _ _. now apply PC.
  - destruct (exactShares_ordered g items r s i j a b L eq_refl Lt Hi Hj
                                  Fa Fb W) as (qa & qb & Ea & Eb & B1 & _).
    exists (set_targetMainSize (flexBaseSize a + qa) a),
      (set_targetMainSize (flexBaseSize b + qb) b).
    split; [exact Ea |]. split; [exact Eb |]. split.
    + eapply matched_statics; try exact M; reflexivity.
    + unfold paired; reduce_goal. rewrite Fa, Fb.
      destruct M as (Mf & _). rewrite Mf.
      split; [| split; discriminate]. intros _.
      unfold beyond in B1. destruct g; cbn [dir] in *; lia.
Qed.

Lemma exactPass_ordered g c i j items :
  (i < j)%nat ->
  Forall (live g) items -> Z.of_nat (length items) < limit ->
  0 <= c <= limit -> allFrozen items = false ->
  ordered g c i j items -> ordered g c i j (fst (exactPass g c items)).
Proof.
  intros Lt L N C AF (Fl & A & U & I & a & b & Hi & Hj & M & P).
  destruct I as [I | I]; [congruence |].
  pose proof (freeSpace_sign g c items Fl I) as D.
  destruct (freeSpace_exact g c items L N C) as [_ B].
  assert (B' : - (limit * limit) <= exactFreeSpace c items <= limit * limit)
    by (unfold limit in *; lia).
  destruct (exactPass_steady g c items L Fl A U D B') as [St Fl'].
  pose proof (exactPass_reserved g c items L Fl A U N C AF I) as I'.
  split; [exact Fl' |].
  split; [eapply Forall_impl; [| exact St]; intros it H _; exact H |].
  split; [right; exact St |]. split; [exact I' |].
  destruct (exactDistribute_paired g (exactFreeSpace c items) items i j a b
                                   L Lt Hi Hj M P D)
    as (a1 & b1 & Hi1 & Hj1 & M1 & P1).
  revert St. rewrite exactPass_settle.
  set (total := zsum (snd (exactPass g c items))).
  set (items1 := exactDistribute g (exactFreeSpace c items) items) in *.
  intros St.
  assert (L1 : Forall (live g) items1) by now apply exactDistribute_live.
  assert (F1 : Forall (flexible g) items1)
    by now apply exactDistribute_flexible.
  rewrite Forall_forall in L1, F1, St.
  pose proof (nth_error_In _ _ Hi1) as Ia.
  pose proof (nth_error_In _ _ Hj1) as Ib.
  exists (settle total a1), (settle total b1).
  rewrite !nth_error_map, Hi1, Hj1. cbn [option_map].
  split; [reflexivity |]. split; [reflexivity |].
  destruct (settle_statics total a1) as (Ea & Efa & Eha & _).
  destruct (settle_statics total b1) as (Eb & Efb & Ehb & _).
  split; [eapply matched_statics; eauto |].
  apply settle_paired; auto; apply St, in_map; assumption.
Qed.

(** ** The pair on entry of the loop *)

Lemma prefreeze_anchored g it :
  fresh it -> modest it -> anchored g (sizeIfInflexible g (prepare it)).
Proof.
  intros F M Fz.
  pose proof (prefreeze_live g it F M) as L.
  destruct (prefreeze_flexible g it F) as [Fl _].
  destruct (flexible_hypo_bounds g _ L Fl) as [Hm Hx].
  destruct (sizeIfInflexible_frame g (prepare it)) as (_ & _ & _ & K).
  destruct (prepare_frame it) as (_ & Fp & _). destruct F as [F _].
  destruct (K Fz) as [K1 | K1]; [congruence |].
  destruct (sizeIfInflexible_frame g (prepare it)) as (_ & _ & Eh & _).
  unfold steady. rewrite K1, <- Eh.
  repeat split; auto. apply dir_refl.
Qed.

Lemma alike_prepared a b :
  alike a b ->
  flexBaseSize (prepare a) = flexBaseSize (prepare b) /\
  Min (prepare a) = Min (prepare b) /\ Max (prepare a) = Max (prepare b) /\
  hypoMainSize (prepare a) = hypoMainSize (prepare b).
Proof.
  intros (EB & EM & EX & EZ).
  destruct (prepare_fields a) as (_ & _ & Ma & Xa & Fa).
  destruct (prepare_fields b) as (_ & _ & Mb & Xb & Fb).
  destruct (prepare_prepared a) as (_ & _ & _ & _ & Ha).
  destruct (prepare_prepared b) as (_ & _ & _ & _ & Hb).
  assert (Em : normMin a = normMin b) by (unfold normMin; now rewrite EM).
  assert (Ex : normMax a = normMax b)
    by (unfold normMax; now rewrite Em, EX).
  assert (Ef : flexBaseSize (prepare a) = flexBaseSize (prepare b)).
  { rewrite Fa, Fb, <- EB. rewrite Z.geb_leb.
    destruct (Z.leb_spec 0 (Basis a)); [reflexivity |].
    unfold normSize. rewrite Em, Ex, EX, EZ by lia. reflexivity. }
  split; [exact Ef |]. split; [rewrite Ma, Mb; exact Em |].
  split; [rewrite Xa, Xb; exact Ex |].
  rewrite Ha, Hb, Ma, Mb, Xa, Xb, Ef, Em, Ex. reflexivity.
Qed.

Lemma prefreeze_paired g a b :
  fresh a -> fresh b -> modest a -> modest b -> alike a b ->
  factor g a <= factor g b ->
  let a0 := sizeIfInflexible g (prepare a) in
  let b0 := sizeIfInflexible g (prepare b) in
  matched g a0 b0 /\ paired g a0 b0.
Proof.
  intros Fa Fb Ma Mb Al Le. cbv zeta.
  destruct (alike_prepared a b Al) as (Ef & Em & Ex & Eh).
  destruct (prepare_fields a) as (Ga & Sa & _).
  destruct (prepare_fields b) as (Gb & Sb & _).
  destruct (prepare_frame a) as (_ & Fza & Ta).
  destruct (prepare_frame b) as (_ & Fzb & Tb).
  destruct Fa as [Fa Ta0]. destruct Fb as [Fb Tb0].
  rewrite Fa, Ta0 in *. rewrite Fb, Tb0 in *.
  destruct (prepare_prepared b) as (Vb & _ & Hmb & _).
  unfold valid in Vb.
  set (pa := prepare a) in *. set (pb := prepare b) in *.
  assert (Lf : factor g pa <= factor g pb).
  { unfold factor in *. destruct g; rewrite ?Ga, ?Gb, ?Sa, ?Sb; lia. }
  assert (G0 : 0 <= factor g pa).
  { unfold factor. destruct g; rewrite ?Ga, ?Sa; lia. }
  unfold matched, paired, sizeIfInflexible, factor in *.
  destruct g.
  - rewrite !Z.gtb_ltb, <- Ef, <- Eh.
    destruct (Z.eqb_spec (Grow pa) 0); destruct (Z.eqb_spec (Grow pb) 0);
      cbn [orb];
      destruct (Z.ltb_spec (hypoMainSize pa) (flexBaseSize pa));
      reduce_goal; rewrite ?Fza, ?Fzb, ?Ta, ?Tb, <- ?Eh;
      cbn [dir]; repeat split; intros; auto; try lia; try discriminate.
  - rewrite <- Ef, <- Eh.
    destruct (Z.eqb_spec (Shrink pa) 0); destruct (Z.eqb_spec (Shrink pb) 0);
      cbn [orb];
      destruct (Z.ltb_spec (flexBaseSize pa) (hypoMainSize pa));
      reduce_goal; rewrite ?Fza, ?Fzb, ?Ta, ?Tb, <- ?Eh;
      cbn [dir]; repeat split; intros; auto; try lia; try discriminate.
Qed.

Lemma loopEntry_ordered items c i j a b :
  Forall fresh items -> Forall modest items ->
  Z.of_nat (length items) < limit ->
  fastPath items c = false ->
  nth_error items i = Some a -> nth_error items j = Some b ->
  alike a b ->
  factor (growing items c) a <= factor (growing items c) b ->
  ordered (growing items c) (clampContainerSize c) i j (loopEntry items c).
Proof.
  intros F M N Fast Hi Hj Al Le.
  destruct (loopEntry_reserved items c F) as [Fl R].
  pose proof (loopEntry_freeSpace items c F M N Fast) as Sign.
  pose proof (sumHypo_exact items M N) as E.
  split; [exact Fl |]. split; [| split; [| split]].
  - unfold loopEntry. rewrite map_map. apply Forall_map.
    rewrite Forall_forall in *. intros it In.
    apply prefreeze_anchored; auto.
  - left. destruct (growing items c); lia.
  - right. rewrite R, <- E. unfold growing.
    destruct (Z.ltb_spec (sumHypoMainSizeOf (map prepare items))
                         (clampContainerSize c)); cbn [dir]; lia.
  - rewrite Forall_forall in F, M.
    pose proof (nth_error_In _ _ Hi) as Ia.
    pose proof (nth_error_In _ _ Hj) as Ib.
    destruct (prefreeze_paired (growing items c) a b) as [Mt P]; auto.
    exists (sizeIfInflexible (growing items c) (prepare a)),
      (sizeIfInflexible (growing items c) (prepare b)).
    unfold loopEntry. rewrite !nth_error_map, Hi, Hj. cbn [option_map].
    auto.
Qed.

(** ** Monotonicity in the factor *)

Lemma ordered_pair_widths items c i j a b lens :
  Forall fresh items -> Forall modest items ->
  c <= limit -> Z.of_nat (length items) < limit ->
  (i < j)%nat ->
  nth_error items i = Some a -> nth_error items j = Some b ->
  alike a b ->
  factor (growing items c) a <= factor (growing items c) b ->
  result (ResolveFlexLengths items c) = Returned lens ->
  dir (growing items c) (nth i lens 0) (nth j lens 0).
Proof.
  intros F M C N Lt Hi Hj Al Le. rewrite ResolveFlexLengths_unfold.
  destruct (fastPath items c) eqn:Fast.
  - cbn [result]. intros [= <-].
    destruct (alike_prepared a b Al) as (_ & _ & _ & Eh).
    rewrite (nth_error_nth (map hypoMainSize (map prepare items)) i 0
                           (x := hypoMainSize (prepare a)))
      by (now rewrite !nth_error_map, Hi).
    rewrite (nth_error_nth (map hypoMainSize (map prepare items)) j 0
                           (x := hypoMainSize (prepare b)))
      by (now rewrite !nth_error_map, Hj).
    rewrite Eh. apply dir_refl.
  - pose proof (clampContainerSize_range c C) as C'.
    set (g := growing items c) in *. set (c' := clampContainerSize c) in *.
    destruct (boundedLoop (ordered g c' i j) g c' C'
                          (fun its L' N' AF' P' =>
                             exactPass_ordered g c' i j its Lt L' N' C' AF' P')
                          (S (length items)) (loopEntry items c) [])
      as (R & AF & _ & _ & _ & _ & af & bf & Hia & Hjb & _ & PA & _).
    + now rewrite loopEntry_length.
    + right. now apply loopEntry_live.
    + eapply loopEntry_ordered; eauto.
    + pose proof (unfrozenCount_le_length (loopEntry items c)).
      rewrite loopEntry_length in *. lia.
    + set (final := itemsAfter _) in *. clearbody final.
      rewrite R. intros E.
      assert (E' : lens = map targetMainSize final) by congruence.
      rewrite E'. clear E E' R.
      rewrite (nth_error_nth _ i 0 (x := targetMainSize af))
        by (now rewrite nth_error_map, Hia).
      rewrite (nth_error_nth _ j 0 (x := targetMainSize bf))
        by (now rewrite nth_error_map, Hjb).
      apply PA. unfold allFrozen in AF. rewrite forallb_forall in AF.
      rewrite (AF af (nth_error_In _ _ Hia)).
      now rewrite (AF bf (nth_error_In _ _ Hjb)).
Qed.

(** C8 (as amended).  Within the limits (fresh items, every exported
    field and the container size at most 32768, fewer than 32768 items),
    take two items with the same basis, min and max (and the same size
    when the basis is auto), the second later in the list than the first.
    When the call grows and the later item has the larger (or the same)
    grow factor, its width is at least that of the earlier item; when the
    call does not grow and the later item has the larger (or the same)
    shrink factor, its width is at most that of the earlier item. *)
Theorem later_item_with_larger_factor items c i j a b lens :
  Forall fresh items -> Forall modest items ->
  c <= limit -> Z.of_nat (length items) < limit ->
  (i < j)%nat ->
  nth_error items i = Some a -> nth_error items j = Some b ->
  alike a b ->
  result (ResolveFlexLengths items c) = Returned lens ->
  (growing items c = true -> Grow a <= Grow b ->
   nth i lens 0 <= nth j lens 0) /\
  (growing items c = false -> Shrink a <= Shrink b ->
   nth j lens 0 <= nth i lens 0).
Proof.
  intros F M C N Lt Hi Hj Al R.
  pose proof (ordered_pair_widths items c i j a b lens F M C N Lt Hi Hj Al)
    as H.
  split; intros G Le; rewrite G in H; now apply H.
Qed.

Lemma later_item_with_larger_factor_witness :
  nth 0 [14; 24; 22] 0 <= nth 2 [14; 24; 22] 0.
Proof.
  refine (proj1 (later_item_with_larger_factor
                   [newItem 0 2 0 0 0 0; newItem 0 7 1 0 0 24;
                    newItem 0 3 0 0 0 0]
                   60 0 2 (newItem 0 2 0 0 0 0) (newItem 0 3 0 0 0 0)
                   [14; 24; 22] _ _ _ _ _ _ _ _ _) _ _).
  - repeat constructor.
  - repeat constructor; vm_compute; discriminate.
  - vm_compute; discriminate.
  - vm_compute; reflexivity.
  - auto.
  - reflexivity.
  - reflexivity.
  - unfold alike; cbn. repeat split; auto.
  - vm_compute; reflexivity.
  - vm_compute; reflexivity.
  - vm_compute; discriminate.
Defined.

(** ** Normalization, characterized *)

(** X2.  [Validate] always leaves an item that satisfies the invariants
    of the data model, and the items it leaves as they are are exactly
    those that satisfy them already. *)
Theorem Validate_changes_only_invalid_items (it : Item) :
  valid (Validate it) /\ (Validate it = it <-> valid it).
Proof.
  split; [apply Validate_valid |].
  split; [intros <-; apply Validate_valid | apply Validate_fixes_valid].
Qed.

(** ** An item seen alone *)

Lemma prepare_hypotheticalSize it :
  hypoMainSize (prepare it) = hypotheticalSize it.
Proof.
  destruct (prepare_prepared it) as (V & _ & _ & _ & H).
  destruct (prepare_fields it) as (_ & _ & Em & Ex & Ef).
  unfold valid in V. rewrite H, Ef. fold (baseSize it).
  unfold hypotheticalSize, clampZ. rewrite Em, Ex in *.
  set (mn := normMin it) in *. set (mx := normMax it) in *.
  set (b := baseSize it).
  rewrite !Z.gtb_ltb.
  destruct (Z.eqb_spec mx 0); cbn [negb andb];
    destruct (Z.ltb_spec b mn); try lia;
    destruct (Z.ltb_spec mx (Z.max b mn));
    destruct (Z.ltb_spec mx b); lia.
Qed.

Lemma inactive_prepared g it :
  inactive g it ->
  if g then Grow (prepare it) = 0 else Shrink (prepare it) = 0.
Proof.
  destruct (prepare_fields it) as (G & S & _). unfold inactive.
  destruct g; intros H; [rewrite G | rewrite S]; lia.
Qed.

Lemma prefreeze_inactive (g : bool) (p : Item) :
  (if g then Grow p = 0 else Shrink p = 0) ->
  frozen (sizeIfInflexible g p) = true /\
  targetMainSize (sizeIfInflexible g p) = hypoMainSize p.
Proof.
  unfold sizeIfInflexible. destruct g; intros H; rewrite H; cbn [Z.eqb orb];
    reduce_goal; auto.
Qed.

Lemma Forall2_nth_error_left {A B : Type} (R : A -> B -> Prop) l l' i a :
  Forall2 R l l' -> nth_error l i = Some a ->
  exists b, nth_error l' i = Some b /\ R a b.
Proof.
  intros H. revert i. induction H as [| x y l l' Hxy _ IH]; intros [| i];
    cbn; try discriminate.
  - intros [= ->]. eauto.
  - apply IH.
Qed.

Lemma inactive_width items c lens i it :
  result (ResolveFlexLengths items c) = Returned lens ->
  nth_error items i = Some it ->
  fastPath items c = true \/ inactive (growing items c) it ->
  nth_error lens i = Some (hypoMainSize (prepare it)).
Proof.
  rewrite ResolveFlexLengths_unfold. intros R Hi H.
  destruct (fastPath items c) eqn:Fast.
  - cbn [result] in R. injection R as <-.
    now rewrite !nth_error_map, Hi.
  - destruct H as [H | H]; [discriminate |].
    set (g := growing items c) in *.
    pose proof (distributionLoop_evolves g (clampContainerSize c)
                  (S (length items)) (loopEntry items c) []) as E.
    apply (distributionLoop_returned (fun _ => True)) in R; auto.
    destruct R as (_ & _ & ->).
    set (final := itemsAfter _) in *. clearbody final.
    destruct (prefreeze_inactive g (prepare it) (inactive_prepared g it H))
      as [F T].
    destruct (Forall2_nth_error_left evolves (loopEntry items c) final i
                (sizeIfInflexible g (prepare it)) E) as (x & Hx & Ev).
    { unfold loopEntry. fold g. now rewrite !nth_error_map, Hi. }
    destruct Ev as (_ & _ & _ & K). destruct (K F) as [_ K'].
    rewrite nth_error_map, Hx. cbn [option_map]. now rewrite K', T.
Qed.

(** X3.  An item without a factor for the direction of the call -- grow
    factor at most 0 when the call grows, shrink factor at most 0 when it
    does not -- gets its hypothetical main size, and so does every item
    when the fast path is taken.  This holds for all integer field values
    and whatever the call left in the items before. *)
Theorem inactive_item_gets_hypothetical_size items c lens i it :
  result (ResolveFlexLengths items c) = Returned lens ->
  nth_error items i = Some it ->
  fastPath items c = true \/ inactive (growing items c) it ->
  nth_error lens i = Some (hypoMainSize (prepare it)).
Proof. apply inactive_width. Qed.

Lemma inactive_item_gets_hypothetical_size_witness :
  nth_error [35; 45] 1 = Some (hypoMainSize (prepare (newItem 45 0 1 0 0 0))).
Proof.
  apply (inactive_item_gets_hypothetical_size
           [newItem 5 1 1 0 0 0; newItem 45 0 1 0 0 0] 80 [35; 45] 1).
  - vm_compute; reflexivity.
  - reflexivity.
  - right. vm_compute. discriminate.
Defined.

(** X4.  The width of an item that can neither grow nor shrink depends on
    that item alone: it is the basis (the normalized size when the basis
    is negative) clamped between the normalized minimum and maximum,
    whatever the container size and the other items are. *)
Theorem rigid_item_width items c lens i it :
  result (ResolveFlexLengths items c) = Returned lens ->
  nth_error items i = Some it ->
  Grow it <= 0 -> Shrink it <= 0 ->
  nth_error lens i = Some (hypotheticalSize it).
Proof.
  intros R Hi G S. rewrite <- prepare_hypotheticalSize.
  apply (inactive_width items c lens i it R Hi).
  right. unfold inactive. now destruct (growing items c).
Qed.

Lemma rigid_item_width_witness :
  nth_error [50; 12; 18] 1 = Some (hypotheticalSize (newItem (-1) 0 0 30 0 12)).
Proof.
  apply (rigid_item_width
           [newItem 0 1 1 0 0 0; newItem (-1) 0 0 30 0 12;
            newItem (-1) 0 0 7 18 0] 80 [50; 12; 18] 1).
  - vm_compute; reflexivity.
  - reflexivity.
  - vm_compute; discriminate.
  - vm_compute; discriminate.
Defined.

(** ** The empty list *)

(** X9.  For the empty list of items the function returns the empty list
    of widths for every container size: no pass of the loop runs and
    nothing panics. *)
Theorem ResolveFlexLengths_nil c :
  ResolveFlexLengths [] c = mkRun [] [] (Returned []).
Proof.
  unfold ResolveFlexLengths, resolveLoop. cbn [map sumHypoMainSizeOf fold_left].
  destruct (0 =? clampContainerSize c); reflexivity.
Qed.

(** ** Items handed to a second call *)

Lemma set_flexBaseSize_same it : set_flexBaseSize (flexBaseSize it) it = it.
Proof. now destruct it. Qed.

Lemma set_hypoMainSize_same it : set_hypoMainSize (hypoMainSize it) it = it.
Proof. now destruct it. Qed.

Lemma prepare_ready it : ready (prepare it).
Proof.
  destruct (prepare_prepared it) as (V & _ & _ & _ & H).
  split; [exact V |]. split; [| exact H].
  unfold prepare.
  destruct (determineHypoMainSize_frame (determineFlexBaseSize (Validate it)))
    as (E & Ef & _).
  destruct (determineFlexBaseSize_frame (Validate it)) as (E' & _ & _ & Ef').
  apply exported_fields in E. destruct E as (-> & _ & _ & -> & _).
  apply exported_fields in E'. destruct E' as (-> & _ & _ & -> & _).
  now rewrite Ef, Ef'.
Qed.

Lemma ready_prepare it : ready it -> prepare it = it.
Proof.
  intros (V & Ef & Eh). unfold prepare.
  rewrite (Validate_fixes_valid it V).
  assert (B : determineFlexBaseSize it = it).
  { unfold determineFlexBaseSize.
    destruct (Basis it >=? 0); rewrite <- Ef; apply set_flexBaseSize_same. }
  rewrite B.
  rewrite <- (set_hypoMainSize_same it) at 2.
  rewrite <- (set_hypoMainSize_same (determineHypoMainSize it)).
  rewrite determineHypoMainSize_hypo. cbv zeta. rewrite <- Eh.
  destruct (determineHypoMainSize_frame it) as (E & F1 & F2 & F3).
  apply exported_fields in E. destruct E as (E1 & E2 & E3 & E4 & E5 & E6).
  destruct (determineHypoMainSize it), it; cbn in *. congruence.
Qed.

Lemma ready_statics it it' :
  exported it' = exported it -> flexBaseSize it' = flexBaseSize it ->
  hypoMainSize it' = hypoMainSize it -> ready it -> ready it'.
Proof.
  intros E Ef Eh (V & F & H). apply exported_fields in E.
  destruct E as (E1 & E2 & E3 & E4 & E5 & E6).
  unfold ready, valid in *. rewrite Ef, Eh, E1, E2, E3, E4, E5, E6. auto.
Qed.

(** An item frozen on entry of the loop is, once the loop is over, an
    item a second call leaves alone. *)
Lemma frozen_item_again g p x :
  ready p -> evolves (sizeIfInflexible g p) x -> frozen x = true ->
  prepare x = x /\ sizeIfInflexible g x = x /\
  hypoMainSize x = hypoMainSize p.
Proof.
  intros R (E & Ef & Eh & K) F.
  destruct (sizeIfInflexible_frame g p) as (E0 & Ef0 & Eh0 & _).
  assert (Rx : ready x).
  { eapply ready_statics; [| | | exact R]; congruence. }
  split; [now apply ready_prepare |]. split; [| congruence].
  apply exported_fields in E. destruct E as (_ & EG & ES & _).
  apply exported_fields in E0. destruct E0 as (_ & EG0 & ES0 & _).
  assert (C : forall b : bool,
             (if g then (Grow x =? 0) || (flexBaseSize x >? hypoMainSize x)
              else (Shrink x =? 0) || (flexBaseSize x <? hypoMainSize x)) = b ->
             (if g then (Grow p =? 0) || (flexBaseSize p >? hypoMainSize p)
              else (Shrink p =? 0) || (flexBaseSize p <? hypoMainSize p)) = b).
  { intros b. rewrite Ef, Eh, EG, ES, Ef0, Eh0, EG0, ES0. auto. }
  unfold sizeIfInflexible in *.
  destruct g.
  - destruct ((Grow x =? 0) || (flexBaseSize x >? hypoMainSize x)) eqn:Cx;
      [| reflexivity].
    rewrite (C true eq_refl) in *. cbn [frozen targetMainSize set_frozen
      set_targetMainSize] in K. destruct (K eq_refl) as [_ T].
    cbn in Eh. rewrite Eh, <- T. destruct x; cbn in *. now subst.
  - destruct ((Shrink x =? 0) || (flexBaseSize x <? hypoMainSize x)) eqn:Cx;
      [| reflexivity].
    rewrite (C true eq_refl) in *. cbn [frozen targetMainSize set_frozen
      set_targetMainSize] in K. destruct (K eq_refl) as [_ T].
    cbn in Eh. rewrite Eh, <- T. destruct x; cbn in *. now subst.
Qed.

Lemma sumHypoMainSizeOf_hypo l l' :
  map hypoMainSize l = map hypoMainSize l' ->
  sumHypoMainSizeOf l = sumHypoMainSizeOf l'.
Proof.
  unfold sumHypoMainSizeOf. generalize 0.
  revert l'. induction l as [| a l IH]; intros [| b l'] z; cbn;
    try discriminate; [reflexivity |].
  intros [= -> E]. now apply IH.
Qed.

Lemma map_fixed {A : Type} (f : A -> A) l :
  Forall (fun a => f a = a) l -> map f l = l.
Proof. induction 1; cbn; congruence. Qed.

(** X5.  A call that returned can be repeated: handed the items as the
    first call left them and the same container size, the function
    returns the same widths, runs no pass of the loop and leaves the items
    as they are.  This holds for all integer field values. *)
Theorem second_call_returns_the_same items c lens :
  result (ResolveFlexLengths items c) = Returned lens ->
  ResolveFlexLengths (itemsAfter (ResolveFlexLengths items c)) c =
  mkRun (itemsAfter (ResolveFlexLengths items c)) [] (Returned lens).
Proof.
  assert (Rd : Forall ready (map prepare items))
    by (apply Forall_map, Forall_forall; intros; apply prepare_ready).
  remember (ResolveFlexLengths items c) as first eqn:E1.
  rewrite ResolveFlexLengths_unfold in E1. unfold fastPath in E1.
  unfold loopEntry, growing in E1.
  set (c' := clampContainerSize c) in *. set (P := map prepare items) in *.
  destruct (sumHypoMainSizeOf P =? c') eqn:Fast; subst first;
    cbn [result itemsAfter].
  - intros [= <-]. unfold ResolveFlexLengths. fold c'.
    assert (E : map prepare P = P).
    { apply map_fixed. eapply Forall_impl; [| exact Rd].
      intros; now apply ready_prepare. }
    rewrite E, Fast. reflexivity.
  - set (g := sumHypoMainSizeOf P <? c') in *.
    intros R.
    pose proof (distributionLoop_evolves g c' (S (length items))
                  (map (sizeIfInflexible g) P) []) as Ev.
    apply (distributionLoop_returned (fun _ => True)) in R; auto.
    destruct R as (_ & AF & ->).
    set (final := itemsAfter _) in *. clearbody final.
    assert (K : Forall (fun x => prepare x = x /\ sizeIfInflexible g x = x)
                       final /\
                map hypoMainSize final = map hypoMainSize P).
    { unfold allFrozen in AF. rewrite forallb_forall in AF.
      clear Fast. clearbody g. clearbody P. revert final Ev AF.
      induction Rd as [| p P' Hp _ IH]; intros final Ev AF;
        inversion Ev as [| a x l l' Hax Hl]; subst; [split; constructor |].
      destruct (frozen_item_again g p x Hp Hax) as (K1 & K2 & K3);
        [apply AF; now left |].
      destruct (IH l' Hl) as [I1 I2]; [intros y In; apply AF; now right |].
      split; [constructor; auto | cbn; congruence]. }
    destruct K as [K H].
    assert (Len : length final = length items).
    { apply Forall2_length in Ev. rewrite <- Ev. unfold P.
      now rewrite !length_map. }
    unfold ResolveFlexLengths. fold c'.
    assert (E : map prepare final = final).
    { apply map_fixed. eapply Forall_impl; [| exact K]. now intros x [? _]. }
    rewrite E, (sumHypoMainSizeOf_hypo final P H), Fast.
    unfold resolveLoop. fold g.
    assert (E2 : map (sizeIfInflexible g) final = final).
    { apply map_fixed. eapply Forall_impl; [| exact K]. now intros x [_ ?]. }
    rewrite E2. cbn [distributionLoop]. now rewrite AF.
Qed.

Lemma second_call_returns_the_same_witness :
  let first := ResolveFlexLengths
                 [newItem 0 1 1 0 0 0; newItem 0 2 1 0 0 20] 60 in
  ResolveFlexLengths (itemsAfter first) 60 =
  mkRun (itemsAfter first) [] (Returned [40; 20]).
Proof.
  cbv zeta.
  apply (second_call_returns_the_same
           [newItem 0 1 1 0 0 0; newItem 0 2 1 0 0 20] 60 [40; 20]).
  vm_compute; reflexivity.
Defined.

(** ** The side of the container the widths stay on *)

Lemma strictly_dir g x y : strictly g x y -> dir g x y.
Proof. destruct g; cbn; lia. Qed.

Lemma dir_strictly g x y z : dir g x y -> strictly g y z -> strictly g x z.
Proof. destruct g; cbn; lia. Qed.

Lemma freeSpace_strict g c items :
  Forall (flexible g) items ->
  strictly g (zsum (map reserved items)) c ->
  exactFreeSpace c items <> 0.
Proof.
  intros Fl S. unfold exactFreeSpace.
  assert (D : dir g (zsum (map used items)) (zsum (map reserved items))).
  { apply zsum_map_dir. eapply Forall_impl; [| exact Fl].
    intros it H. pose proof (flexible_used g it H). now destruct g. }
  destruct g; cbn in *; lia.
Qed.

Lemma settle_target total it :
  targetMainSize (settle total it) = targetMainSize (clamped it).
Proof. unfold settle. destruct (freezesNow total it); reduce_goal; reflexivity. Qed.

Lemma allFrozen_reserved items :
  allFrozen items = true -> map reserved items = map targetMainSize items.
Proof.
  unfold allFrozen. rewrite forallb_forall. intros H.
  apply map_ext_in. intros it In. unfold reserved. now rewrite (H it In).
Qed.

(** The accounts of one pass: the targets add up to the container size
    plus the total violation, and what the items are sure to take moves
    away from the container size or stays short of it. *)
Lemma exactPass_account g c items :
  Forall (live g) items -> Forall (flexible g) items ->
  Forall (anchored g) items ->
  Z.of_nat (length items) < limit -> 0 <= c <= limit ->
  allFrozen items = false ->
  strictly g (zsum (map reserved items)) c ->
  Forall (steady g) (fst (exactPass g c items)) /\
  Forall (flexible g) (fst (exactPass g c items)) /\
  zsum (map targetMainSize (fst (exactPass g c items)))
  = c + zsum (snd (exactPass g c items)) /\
  (zsum (snd (exactPass g c items)) = 0 ->
   allFrozen (fst (exactPass g c items)) = true) /\
  (along g (zsum (snd (exactPass g c items))) ->
   dir g (zsum (map reserved (fst (exactPass g c items))))
       (zsum (map reserved items))) /\
  (zsum (snd (exactPass g c items)) <> 0 ->
   ~ along g (zsum (snd (exactPass g c items))) ->
   strictly g (zsum (map reserved (fst (exactPass g c items)))) c).
Proof.
  intros L Fl A N C AF Str.
  pose proof (strictly_dir _ _ _ Str) as I.
  pose proof (freeSpace_sign g c items Fl I) as D.
  pose proof (freeSpace_strict g c items Fl Str) as R.
  destruct (freeSpace_exact g c items L N C) as [_ B].
  assert (B' : - (limit * limit) <= exactFreeSpace c items <= limit * limit)
    by (unfold limit in *; lia).
  destruct (exactPass_steady g c items L Fl A (or_introl R) D B') as [St Fl'].
  split; [exact St |]. split; [exact Fl' |].
  revert St. rewrite exactPass_settle. unfold exactPass; cbn [snd].
  set (r := exactFreeSpace c items) in *.
  set (items1 := exactDistribute g r items).
  set (total := zsum (map violationOf items1)).
  intros St.
  destruct (exactDistribute_shared g r items L) as [[R0 _] | [_ S]];
    [contradiction |]. fold items1 in S.
  assert (L1 : Forall (live g) items1)
    by (now apply exactDistribute_live).
  assert (P1 : Forall (fun it1 => live g it1 /\ flexible g it1 /\
                                   anchored g it1) items1).
  { eapply Forall_through_Forall2;
      [| exact (Forall_and L (Forall_and Fl A)) | exact S].
    intros it it1 (Li & Fi & Ai) Sh.
    split; [eapply shared_live; eauto |].
    split; [eapply shared_flexible; eauto | eapply shared_anchored; eauto]. }
  assert (R1 : map reserved items1 = map reserved items).
  { symmetry. eapply Forall2_map_eq; [| exact S].
    intros a b Sh. symmetry. eapply shared_reserved; eauto. }
  assert (T1 : zsum (map targetMainSize (map clamped items1)) = c + total).
  { rewrite map_map.
    rewrite (map_ext_in (fun it => targetMainSize (clamped it))
                        (fun it => targetMainSize it + violationOf it)).
    - rewrite zsum_map_add. fold total. unfold items1, exactDistribute.
      destruct (Z.eqb_spec r 0); [contradiction |].
      rewrite (exactShares_total g) by auto.
      unfold r, exactFreeSpace. lia.
    - intros it In. rewrite Forall_forall in L1.
      now apply (clamped_violation g), L1. }
  split.
  { rewrite <- T1, !map_map. f_equal. apply map_ext. intros it.
    apply settle_target. }
  split; [intros ->; apply allFrozen_map_settle_zero |].
  rewrite Forall_map in St.
  assert (K : total <> 0 ->
              Forall (fun it1 =>
                        (along g total ->
                         dir g (reserved (settle total it1)) (reserved it1)) /\
                        (~ along g total ->
                         dir g (reserved (settle total it1))
                             (targetMainSize (clamped it1)))) items1).
  { intros T. rewrite Forall_forall in *. intros it1 In.
    destruct (P1 it1 In) as (Li & Fi & Ai).
    apply settle_reserved; auto. }
  rewrite map_map. split.
  - intros Al. rewrite <- R1.
    apply zsum_map_dir. eapply Forall_impl; [| apply K].
    + intros it1 [H _]. now apply H.
    + unfold along in Al. destruct g; lia.
  - intros T Al. eapply dir_strictly.
    + apply (zsum_map_dir g _ (fun it1 => targetMainSize (clamped it1))).
      eapply Forall_impl; [| exact (K T)]. intros it1 [_ H]. now apply H.
    + rewrite <- map_map, T1. unfold along in Al.
      destruct g; cbn [strictly]; lia.
Qed.

Lemma steady_anchored g items :
  Forall (steady g) items -> Forall (anchored g) items.
Proof. intros H. eapply Forall_impl; [| exact H]. intros it S _. exact S. Qed.

Lemma exactPass_balanced g c items :
  Forall (live g) items -> Z.of_nat (length items) < limit ->
  0 <= c <= limit -> allFrozen items = false ->
  balanced g c items -> balanced g c (fst (exactPass g c items)).
Proof.
  intros L N C AF (Fl & A & [[AF' _] | Str]); [congruence |].
  destruct (exactPass_account g c items L Fl A N C AF Str)
    as (St & Fl' & T & Z0 & Al & Ag).
  split; [exact Fl' |]. split; [now apply steady_anchored |].
  set (total := zsum (snd (exactPass g c items))) in *.
  destruct (Z.eq_dec total 0) as [E | E].
  - left. split; [auto |]. rewrite T, E, Z.add_0_r. apply dir_refl.
  - right.
    assert (D : along g total \/ ~ along g total)
      by (unfold along; destruct g; lia).
    destruct D as [D | D]; [| auto].
    eapply dir_strictly; [apply Al |]; assumption.
Qed.

Lemma loopEntry_anchored items c :
  Forall fresh items -> Forall modest items ->
  Forall (anchored (growing items c)) (loopEntry items c).
Proof.
  intros F M. unfold loopEntry. rewrite map_map. apply Forall_map.
  rewrite Forall_forall in *. intros it In. apply prefreeze_anchored; auto.
Qed.

Lemma loopEntry_strictly items c :
  Forall fresh items -> Forall modest items ->
  Z.of_nat (length items) < limit ->
  fastPath items c = false ->
  strictly (growing items c) (zsum (map reserved (loopEntry items c)))
           (clampContainerSize c).
Proof.
  intros F M N Fast.
  destruct (loopEntry_reserved items c F) as [_ R].
  rewrite R, <- sumHypo_exact by assumption.
  unfold fastPath in Fast. unfold growing.
  destruct (Z.eqb_spec (sumHypoMainSizeOf (map prepare items))
                       (clampContainerSize c)); [discriminate |].
  destruct (Z.ltb_spec (sumHypoMainSizeOf (map prepare items))
                       (clampContainerSize c)); cbn [strictly]; lia.
Qed.

Lemma loopEntry_balanced items c :
  Forall fresh items -> Forall modest items ->
  Z.of_nat (length items) < limit ->
  fastPath items c = false ->
  balanced (growing items c) (clampContainerSize c) (loopEntry items c).
Proof.
  intros F M N Fast.
  split; [apply (loopEntry_reserved items c F) |].
  split; [now apply loopEntry_anchored |].
  right. now apply loopEntry_strictly.
Qed.

(** The loop within the limits, with the invariant at its end. *)
Lemma balanced_run items c :
  Forall fresh items -> Forall modest items ->
  c <= limit -> Z.of_nat (length items) < limit ->
  fastPath items c = false ->
  exists final,
    ResolveFlexLengths items c
    = mkRun final (violationsLog (ResolveFlexLengths items c))
            (Returned (map targetMainSize final)) /\
    allFrozen final = true /\
    balanced (growing items c) (clampContainerSize c) final /\
    Forall2 evolves (loopEntry items c) final.
Proof.
  intros F M C N Fast. rewrite ResolveFlexLengths_unfold, Fast.
  pose proof (clampContainerSize_range c C) as C'.
  set (g := growing items c) in *. set (c' := clampContainerSize c) in *.
  destruct (boundedLoop (balanced g c') g c' C'
                        (fun its L' N' AF' P' =>
                           exactPass_balanced g c' its L' N' C' AF' P')
                        (S (length items)) (loopEntry items c) [])
    as (R & AF & B).
  - now rewrite loopEntry_length.
  - right. now apply loopEntry_live.
  - now apply loopEntry_balanced.
  - pose proof (unfrozenCount_le_length (loopEntry items c)).
    rewrite loopEntry_length in *. lia.
  - pose proof (distributionLoop_evolves g c' (S (length items))
                  (loopEntry items c) []) as Ev.
    fold g in R, AF, B, Ev.
    destruct (distributionLoop (S (length items)) g c' (loopEntry items c) [])
      as [final log res]. cbn [itemsAfter result violationsLog] in *.
    exists final. subst res. auto.
Qed.

(** X6.  Within the limits (fresh items, every exported field and the
    container size at most 32768, fewer than 32768 items) the call
    returns widths that stay on the side of the container size the
    hypothetical sizes were on: their sum is at most the container size
    when the call grows and at least the container size when it does
    not. *)
Theorem widths_stay_on_their_side_of_the_container items c :
  Forall fresh items -> Forall modest items ->
  c <= limit -> Z.of_nat (length items) < limit ->
  exists lens,
    result (ResolveFlexLengths items c) = Returned lens /\
    (if growing items c then zsum lens <= clampContainerSize c
     else clampContainerSize c <= zsum lens).
Proof.
  intros F M C N. destruct (fastPath items c) eqn:Fast.
  - rewrite ResolveFlexLengths_unfold, Fast. cbn [result].
    eexists. split; [reflexivity |].
    rewrite <- sumHypo_exact by assumption.
    unfold fastPath in Fast. apply Z.eqb_eq in Fast. unfold growing.
    rewrite Fast, Z.ltb_irrefl. lia.
  - destruct (balanced_run items c F M C N Fast)
      as (final & -> & AF & (_ & _ & B) & _). cbn [result].
    eexists. split; [reflexivity |].
    assert (D : dir (growing items c) (zsum (map targetMainSize final))
                    (clampContainerSize c)).
    { destruct B as [[_ B] | B]; [exact B |].
      rewrite <- (allFrozen_reserved final AF). now apply strictly_dir. }
    destruct (growing items c); exact D.
Qed.

Lemma widths_stay_on_their_side_of_the_container_witness :
  exists lens,
    result (ResolveFlexLengths
              [newItem 0 1 1 0 0 10; newItem 0 1 1 0 0 15] 60)
    = Returned lens /\ zsum lens <= clampContainerSize 60.
Proof.
  apply (widths_stay_on_their_side_of_the_container
           [newItem 0 1 1 0 0 10; newItem 0 1 1 0 0 15] 60).
  - repeat constructor.
  - repeat constructor; vm_compute; discriminate.
  - vm_compute; discriminate.
  - vm_compute; reflexivity.
Defined.

(** X7.  Within the same limits no item ends on the wrong side of its
    hypothetical main size: every width is at least that size when the
    call grows and at most that size when it does not. *)
Theorem widths_move_in_the_direction_of_the_call items c lens :
  Forall fresh items -> Forall modest items ->
  c <= limit -> Z.of_nat (length items) < limit ->
  result (ResolveFlexLengths items c) = Returned lens ->
  Forall2 (fun it w => if growing items c
                       then hypoMainSize (prepare it) <= w
                       else w <= hypoMainSize (prepare it)) items lens.
Proof.
  intros F M C N. destruct (fastPath items c) eqn:Fast.
  - rewrite ResolveFlexLengths_unfold, Fast. cbn [result]. intros [= <-].
    rewrite map_map. set (g := growing items c). clearbody g. clear.
    induction items; constructor; auto. destruct g; lia.
  - destruct (balanced_run items c F M C N Fast)
      as (final & -> & AF & (_ & A & _) & Ev). cbn [result]. intros [= <-].
    unfold loopEntry in Ev. set (g := growing items c) in *. clearbody g.
    unfold allFrozen in AF. rewrite forallb_forall in AF.
    clear - Ev A AF. revert final Ev A AF.
    induction items as [| it items IH]; intros final Ev A AF;
      inversion Ev as [| a x l l' Hax Hl]; subst; constructor.
    + inversion A as [| ? ? Ax _]; subst.
      destruct (Ax (AF x (or_introl eq_refl))) as (_ & _ & D).
      destruct Hax as (_ & _ & Eh & _).
      destruct (sizeIfInflexible_frame g (prepare it)) as (_ & _ & Eh0 & _).
      rewrite Eh, Eh0 in D. destruct g; exact D.
    + apply IH; auto.
      * now inversion A.
      * intros y In. apply AF. now right.
Qed.

Lemma widths_move_in_the_direction_of_the_call_witness :
  let items := [newItem 30 1 1 0 0 0; newItem 40 1 2 0 0 0] in
  Forall2 (fun it w => if growing items 50
                       then hypoMainSize (prepare it) <= w
                       else w <= hypoMainSize (prepare it)) items [25; 25].
Proof.
  cbv zeta.
  apply (widths_move_in_the_direction_of_the_call
           [newItem 30 1 1 0 0 0; newItem 40 1 2 0 0 0] 50 [25; 25]).
  - repeat constructor.
  - repeat constructor; vm_compute; discriminate.
  - vm_compute; discriminate.
  - vm_compute; reflexivity.
  - vm_compute; reflexivity.
Defined.

(** ** Growing without a maximum *)

Lemma violationOf_without_Max it : Max it = 0 -> 0 <= violationOf it.
Proof.
  unfold violationOf. intros ->. cbn [Z.eqb negb andb].
  destruct (frozen it); [lia |].
  destruct (Z.ltb_spec (targetMainSize it) (Min it)); lia.
Qed.

Lemma zsum_map_nonneg {A : Type} (f : A -> Z) l :
  Forall (fun a => 0 <= f a) l -> 0 <= zsum (map f l).
Proof. induction 1; cbn [map]; rewrite ?zsum_cons; cbn; lia. Qed.

Lemma evolves_Max items items' :
  Forall2 evolves items items' ->
  Forall (fun it => Max it = 0) items -> Forall (fun it => Max it = 0) items'.
Proof.
  intros E H. eapply Forall_through_Forall2; [| exact H | exact E].
  intros a b Ha (Ex & _). apply exported_fields in Ex.
  destruct Ex as (_ & _ & _ & _ & _ & ->). exact Ha.
Qed.

Lemma exactDistribute_Max g r items :
  Forall (live g) items ->
  Forall (fun it => Max it = 0) items ->
  Forall (fun it => Max it = 0) (exactDistribute g r items).
Proof.
  intros L H. destruct (exactDistribute_shared g r items L) as [[_ ->] | [_ S]];
    [exact H |].
  eapply Forall_through_Forall2; [| exact H | exact S].
  intros a b Ha Sh. destruct (shared_statics r a b Sh) as (Ex & _).
  apply exported_fields in Ex. destruct Ex as (_ & _ & _ & _ & _ & ->).
  exact Ha.
Qed.

Lemma exactPass_filling c items :
  Forall (live true) items -> Z.of_nat (length items) < limit ->
  0 <= c <= limit -> allFrozen items = false ->
  filling c items -> filling c (fst (exactPass true c items)).
Proof.
  intros L N C AF (Fl & A & Mx & [[AF' _] | [_ Str]]); [congruence |].
  destruct (exactPass_account true c items L Fl A N C AF Str)
    as (St & Fl' & T & Z0 & Al & _).
  assert (Ev : Forall2 evolves items (fst (exactPass true c items))).
  { pose proof (pass_evolves true c items) as E.
    now rewrite pass_exact in E by assumption. }
  split; [exact Fl' |]. split; [now apply steady_anchored |].
  split; [now apply (evolves_Max items) |].
  assert (Pos : 0 <= zsum (snd (exactPass true c items))).
  { unfold exactPass; cbn [snd]. apply zsum_map_nonneg.
    eapply Forall_impl; [| apply exactDistribute_Max; eassumption].
    intros it. apply violationOf_without_Max. }
  set (total := zsum (snd (exactPass true c items))) in *.
  destruct (Z.eq_dec total 0) as [E | E].
  - left. split; [auto |]. rewrite T, E. lia.
  - right. assert (Al' : along true total) by (unfold along; lia).
    specialize (Al Al'). cbn [dir] in Al. cbn [strictly] in Str.
    split; [| lia].
    destruct (allFrozen (fst (exactPass true c items))) eqn:AF1;
      [| reflexivity].
    rewrite (allFrozen_reserved _ AF1), T in Al. lia.
Qed.

Lemma prepare_without_Max it :
  Max it <= 0 ->
  Max (prepare it) = 0 /\ flexBaseSize (prepare it) <= hypoMainSize (prepare it).
Proof.
  intros H. destruct (prepare_fields it) as (_ & _ & _ & Ex & _).
  destruct (prepare_prepared it) as (_ & _ & _ & _ & Eh).
  assert (E : Max (prepare it) = 0).
  { rewrite Ex. unfold normMax. now replace (Z.max 0 (Max it)) with 0 by lia. }
  split; [exact E |]. rewrite Eh, E. cbn [Z.eqb negb andb]. lia.
Qed.

Lemma prefreeze_growable it :
  fresh it -> Max it <= 0 -> 0 < Grow it ->
  frozen (sizeIfInflexible true (prepare it)) = false.
Proof.
  intros [F _] Mx G. destruct (prepare_without_Max it Mx) as [_ H].
  destruct (prepare_fields it) as (Eg & _).
  destruct (prepare_frame it) as (_ & Fz & _).
  unfold sizeIfInflexible.
  destruct (Z.eqb_spec (Grow (prepare it)) 0) as [E | _]; [lia |].
  rewrite Z.gtb_ltb.
  destruct (Z.ltb_spec (hypoMainSize (prepare it)) (flexBaseSize (prepare it)));
    [lia |].
  cbn [orb]. congruence.
Qed.

Lemma loopEntry_filling items c :
  Forall fresh items -> Forall modest items ->
  Z.of_nat (length items) < limit ->
  Forall (fun it => Max it <= 0) items ->
  Exists (fun it => 0 < Grow it) items ->
  fastPath items c = false -> growing items c = true ->
  filling (clampContainerSize c) (loopEntry items c).
Proof.
  intros F M N Mx G Fast Gr.
  pose proof (loopEntry_reserved items c F) as [Fl _].
  pose proof (loopEntry_anchored items c F M) as A.
  pose proof (loopEntry_strictly items c F M N Fast) as S.
  rewrite Gr in *. split; [exact Fl |]. split; [exact A |].
  split; [| right; split; [| exact S]].
  - unfold loopEntry. rewrite Gr, map_map. apply Forall_map.
    eapply Forall_impl; [| exact Mx]. intros it H. cbn beta.
    destruct (sizeIfInflexible_frame true (prepare it)) as (Ex & _).
    apply exported_fields in Ex. destruct Ex as (_ & _ & _ & _ & _ & ->).
    now apply prepare_without_Max.
  - apply Exists_exists in G. destruct G as (it & In & G).
    rewrite Forall_forall in F, Mx.
    pose proof (prefreeze_growable it (F it In) (Mx it In) G) as Fz.
    destruct (allFrozen (loopEntry items c)) eqn:AF; [| reflexivity].
    unfold allFrozen in AF. rewrite forallb_forall in AF.
    rewrite <- Fz. symmetry. apply AF. unfold loopEntry.
    rewrite Gr, map_map.
    now apply (in_map (fun x => sizeIfInflexible true (prepare x))).
Qed.

(** X8.  Within the limits, when no item has a maximum, at least one
    item has a positive grow factor and the hypothetical sizes fit into
    the container, the call returns widths that add up to the container
    size exactly: growing items without a maximum always fill the
    container. *)
Theorem growing_without_maximum_fills_the_container items c :
  Forall fresh items -> Forall modest items ->
  c <= limit -> Z.of_nat (length items) < limit ->
  Forall (fun it => Max it <= 0) items ->
  Exists (fun it => 0 < Grow it) items ->
  zsum (map hypotheticalSize items) <= clampContainerSize c ->
  exists lens,
    result (ResolveFlexLengths items c) = Returned lens /\
    zsum lens = clampContainerSize c.
Proof.
  intros F M C N Mx G Fit.
  assert (E : sumHypoMainSizeOf (map prepare items)
              = zsum (map hypotheticalSize items)).
  { rewrite sumHypo_exact, map_map by assumption. f_equal.
    apply map_ext. intros it. apply prepare_hypotheticalSize. }
  rewrite ResolveFlexLengths_unfold.
  destruct (fastPath items c) eqn:Fast.
  - cbn [result]. eexists. split; [reflexivity |].
    rewrite <- sumHypo_exact by assumption.
    unfold fastPath in Fast. now apply Z.eqb_eq in Fast.
  - assert (Gr : growing items c = true).
    { unfold fastPath in Fast. unfold growing.
      apply Z.eqb_neq in Fast. apply Z.ltb_lt. lia. }
    pose proof (clampContainerSize_range c C) as C'.
    pose proof (loopEntry_live items c F M) as L.
    pose proof (loopEntry_filling items c F M N Mx G Fast Gr) as Fi.
    rewrite Gr in *. set (c' := clampContainerSize c) in *.
    destruct (boundedLoop (filling c') true c' C'
                          (fun its L' N' AF' P' =>
                             exactPass_filling c' its L' N' C' AF' P')
                          (S (length items)) (loopEntry items c) [])
      as (R & AF & (_ & _ & _ & B)).
    + now rewrite loopEntry_length.
    + right. exact L.
    + exact Fi.
    + pose proof (unfrozenCount_le_length (loopEntry items c)).
      rewrite loopEntry_length in *. lia.
    + eexists. split; [exact R |].
      destruct B as [[_ B] | [B _]]; [exact B | congruence].
Qed.

Lemma growing_without_maximum_fills_the_container_witness :
  exists lens,
    result (ResolveFlexLengths
              [newItem (-1) 0 0 7 0 0; newItem 0 1 1 0 30 0;
               newItem 0 2 1 0 0 0] 60)
    = Returned lens /\ zsum lens = clampContainerSize 60.
Proof.
  apply (growing_without_maximum_fills_the_container
           [newItem (-1) 0 0 7 0 0; newItem 0 1 1 0 30 0;
            newItem 0 2 1 0 0 0] 60).
  - repeat constructor.
  - repeat constructor; vm_compute; discriminate.
  - vm_compute; discriminate.
  - vm_compute; reflexivity.
  - repeat constructor; vm_compute; discriminate.
  - apply Exists_cons_tl, Exists_cons_hd. reflexivity.
  - vm_compute; discriminate.
Defined.

(** ** Writes into a table of cells *)

Lemma store_Some {T : Type} (s : list T) i v :
  (i < length s)%nat ->
  exists s', flexwriter.store s i v = Some s' /\ length s' = length s /\
             forall k d, nth k s' d = if (k =? i)%nat then v else nth k s d.
Proof.
  revert i. induction s as [| x s IH]; intros [| i] H; cbn in H; try lia.
  - exists (v :: s). repeat split. intros [| k] d; reflexivity.
  - destruct (IH i) as (s' & E & L & N); [lia |].
    exists (x :: s'). cbn. rewrite E. repeat split; [cbn; lia |].
    intros [| k] d; [reflexivity | apply N].
Qed.

Lemma storeCell_Some {T : Type} (zero : T) m n (out : list (list T)) j i v :
  shape m n out -> (j < m)%nat -> (i < n)%nat ->
  exists out', flexwriter.storeCell out j i v = Some out' /\ shape m n out' /\
               forall r k, cell zero out' r k =
                           if ((r =? j) && (k =? i))%nat then v
                           else cell zero out r k.
Proof.
  intros [Lm Ln] Hj Hi. unfold flexwriter.storeCell.
  destruct (nth_error out j) as [row |] eqn:Er;
    [| apply nth_error_None in Er; lia].
  assert (Lr : length row = n).
  { rewrite Forall_forall in Ln. eapply Ln, nth_error_In, Er. }
  destruct (store_Some row i v) as (row' & E & L & N); [lia |].
  rewrite E.
  destruct (store_Some out j row') as (out' & E' & L' & N'); [lia |].
  exists out'. split; [exact E' |]. split.
  - split; [lia |]. apply Forall_forall. intros x In.
    destruct (In_nth _ _ [] In) as (r & Hr & <-). rewrite N'.
    destruct (r =? j)%nat; [lia |].
    rewrite Forall_forall in Ln. apply Ln, nth_In. lia.
  - intros r k. unfold cell. rewrite N'.
    destruct (Nat.eqb_spec r j) as [-> | _]; cbn [andb]; [| reflexivity].
    rewrite N. rewrite (nth_error_nth out j [] Er). reflexivity.
Qed.

Lemma fillColumn_Some {T : Type} (zero : T) m n i (col : list T) :
  (i < n)%nat ->
  forall j (out : list (list T)),
    shape m n out -> (j + length col <= m)%nat ->
    exists out', flexwriter.fillColumn out i j col = Some out' /\
                 shape m n out' /\
                 forall r k, cell zero out' r k =
                             if ((k =? i) && (j <=? r)
                                 && (r <? j + length col))%nat
                             then nth (r - j) col zero
                             else cell zero out r k.
Proof.
  intros Hi. induction col as [| line col IH]; intros j out Sh Hj;
    cbn [flexwriter.fillColumn length] in *.
  - exists out. repeat split; [apply Sh | apply Sh |]. intros r k.
    destruct (k =? i)%nat; cbn [andb]; [| reflexivity].
    destruct (Nat.leb_spec j r); cbn [andb]; [| reflexivity].
    destruct (Nat.ltb_spec r (j + 0)); [lia | reflexivity].
  - destruct (storeCell_Some zero m n out j i line Sh) as (out1 & E & Sh1 & C1);
      [lia | lia |].
    rewrite E.
    destruct (IH (S j) out1 Sh1) as (out' & E' & Sh' & C'); [lia |].
    exists out'. split; [exact E' |]. split; [exact Sh' |].
    intros r k. rewrite C', C1.
    destruct (Nat.eqb_spec k i) as [-> | _]; cbn [andb];
      [| now rewrite andb_false_r].
    rewrite andb_true_r.
    destruct (Nat.leb_spec (S j) r), (Nat.leb_spec j r),
      (Nat.ltb_spec r (S j + length col)),
      (Nat.ltb_spec r (j + S (length col))),
      (Nat.eqb_spec r j); cbn [andb]; try lia; try reflexivity.
    + replace (r - j)%nat with (S (r - S j)) by lia. reflexivity.
    + subst r. now rewrite Nat.sub_diag.
Qed.

Lemma fillColumns_Some {T : Type} (zero : T) m n (data : list (list T)) :
  Forall (fun col => (length col <= m)%nat) data ->
  forall i (out : list (list T)),
    shape m n out -> (i + length data <= n)%nat ->
    exists out', flexwriter.fillColumns out i data = Some out' /\
                 shape m n out' /\
                 forall r k, cell zero out' r k =
                             if ((i <=? k) && (k <? i + length data)
                                 && (r <? length (nth (k - i) data [])))%nat
                             then cell zero data (k - i) r
                             else cell zero out r k.
Proof.
  induction 1 as [| col data Hc _ IH]; intros i out Sh Hi;
    cbn [flexwriter.fillColumns length] in *.
  - exists out. repeat split; [apply Sh | apply Sh |]. intros r k.
    destruct (Nat.leb_spec i k); cbn [andb]; [| reflexivity].
    destruct (Nat.ltb_spec k (i + 0)); [lia | reflexivity].
  - destruct (fillColumn_Some zero m n i col ltac:(lia) 0%nat out Sh)
      as (out1 & E & Sh1 & C1); [lia |].
    rewrite E.
    destruct (IH (S i) out1 Sh1) as (out' & E' & Sh' & C'); [lia |].
    exists out'. split; [exact E' |]. split; [exact Sh' |].
    intros r k. rewrite C', C1. unfold cell.
    destruct (Nat.leb_spec (S i) k), (Nat.leb_spec i k),
      (Nat.ltb_spec k (S i + length data)),
      (Nat.ltb_spec k (i + S (length data))),
      (Nat.eqb_spec k i); cbn [andb]; try lia; try reflexivity.
    + replace (k - i)%nat with (S (k - S i)) by lia. reflexivity.
    + subst k. rewrite Nat.sub_diag. cbn [nth].
      rewrite Nat.sub_0_r. cbn [Nat.leb Nat.add].
      destruct (Nat.ltb_spec r (length col)); reflexivity.
Qed.

Lemma maxLinesOf_list_max {T : Type} (data : list (list T)) :
  flexwriter.maxLinesOf data = list_max (map (@length T) data).
Proof.
  unfold flexwriter.maxLinesOf.
  assert (G : forall (l : list (list T)) a,
             fold_left (fun maxLines col =>
                          if (maxLines <? length col)%nat
                          then length col else maxLines) l a
             = Nat.max a (list_max (map (@length T) l))).
  { induction l as [| col l IH]; intros a; cbn [fold_left map list_max fold_right].
    - lia.
    - rewrite IH. fold (list_max (map (@length T) l)).
      destruct (Nat.ltb_spec a (length col)); lia. }
  rewrite G. lia.
Qed.

Lemma cell_repeat {T : Type} (zero : T) m n r k :
  cell zero (repeat (repeat zero n) m) r k = zero.
Proof.
  unfold cell.
  destruct (Nat.lt_ge_cases r m) as [H | H].
  - rewrite nth_repeat_lt by assumption.
    destruct (Nat.lt_ge_cases k n);
      [now rewrite nth_repeat_lt | rewrite nth_overflow; [reflexivity |]].
    now rewrite repeat_length.
  - rewrite (nth_overflow _ []) by now rewrite repeat_length.
    now destruct k.
Qed.

Lemma cell_overflow {T : Type} (zero : T) (data : list (list T)) i r :
  (length (nth i data []) <= r)%nat -> cell zero data i r = zero.
Proof. intros H. unfold cell. now apply nth_overflow. Qed.

(** What [transpose] computes: it indexes no slice out of range, and the
    table it returns has the shape and the cells below. *)
Lemma transpose_Some {T : Type} (zero : T) (data : list (list T)) :
  exists out,
    flexwriter.transpose zero data = Some out /\
    shape (list_max (map (@length T) data)) (length data) out /\
    forall r k, cell zero out r k = cell zero data k r.
Proof.
  unfold flexwriter.transpose. rewrite maxLinesOf_list_max.
  set (m := list_max (map (@length T) data)). set (n := length data).
  destruct (fillColumns_Some zero m n data) with (i := 0%nat)
    (out := repeat (repeat zero n) m) as (out & E & Sh & C).
  - pose proof (proj1 (list_max_le (map (@length T) data) m) (Nat.le_refl _)) as H.
    rewrite Forall_map in H. exact H.
  - split; [apply repeat_length |]. apply Forall_forall.
    intros row In. apply repeat_spec in In. subst row. apply repeat_length.
  - lia.
  - exists out. split; [exact E |]. split; [exact Sh |].
    intros r k. rewrite C, cell_repeat, Nat.sub_0_r. cbn [Nat.leb andb Nat.add].
    fold n.
    destruct (Nat.ltb_spec k n) as [Hk | Hk]; cbn [andb].
    + destruct (Nat.ltb_spec r (length (nth k data []))); [reflexivity |].
      symmetry. now apply cell_overflow.
    + symmetry. apply cell_overflow. rewrite nth_overflow by assumption.
      cbn. lia.
Qed.

(** ** [transpose] *)

(** X10.  [transpose] never indexes out of range.  The table it returns
    has as many rows as the longest column has lines, every row has one
    cell per column, and the cell of row [r] for column [k] is line [r] of
    column [k], the zero value where the column is shorter. *)
Theorem transpose_pads_short_columns {T : Type} (zero : T)
        (data : list (list T)) :
  exists out,
    flexwriter.transpose zero data = Some out /\
    length out = list_max (map (@length T) data) /\
    Forall (fun row => length row = length data) out /\
    forall r k, nth k (nth r out []) zero = nth r (nth k data []) zero.
Proof.
  destruct (transpose_Some zero data) as (out & E & [L F] & C).
  exists out. auto.
Qed.

Lemma shape_cells_ext {T : Type} (zero : T) m n (a b : list (list T)) :
  shape m n a -> shape m n b ->
  (forall r k, cell zero a r k = cell zero b r k) -> a = b.
Proof.
  intros [La Fa] [Lb Fb] C.
  apply (nth_ext a b [] []); [congruence |].
  intros r Hr.
  rewrite Forall_forall in Fa, Fb.
  assert (Ha : length (nth r a []) = n) by (apply Fa, nth_In; lia).
  assert (Hb : length (nth r b []) = n) by (apply Fb, nth_In; lia).
  apply (nth_ext _ _ zero zero); [congruence |].
  intros k _. apply C.
Qed.

Lemma list_max_constant (l : list nat) n :
  l <> [] -> Forall (fun x => x = n) l -> list_max l = n.
Proof.
  intros NE H. destruct l as [| x l]; [contradiction |].
  clear NE. revert x H. induction l as [| y l IH]; intros x H.
  - inversion H as [| ? ? Hx _]. cbn. lia.
  - inversion H as [| ? ? Hx H'].
    change (list_max (x :: y :: l)) with (Nat.max x (list_max (y :: l))).
    rewrite (IH y H'). lia.
Qed.

(** X11.  On a rectangular table -- every column of the same, non-zero
    number of lines -- transposing twice gives the table back. *)
Theorem transpose_twice {T : Type} (zero : T) (data : list (list T)) n :
  (0 < n)%nat -> Forall (fun col => length col = n) data ->
  exists out,
    flexwriter.transpose zero data = Some out /\
    flexwriter.transpose zero out = Some data.
Proof.
  intros Hn R.
  destruct (transpose_Some zero data) as (out & E & Sh & C).
  exists out. split; [exact E |].
  destruct data as [| col data].
  - destruct Sh as [L _]. cbn in L. destruct out; [reflexivity | discriminate].
  - assert (M : list_max (map (@length T) (col :: data)) = n).
    { apply list_max_constant; [discriminate |]. now apply Forall_map. }
    rewrite M in Sh.
    destruct (transpose_Some zero out) as (back & E' & Sh' & C').
    rewrite E'. f_equal.
    assert (M' : list_max (map (@length T) out) = length (col :: data)).
    { destruct Sh as [L F]. apply list_max_constant.
      - destruct out; [cbn in L; lia | discriminate].
      - now apply Forall_map. }
    rewrite M', (proj1 Sh) in Sh'.
    apply (shape_cells_ext zero (length (col :: data)) n);
      [exact Sh' | split; [reflexivity | exact R] |].
    intros r k. now rewrite C', C.
Qed.

Lemma transpose_twice_witness :
  exists out,
    flexwriter.transpose 0 [[1; 2]; [3; 4]; [5; 6]] = Some out /\
    flexwriter.transpose 0 out = Some [[1; 2]; [3; 4]; [5; 6]].
Proof.
  apply (transpose_twice 0 [[1; 2]; [3; 4]; [5; 6]] 2).
  - lia.
  - repeat constructor.
Defined.

(** ** [max] *)

Lemma max_fold rest :
  forall first,
    let m := fold_left (fun max v => if v >? max then v else max) rest first in
    In m (first :: rest) /\ first <= m /\ Forall (fun v => v <= m) rest.
Proof.
  induction rest as [| v rest IH]; intros first; cbn [fold_left].
  - cbn. auto with zarith.
  - cbv zeta. rewrite Z.gtb_ltb.
    destruct (Z.ltb_spec first v) as [H | H].
    + destruct (IH v) as (I & L & F). cbv zeta in *.
      split; [destruct I as [<- | I]; [right; now left | right; now right] |].
      split; [lia | constructor; auto].
    + destruct (IH first) as (I & L & F). cbv zeta in *.
      split; [destruct I as [<- | I]; [now left | right; now right] |].
      split; [lia | constructor; [lia | auto]].
Qed.

(** X12.  [max] of the empty list is 0; of a list with an element it is
    an element of the list, and no element is above it. *)
Theorem max_is_the_greatest_element (first : Z) (rest : list Z) :
  flexwriter.max [] = 0 /\
  In (flexwriter.max (first :: rest)) (first :: rest) /\
  Forall (fun v => v <= flexwriter.max (first :: rest)) (first :: rest).
Proof.
  split; [reflexivity |]. unfold flexwriter.max.
  destruct (max_fold rest first) as (I & L & F). cbv zeta in *.
  split; [exact I | constructor; assumption].
Qed.

(** ** The width of a decorator *)

Lemma wrap_add_wrap a b : wrap (wrap a + b) = wrap (a + b).
Proof.
  unfold wrap. f_equal.
  replace ((a + 2 ^ 63) mod 2 ^ 64 - 2 ^ 63 + b + 2 ^ 63)
    with ((a + 2 ^ 63) mod 2 ^ 64 + b) by lia.
  rewrite Zplus_mod_idemp_l. f_equal. lia.
Qed.

(** The loop of [decoratorWidth] over separators of one and the same
    width [g]. *)
Lemma decoratorWidth_loop (rlen : String.string -> Z)
      (deco : flexwriter.Decorator) g l :
  Forall (fun i => rlen (flexwriter.ColumnSeparator deco 0 (Z.of_nat i)) = g) l ->
  forall x,
    fold_left (fun w i =>
                 add w (rlen (flexwriter.ColumnSeparator deco 0 (Z.of_nat i))))
              l (wrap x)
    = wrap (x + Z.of_nat (length l) * g).
Proof.
  induction 1 as [| i l Hi _ IH]; intros x; cbn [fold_left length].
  - f_equal. lia.
  - rewrite Hi. unfold add at 2. rewrite wrap_add_wrap, IH. f_equal. lia.
Qed.

Lemma decoratorWidth_uniform imports deco g cols :
  (forall i, 1 <= i ->
             flexwriter.text_Len imports (flexwriter.ColumnSeparator deco 0 i)
             = g) ->
  flexwriter.decoratorWidth imports deco cols
  = wrap (flexwriter.text_Len imports (flexwriter.ColumnSeparator deco 0 0)
          + flexwriter.text_Len imports (flexwriter.ColumnSeparator deco 0 (-1))
          + Z.max 0 (cols - 1) * g).
Proof.
  intros H. unfold flexwriter.decoratorWidth. cbv zeta.
  unfold add at 2 3. rewrite wrap_add_wrap. cbn [Z.add].
  rewrite (decoratorWidth_loop _ deco g).
  - rewrite length_seq. f_equal. lia.
  - apply Forall_forall. intros i In. apply in_seq in In. apply H. lia.
Qed.

(** X13.  The width [decoratorWidth] counts for a gap decorator is the
    width of the left gap, plus that of the right gap, plus that of the
    gap between columns once for every column after the first; for no
    column it is what it is for one.  The same holds of the vertical
    borders of a table decorator.  (The sums are those of Go's [int].) *)
Theorem decoratorWidth_counts_one_gap_between_columns
        imports gap left right borders cols :
  flexwriter.decoratorWidth imports (flexwriter.GapDecorator gap left right)
                            cols
  = wrap (flexwriter.text_Len imports left
          + flexwriter.text_Len imports right
          + Z.max 0 (cols - 1) * flexwriter.text_Len imports gap) /\
  flexwriter.decoratorWidth imports (flexwriter.TableDecorator borders) cols
  = wrap (flexwriter.text_Len imports (fst (fst borders))
          + flexwriter.text_Len imports (snd borders)
          + Z.max 0 (cols - 1) * flexwriter.text_Len imports (snd (fst borders))).
Proof.
  split.
  - rewrite (decoratorWidth_uniform imports _
               (flexwriter.text_Len imports gap)); [reflexivity |].
    intros i Hi. cbn.
    destruct (Z.eqb_spec i 0); [lia |].
    destruct (Z.eqb_spec i (-1)); [lia | reflexivity].
  - destruct borders as [[b0 b1] b2].
    rewrite (decoratorWidth_uniform imports _
               (flexwriter.text_Len imports b1)); [reflexivity |].
    intros i Hi. cbn.
    destruct (Z.eqb_spec i 0); [lia |].
    destruct (Z.eqb_spec i (-1)); [lia | reflexivity].
Qed.

(** ** Columns and the cells of a row *)

Lemma store_app {T : Type} (pre post : list T) x v :
  flexwriter.store (pre ++ x :: post) (length pre) v = Some (pre ++ v :: post).
Proof.
  induction pre as [| y pre IH]; cbn; [reflexivity |]. now rewrite IH.
Qed.

Lemma flex_isOmit col :
  if flexwriter.isOmit col then flexwriter.flex col = None
  else exists item, flexwriter.flex col = Some item.
Proof. destruct col; cbn; eauto. Qed.

Lemma SetColumns_loop_spec cols :
  forall pre w,
    flexwriter.omittedCols w = pre ++ repeat false (length cols) ->
    flexwriter.SetColumns_loop cols (length pre) w
    = Some (flexwriter.mkWriter
              (flexwriter.width w) (pre ++ map flexwriter.isOmit cols)
              (flexwriter.omitDefault w)
              (flexwriter.columns w ++ keptColumns cols)
              (flexwriter.defaultCol w) (flexwriter.deco w)
              (flexwriter.buffer w) (flexwriter.colBuffer w)).
Proof.
  induction cols as [| col cols IH]; intros pre w E;
    cbn [flexwriter.SetColumns_loop length repeat map] in *.
  - destruct w; cbn in *. subst. now rewrite !app_nil_r.
  - pose proof (flex_isOmit col) as F.
    unfold keptColumns. cbn [flat_map]. fold (keptColumns cols).
    destruct (flexwriter.isOmit col).
    + rewrite E, store_app, F. cbn [app].
      replace (S (length pre)) with (length (pre ++ [true]))
        by (rewrite length_app; cbn; lia).
      rewrite IH by (cbn; now rewrite <- app_assoc).
      cbn. now rewrite <- app_assoc.
    + destruct F as [item F]. rewrite F.
      replace (S (length pre)) with (length (pre ++ [false]))
        by (rewrite length_app; cbn; lia).
      rewrite IH by (cbn; now rewrite E, <- app_assoc).
      cbn. now rewrite <- !app_assoc.
Qed.

Lemma SetColumns_spec cols w :
  flexwriter.SetColumns cols w
  = Some (flexwriter.mkWriter
            (flexwriter.width w) (map flexwriter.isOmit cols)
            (flexwriter.omitDefault w) (keptColumns cols)
            (flexwriter.defaultCol w) (flexwriter.deco w)
            (flexwriter.buffer w) (flexwriter.colBuffer w)).
Proof.
  unfold flexwriter.SetColumns. cbv zeta.
  rewrite (SetColumns_loop_spec cols []) by reflexivity. reflexivity.
Qed.

(** Cells written past the configured columns. *)
Lemma filterCells_default w cells :
  forall i j,
    (length (flexwriter.omittedCols w) <= i)%nat ->
    (length (flexwriter.columns w) <= j)%nat ->
    combine (map flexwriter.toString (flexwriter.filterCells w i cells))
            (map (flexwriter.getColumnDef w)
                 (seq j (length (flexwriter.filterCells w i cells))))
    = laidOut [] (flexwriter.omitDefault w) (flexwriter.defaultCol w) cells.
Proof.
  induction cells as [| cell rest IH]; intros i j Hi Hj;
    cbn [flexwriter.filterCells laidOut]; [reflexivity |].
  unfold flexwriter.isOmitted.
  rewrite (proj2 (nth_error_None _ _) Hi).
  destruct (flexwriter.omitDefault w) eqn:D.
  - apply IH; lia.
  - cbn [length seq map combine]. f_equal.
    + f_equal. unfold flexwriter.getColumnDef.
      now rewrite (proj2 (nth_error_None _ _) Hj).
    + apply IH; lia.
Qed.

Lemma filterCells_laidOut w cells :
  forall cols pre cpre,
    flexwriter.omittedCols w = pre ++ map flexwriter.isOmit cols ->
    flexwriter.columns w = cpre ++ keptColumns cols ->
    combine (map flexwriter.toString
                 (flexwriter.filterCells w (length pre) cells))
            (map (flexwriter.getColumnDef w)
                 (seq (length cpre)
                      (length (flexwriter.filterCells w (length pre) cells))))
    = laidOut cols (flexwriter.omitDefault w) (flexwriter.defaultCol w) cells.
Proof.
  induction cells as [| cell rest IH]; intros cols pre cpre Eo Ec;
    [reflexivity |].
  destruct cols as [| col cols].
  - cbn [map keptColumns flat_map] in Eo, Ec. rewrite app_nil_r in Eo, Ec.
    apply filterCells_default; [rewrite Eo | rewrite Ec]; lia.
  - cbn [flexwriter.filterCells laidOut].
    unfold flexwriter.isOmitted. cbn [map] in Eo. rewrite Eo.
    rewrite nth_error_app2 by apply Nat.le_refl.
    rewrite Nat.sub_diag. cbn [nth_error].
    pose proof (flex_isOmit col) as F.
    unfold keptColumns in Ec. cbn [flat_map] in Ec. fold (keptColumns cols) in Ec.
    destruct (flexwriter.isOmit col).
    + rewrite F in *. cbn [app] in Ec.
      replace (S (length pre)) with (length (pre ++ [true]))
        by (rewrite length_app; cbn; lia).
      apply IH; [| exact Ec]. rewrite Eo. cbn. now rewrite <- app_assoc.
    + destruct F as [item F]. rewrite F in *.
      cbn [length seq map combine]. f_equal.
      * f_equal. unfold flexwriter.getColumnDef. rewrite Ec.
        rewrite nth_error_app2 by apply Nat.le_refl.
        now rewrite Nat.sub_diag.
      * replace (S (length pre)) with (length (pre ++ [false]))
          by (rewrite length_app; cbn; lia).
        replace (S (length cpre)) with (length (cpre ++ [item]))
          by (rewrite length_app; cbn; lia).
        apply IH; [rewrite Eo | rewrite Ec]; cbn; now rewrite <- app_assoc.
Qed.

(** X14.  [SetColumns] never calls [Omit.flex], and the columns it keeps
    stay aligned with the cells [WriteRow] keeps: the row that is
    buffered holds the cells written for columns that are not omitted,
    in order, and the definition [getColumnDef] gives for a position of
    that row is the one configured for the column the cell was written
    for, the default column past the configured ones. *)
Theorem omitted_columns_keep_cells_and_columns_aligned cols cells w0 :
  exists w row,
    flexwriter.SetColumns cols w0 = Some w /\
    flexwriter.colBuffer (flexwriter.WriteRow cells w)
    = flexwriter.colBuffer w0 ++ [row] /\
    combine row (map (flexwriter.getColumnDef w) (seq 0 (length row)))
    = laidOut cols (flexwriter.omitDefault w0) (flexwriter.defaultCol w0)
              cells.
Proof.
  rewrite SetColumns_spec.
  set (w := flexwriter.mkWriter _ _ _ _ _ _ _ _).
  exists w, (map flexwriter.toString (flexwriter.filterCells w 0 cells)).
  split; [reflexivity |]. split; [reflexivity |].
  rewrite length_map.
  apply (filterCells_laidOut w cells cols [] []); reflexivity.
Qed.

(** ** Widths within the normalized bounds *)

Lemma loopEntry_settled items c :
  Forall (fun it => frozen it = false) items ->
  Forall settled (loopEntry items c).
Proof.
  intros F. unfold loopEntry. rewrite map_map. apply Forall_map.
  eapply Forall_impl; [| exact F]. intros it H. cbn beta.
  apply prefreeze_settled; [apply prepare_prepared |].
  now rewrite (proj1 (proj2 (prepare_frame it))).
Qed.

Lemma returned_widths_bounded items c lens :
  Forall (fun it => frozen it = false) items ->
  result (ResolveFlexLengths items c) = Returned lens ->
  Forall2 (fun it x => 1 <= x /\ normMin it <= x /\
                       (normMax it <> 0 -> x <= normMax it)) items lens.
Proof.
  intros F. rewrite ResolveFlexLengths_unfold.
  destruct (fastPath items c).
  - cbn [result]. intros [= <-]. rewrite map_map.
    apply Forall2_map_right. intros it.
    destruct (prepare_prepared it) as (V & _ & Hm & Hx & _).
    destruct (prepare_fields it) as (_ & _ & Em & Ex & _).
    rewrite <- Em, <- Ex. unfold valid in V. split; [lia | auto].
  - intros R.
    pose proof (distributionLoop_evolves (growing items c)
                  (clampContainerSize c) (S (length items))
                  (loopEntry items c) []) as Ev.
    apply (distributionLoop_returned (Forall settled)) in R.
    + destruct R as (St & AF & ->).
      pose proof (settled_frozen_inBounds _ St AF) as B.
      set (final := itemsAfter _) in *. clearbody final.
      unfold loopEntry in Ev. set (g := growing items c) in *. clearbody g.
      clear - Ev B. revert final Ev B.
      induction items as [| it items IH]; intros final Ev B;
        inversion Ev as [| a x l l' Hax Hl]; subst; cbn [map]; constructor.
      * inversion B as [| ? ? (B1 & B2 & B3 & B4) _]; subst.
        destruct Hax as (Ex & _).
        destruct (sizeIfInflexible_frame g (prepare it)) as (Ex0 & _).
        rewrite Ex0 in Ex. apply exported_fields in Ex.
        destruct Ex as (_ & _ & _ & _ & Em & EM).
        destruct (prepare_fields it) as (_ & _ & Em' & EM' & _).
        rewrite <- Em', <- EM', <- Em, <- EM. split; [lia | auto].
      * apply IH; [exact Hl | now inversion B].
    + intros; eapply pass_settled; eauto.
    + now apply loopEntry_settled.
Qed.

(** ** The widths of the columns *)

Lemma columnItems_nth imports w ls :
  forall j i,
    nth_error (flexwriter.columnItems imports w j ls) i
    = option_map (flexwriter.columnItem imports w (j + i)) (nth_error ls i).
Proof.
  induction ls as [| l ls IH]; intros j [| i];
    cbn [flexwriter.columnItems nth_error option_map]; try reflexivity.
  - now rewrite Nat.add_0_r.
  - rewrite IH. now rewrite Nat.add_succ_r.
Qed.

Lemma columnItems_length imports w ls :
  forall j, length (flexwriter.columnItems imports w j ls) = length ls.
Proof. induction ls; intros j; cbn; auto. Qed.

Lemma columnItem_fields imports w i l :
  let col := flexwriter.flexItem_Item (flexwriter.getColumnDef w i) in
  let it := flexwriter.columnItem imports w i l in
  frozen it = frozen col /\ Grow it = Grow col /\ Shrink it = Shrink col /\
  Max it = Max col /\
  (0 < Max col -> Min it <= Max col) /\
  (0 < Min col -> (0 < Max col -> Min col <= Max col) -> Min it = Min col).
Proof.
  cbv zeta. unfold flexwriter.columnItem. cbv zeta.
  set (col := flexwriter.flexItem_Item (flexwriter.getColumnDef w i)).
  set (mc := flexwriter.colMinContent imports w i).
  cbn [frozen Grow Shrink Max Min set_Size set_Min].
  rewrite !Z.gtb_ltb.
  repeat split; intros;
    destruct (Z.ltb_spec 0 (Min col)); destruct (Z.ltb_spec 0 (Max col));
    cbn [andb]; try lia;
    try (destruct (Z.ltb_spec (Max col) (Min col)); lia);
    try (destruct (Z.ltb_spec (Max col) mc); lia).
Qed.

Lemma getColumnDef_unlaid w i :
  unlaid w -> frozen (flexwriter.flexItem_Item (flexwriter.getColumnDef w i)) = false.
Proof.
  intros [C D]. unfold flexwriter.getColumnDef.
  destruct (nth_error (flexwriter.columns w) i) as [col |] eqn:E; [| exact D].
  rewrite Forall_forall in C. eapply C, nth_error_In, E.
Qed.

Lemma columnItems_unfrozen imports w ls :
  unlaid w ->
  forall j, Forall (fun it => frozen it = false)
                   (flexwriter.columnItems imports w j ls).
Proof.
  intros U. induction ls as [| l ls IH]; intros j;
    cbn [flexwriter.columnItems]; constructor; [| apply IH].
  destruct (columnItem_fields imports w j l) as (F & _). rewrite F.
  now apply getColumnDef_unlaid.
Qed.

(** What [computeWidths] comes to: the flex items it builds and the
    call it ends in.  The lengths of the columns are those of the
    buffered cells, whatever else the writer holds. *)
Lemma computeWidths_unfold imports w :
  exists colLengths,
    length colLengths
    = list_max (map (@length String.string) (flexwriter.colBuffer w)) /\
    forall w',
      flexwriter.colBuffer w' = flexwriter.colBuffer w ->
      flexwriter.computeWidths imports w'
      = match result (ResolveFlexLengths
                        (flexwriter.columnItems imports w' 0 colLengths)
                        (sub (flexwriter.width w')
                             (flexwriter.decoratorWidth
                                imports (flexwriter.deco w')
                                (Z.of_nat (length colLengths))))) with
        | Returned lens => inr lens
        | Panicked p => inl (flexwriter.InFlex p)
        end.
Proof.
  set (rowColLengths :=
         flexwriter.transform
           (flexwriter.colBuffer w)
           (fun rows => flexwriter.transform rows (flexwriter.text_Len imports))).
  destruct (transpose_Some 0 rowColLengths) as (out & E & [L _] & _).
  exists (flexwriter.transform out flexwriter.max). split.
  - unfold flexwriter.transform at 1. rewrite length_map, L.
    unfold rowColLengths, flexwriter.transform. rewrite map_map.
    f_equal. apply map_ext. intros row. apply length_map.
  - intros w' Eb. unfold flexwriter.computeWidths. cbv zeta.
    rewrite Eb. fold rowColLengths. now rewrite E.
Qed.

(** X15.  The list [computeWidths] returns has one width for every
    column of the longest buffered row, and every width is legal for the
    definition of its column: at least 1, at most the column's [Max] when
    that is positive, at least the column's [Min] when that is positive
    and not above a positive [Max]. *)
Theorem computeWidths_gives_every_column_a_legal_width imports w widths :
  unlaid w ->
  flexwriter.computeWidths imports w = inr widths ->
  length widths
  = list_max (map (@length String.string) (flexwriter.colBuffer w)) /\
  forall i x,
    nth_error widths i = Some x ->
    legalWidth (flexwriter.flexItem_Item (flexwriter.getColumnDef w i)) x.
Proof.
  intros U. destruct (computeWidths_unfold imports w) as (ls & L & E).
  rewrite (E w eq_refl). clear E.
  set (c := sub _ _). set (items := flexwriter.columnItems imports w 0 ls).
  destruct (result (ResolveFlexLengths items c)) as [lens | p] eqn:R;
    [| discriminate].
  intros [= <-].
  pose proof (returned_widths_bounded items c lens
                (columnItems_unfrozen imports w ls U 0%nat) R) as B.
  split.
  - rewrite <- (Forall2_length B). unfold items.
    now rewrite columnItems_length.
  - intros i x Hx.
    destruct (Forall2_nth_error_left _ _ _ i x
                (Forall2_flip B) Hx) as (it & Hit & B1 & B2 & B3).
    unfold items in Hit. rewrite columnItems_nth in Hit. cbn [Nat.add] in Hit.
    destruct (nth_error ls i) as [l |]; [| discriminate].
    cbn [option_map] in Hit. injection Hit as <-.
    destruct (columnItem_fields imports w i l) as (_ & _ & _ & EM & Cap & Em).
    cbv zeta in *.
    set (col := flexwriter.flexItem_Item (flexwriter.getColumnDef w i)) in *.
    set (it := flexwriter.columnItem imports w i l) in *.
    unfold normMax, normMin in *. rewrite EM in *.
    split; [exact B1 |]. split.
    + intros Mx. specialize (Cap Mx).
      destruct (Z.eqb_spec (Z.max 0 (Max col)) 0); lia.
    + intros Mn Ok. rewrite (Em Mn Ok) in *. lia.
Qed.

Lemma flex_unfrozen col item :
  flexwriter.flex col = Some item ->
  frozen (flexwriter.flexItem_Item item) = false.
Proof. destruct col; cbn; intros [= <-]; reflexivity. Qed.

Lemma computeWidths_gives_every_column_a_legal_width_witness :
  let w := flexwriter.mkWriter
             30 [] false
             [flexwriter.mkFlexItem (newItem (-1) 0 0 0 0 4) flexwriter.Left]
             (flexwriter.mkFlexItem (newItem 0 1 1 0 0 0) flexwriter.Left)
             (flexwriter.GapDecorator "  " "" "")%string String.EmptyString
             [["abcdefgh"; "x"]; ["ab"; "y"; "z"]]%string in
  length [4; 11; 11]
  = list_max (map (@length String.string) (flexwriter.colBuffer w)) /\
  forall i x,
    nth_error [4; 11; 11] i = Some x ->
    legalWidth (flexwriter.flexItem_Item (flexwriter.getColumnDef w i)) x.
Proof.
  cbv zeta.
  apply (computeWidths_gives_every_column_a_legal_width
           (flexwriter.mkImports
              (fun s => Z.of_nat (String.length s)) (fun s => s)
              (fun s => map (fun _ => 120) (String.list_ascii_of_string s))
              (fun _ => 1))
           (flexwriter.mkWriter
             30 [] false
             [flexwriter.mkFlexItem (newItem (-1) 0 0 0 0 4) flexwriter.Left]
             (flexwriter.mkFlexItem (newItem 0 1 1 0 0 0) flexwriter.Left)
             (flexwriter.GapDecorator "  " "" "")%string String.EmptyString
             [["abcdefgh"; "x"]; ["ab"; "y"; "z"]]%string)
           [4; 11; 11]).
  - split; [repeat constructor | reflexivity].
  - vm_compute; reflexivity.
Defined.

Lemma returned_length items c lens :
  result (ResolveFlexLengths items c) = Returned lens ->
  length lens = length items.
Proof.
  rewrite ResolveFlexLengths_unfold. destruct (fastPath items c).
  - cbn [result]. intros [= <-]. now rewrite !length_map.
  - intros H.
    pose proof (distributionLoop_evolves (growing items c)
                  (clampContainerSize c) (S (length items))
                  (loopEntry items c) []) as Ev.
    apply (distributionLoop_returned (fun _ => True)) in H; auto.
    destruct H as (_ & _ & ->). rewrite length_map.
    rewrite <- (Forall2_length Ev). apply loopEntry_length.
Qed.

Lemma columnItems_same imports w w' ls :
  flexwriter.columns w' = flexwriter.columns w ->
  flexwriter.defaultCol w' = flexwriter.defaultCol w ->
  flexwriter.colBuffer w' = flexwriter.colBuffer w ->
  forall j, flexwriter.columnItems imports w' j ls
            = flexwriter.columnItems imports w j ls.
Proof.
  intros Ec Ed Eb. induction ls as [| l ls IH]; intros j;
    cbn [flexwriter.columnItems]; [reflexivity |].
  rewrite IH. f_equal.
  unfold flexwriter.columnItem, flexwriter.getColumnDef,
    flexwriter.colMinContent.
  now rewrite Ec, Ed, Eb.
Qed.

(** X16.  The width of a column that can neither grow nor shrink (a
    [Rigid] column) does not depend on the width of the output nor on
    the decorator: with another width and another decorator, the same
    buffered rows and the same column definitions give that column the
    same width. *)
Theorem rigid_column_ignores_the_output_width
        imports w width' deco' widths widths' i :
  flexwriter.computeWidths imports w = inr widths ->
  flexwriter.computeWidths
    imports (flexwriter.SetDecorator deco' (flexwriter.SetWidth width' w))
  = inr widths' ->
  Grow (flexwriter.flexItem_Item (flexwriter.getColumnDef w i)) <= 0 ->
  Shrink (flexwriter.flexItem_Item (flexwriter.getColumnDef w i)) <= 0 ->
  nth_error widths i = nth_error widths' i.
Proof.
  set (w' := flexwriter.SetDecorator deco' (flexwriter.SetWidth width' w)).
  destruct (computeWidths_unfold imports w) as (ls & L & E).
  rewrite (E w eq_refl), (E w' eq_refl). clear E.
  set (c := sub _ _). set (c' := sub _ _).
  rewrite (columnItems_same imports w w') by reflexivity. set (items := flexwriter.columnItems imports w 0 ls).
  destruct (result (ResolveFlexLengths items c)) as [lens | p] eqn:R;
    [| discriminate].
  destruct (result (ResolveFlexLengths items c')) as [lens' | p'] eqn:R';
    [| discriminate].
  intros [= <-] [= <-] G Sh.
  destruct (nth_error items i) as [it |] eqn:Hit.
  - assert (Gi : Grow it <= 0 /\ Shrink it <= 0).
    { unfold items in Hit. rewrite columnItems_nth in Hit.
      destruct (nth_error ls i) as [l |]; [| discriminate].
      cbn [option_map Nat.add] in Hit. injection Hit as <-.
      destruct (columnItem_fields imports w i l) as (_ & -> & -> & _).
      auto. }
    destruct Gi as [Gi Si].
    rewrite (inactive_width items c lens i it R Hit),
      (inactive_width items c' lens' i it R' Hit); [reflexivity | |];
      right; unfold inactive; now destruct (growing items _).
  - apply nth_error_None in Hit.
    rewrite (proj2 (nth_error_None lens i)),
      (proj2 (nth_error_None lens' i)); [reflexivity | |];
      [rewrite (returned_length items c' lens' R')
      | rewrite (returned_length items c lens R)]; exact Hit.
Qed.

Lemma rigid_column_ignores_the_output_width_witness :
  let w := flexwriter.mkWriter
             30 [] false
             [flexwriter.mkFlexItem (newItem (-1) 0 0 0 0 4) flexwriter.Left]
             (flexwriter.mkFlexItem (newItem 0 1 1 0 0 0) flexwriter.Left)
             (flexwriter.GapDecorator "  " "" "")%string String.EmptyString
             [["abcdefgh"; "x"]; ["ab"; "y"; "z"]]%string in
  nth_error [4; 11; 11] 0 = nth_error [4; 37; 37] 0.
Proof.
  cbv zeta.
  apply (rigid_column_ignores_the_output_width
           (flexwriter.mkImports
              (fun s => Z.of_nat (String.length s)) (fun s => s)
              (fun s => map (fun _ => 120) (String.list_ascii_of_string s))
              (fun _ => 1))
           (flexwriter.mkWriter
             30 [] false
             [flexwriter.mkFlexItem (newItem (-1) 0 0 0 0 4) flexwriter.Left]
             (flexwriter.mkFlexItem (newItem 0 1 1 0 0 0) flexwriter.Left)
             (flexwriter.GapDecorator "  " "" "")%string String.EmptyString
             [["abcdefgh"; "x"]; ["ab"; "y"; "z"]]%string)
           80 (flexwriter.GapDecorator " " "" "")%string).
  - vm_compute; reflexivity.
  - vm_compute; reflexivity.
  - vm_compute; discriminate.
  - vm_compute; discriminate.
Defined.
(** X20.  A writer without cells -- nothing written, or only rows
    without cells -- has no column: [computeWidths] returns the empty
    list, whatever the width, the decorator and the column definitions
    are, and nothing panics. *)
Theorem computeWidths_without_cells imports w :
  Forall (fun row => row = []) (flexwriter.colBuffer w) ->
  flexwriter.computeWidths imports w = inr [].
Proof.
  intros E. destruct (computeWidths_unfold imports w) as (ls & L & ->);
    [| reflexivity].
  assert (Z0 : list_max (map (@length String.string) (flexwriter.colBuffer w))
               = 0%nat).
  { clear - E. induction E as [| row rows -> _ IH]; [reflexivity |].
    cbn [map length]. change (list_max (0%nat :: ?l)) with (Nat.max 0 (list_max l)).
    rewrite IH. reflexivity. }
  rewrite Z0 in L. destruct ls; [| discriminate].
  cbn [flexwriter.columnItems length].
  unfold ResolveFlexLengths, resolveLoop.
  cbn [map sumHypoMainSizeOf fold_left].
  destruct (0 =? clampContainerSize _); reflexivity.
Qed.

Lemma computeWidths_without_cells_witness :
  flexwriter.computeWidths
    (flexwriter.mkImports
       (fun s => Z.of_nat (String.length s)) (fun s => s)
       (fun s => map (fun _ => 120) (String.list_ascii_of_string s))
       (fun _ => 1))
    (flexwriter.mkWriter
       80 [] false []
       (flexwriter.mkFlexItem (newItem (-1) 0 1 0 0 0) flexwriter.Left)
       (flexwriter.GapDecorator "  " "" "")%string String.EmptyString
       [[]; []])
  = inr [].
Proof.
  apply computeWidths_without_cells. repeat constructor.
Defined.

(** ** Rows written as text *)

Lemma strings_Split_nonempty s sep : flexwriter.strings_Split s sep <> [].
Proof.
  destruct s as [| c s]; cbn; [discriminate |].
  destruct (Ascii.eqb c sep); [discriminate |].
  destruct (flexwriter.strings_Split s sep); discriminate.
Qed.

Lemma strings_Split_lacks s sep :
  lacks sep s = true -> flexwriter.strings_Split s sep = [s].
Proof.
  induction s as [| c s IH]; cbn; [reflexivity |].
  destruct (Ascii.eqb c sep); cbn; [discriminate |].
  intros H. now rewrite (IH H).
Qed.

Lemma strings_Split_append s sep rest :
  lacks sep s = true ->
  flexwriter.strings_Split (String.append s (String.String sep rest)) sep
  = s :: flexwriter.strings_Split rest sep.
Proof.
  induction s as [| c s IH]; cbn.
  - intros _. now rewrite Ascii.eqb_refl.
  - destruct (Ascii.eqb c sep); cbn; [discriminate |].
    intros H. now rewrite (IH H).
Qed.

Lemma lacks_append c a b :
  lacks c (String.append a b) = lacks c a && lacks c b.
Proof.
  induction a as [| x a IH]; cbn; [reflexivity |].
  now rewrite IH, andb_assoc.
Qed.

Lemma strings_Split_joined sep row :
  row <> [] -> Forall (fun cell => lacks sep cell = true) row ->
  flexwriter.strings_Split (joined sep row) sep = row.
Proof.
  intros NE F. induction F as [| cell row H F IH]; [contradiction |].
  destruct row as [| cell' row]; [now apply strings_Split_lacks |].
  change (joined sep (cell :: cell' :: row))
    with (String.append cell (String.String sep (joined sep (cell' :: row)))).
  rewrite strings_Split_append by assumption.
  f_equal. apply IH. discriminate.
Qed.

Lemma lacks_joined c sep row :
  Ascii.eqb sep c = false ->
  Forall (fun cell => lacks c cell = true) row ->
  lacks c (joined sep row) = true.
Proof.
  intros Ne F. induction F as [| cell row H F IH]; [reflexivity |].
  destruct row as [| cell' row]; [exact H |].
  change (joined sep (cell :: cell' :: row))
    with (String.append cell (String.String sep (joined sep (cell' :: row)))).
  rewrite lacks_append. cbn [lacks]. now rewrite H, Ne, IH.
Qed.

Lemma strings_Split_tabbed rows :
  Forall (Forall plainCell) rows ->
  flexwriter.strings_Split (tabbed rows) newline
  = map (joined tab) rows ++ [String.EmptyString].
Proof.
  induction 1 as [| row rows H _ IH]; cbn [tabbed map app]; [reflexivity |].
  rewrite strings_Split_append, IH; [reflexivity |].
  apply lacks_joined; [reflexivity |].
  eapply Forall_impl; [| exact H]. now intros cell [_ ?].
Qed.

Lemma dropTrailingEmpty_app rows :
  flexwriter.dropTrailingEmpty (rows ++ [String.EmptyString]) = rows.
Proof.
  unfold flexwriter.dropTrailingEmpty. rewrite rev_app_distr. cbn.
  apply rev_involutive.
Qed.

Lemma filterCells_set_buffer b w cells :
  forall i, flexwriter.filterCells (flexwriter.set_buffer b w) i cells
            = flexwriter.filterCells w i cells.
Proof.
  induction cells as [| cell rest IH]; intros i; cbn [flexwriter.filterCells];
    [reflexivity |].
  rewrite IH. reflexivity.
Qed.

Lemma writeRow_set_buffer b cells w :
  flexwriter.writeRow cells (flexwriter.set_buffer b w)
  = flexwriter.set_buffer b (flexwriter.writeRow cells w).
Proof.
  unfold flexwriter.writeRow. cbv zeta. rewrite filterCells_set_buffer.
  reflexivity.
Qed.

Lemma writeRow_buffer cells w :
  flexwriter.buffer (flexwriter.writeRow cells w) = flexwriter.buffer w.
Proof. reflexivity. Qed.

Lemma set_buffer_same w :
  flexwriter.set_buffer (flexwriter.buffer w) w = w.
Proof. now destruct w. Qed.

(** X17.  Rows written through [Write] as text -- the cells of a row
    separated by tabs, every row ended by a newline -- are buffered by
    [flushBuffer] as [WriteRow] buffers them cell by cell, provided no
    row is empty and no cell holds a tab or a newline.  (A row without
    cells, written as a lone newline, comes back as one empty cell.) *)
Theorem Write_of_tabbed_rows_is_WriteRow rows w :
  flexwriter.buffer w = String.EmptyString ->
  Forall (fun row => row <> [] /\ Forall plainCell row) rows ->
  flexwriter.flushBuffer (fst (flexwriter.Write (tabbed rows) w))
  = fold_left (fun w row => flexwriter.WriteRow (map flexwriter.aString row) w)
              rows w.
Proof.
  intros B F. unfold flexwriter.Write, flexwriter.flushBuffer. cbn [fst].
  cbn [flexwriter.buffer flexwriter.set_buffer]. rewrite B. cbn [String.append].
  fold newline. fold tab.
  rewrite strings_Split_tabbed, dropTrailingEmpty_app
    by (eapply Forall_impl; [| exact F]; now intros row [_ ?]).
  unfold flexwriter.WriteRow.
  set (w1 := flexwriter.set_buffer (tabbed rows) w).
  assert (G : forall w0,
             fold_left (fun w row =>
                          flexwriter.writeRow
                            (map flexwriter.aString
                                 (flexwriter.strings_Split row tab)) w)
                       (map (joined tab) rows) w0
             = fold_left (fun w row =>
                            flexwriter.writeRow (map flexwriter.aString row) w)
                         rows w0).
  { induction F as [| row rows' [NE P] _ IH]; intros w0; cbn [map fold_left];
      [reflexivity |].
    rewrite strings_Split_joined; [apply IH | exact NE |].
    eapply Forall_impl; [| exact P]. now intros cell [? _]. }
  rewrite G. clear G F.
  assert (H : forall w0 b,
             fold_left (fun w row =>
                          flexwriter.writeRow (map flexwriter.aString row) w)
                       rows (flexwriter.set_buffer b w0)
             = flexwriter.set_buffer
                 b (fold_left (fun w row =>
                                 flexwriter.writeRow
                                   (map flexwriter.aString row) w) rows w0)).
  { induction rows as [| row rows' IH]; intros w0 b; cbn [fold_left];
      [reflexivity |].
    now rewrite writeRow_set_buffer, IH. }
  unfold w1. rewrite H.
  set (w2 := fold_left _ rows w).
  assert (B2 : flexwriter.buffer w2 = String.EmptyString).
  { unfold w2. clear - B. revert w B.
    induction rows as [| row rows' IH]; intros w B; cbn [fold_left];
      [exact B |].
    apply IH. now rewrite writeRow_buffer. }
  rewrite <- (set_buffer_same w2) at 2. rewrite B2. now destruct w2.
Qed.

Lemma Write_of_tabbed_rows_is_WriteRow_witness :
  let w := flexwriter.mkWriter
             80 [false; true] false []
             (flexwriter.mkFlexItem (newItem (-1) 0 1 0 0 0) flexwriter.Left)
             (flexwriter.GapDecorator "  " "" "")%string String.EmptyString
             [] in
  let rows := [["a"; "b"; "c"]; ["d"]]%string in
  flexwriter.flushBuffer (fst (flexwriter.Write (tabbed rows) w))
  = fold_left (fun w row => flexwriter.WriteRow (map flexwriter.aString row) w)
              rows w.
Proof.
  cbv zeta. apply Write_of_tabbed_rows_is_WriteRow.
  - reflexivity.
  - repeat constructor; discriminate.
Defined.

(** ** The longest word *)

Lemma runeTypeOf_width imports r :
  snd (flexwriter.runeTypeOf imports r)
  = flexwriter.runewidth_RuneWidth imports r /\
  fst (flexwriter.runeTypeOf imports r) <> flexwriter.none.
Proof.
  unfold flexwriter.runeTypeOf. cbv zeta.
  destruct (_ >? 1); [split; [reflexivity | discriminate] |].
  destruct (_ =? 0); [split; [reflexivity | discriminate] |].
  destruct (r >? 127); [split; [reflexivity | discriminate] |].
  destruct (r =? 32); split; try reflexivity; discriminate.
Qed.

Lemma runeType_eqb_eq a b :
  flexwriter.runeType_eqb a b = true <-> a = b.
Proof. destruct a, b; cbn; split; congruence. Qed.

Lemma Forall_max_weaken (f : Z -> Z) (m m' : Z) l :
  m <= m' -> Forall (fun r => f r <= m) l -> Forall (fun r => f r <= m') l.
Proof. intros H. apply Forall_impl. intros r. lia. Qed.

Lemma minContent_step_seen imports total seen st r :
  wordsSeen imports total seen st ->
  0 <= flexwriter.runewidth_RuneWidth imports r ->
  total + flexwriter.runewidth_RuneWidth imports r <= max_int ->
  wordsSeen imports (total + flexwriter.runewidth_RuneWidth imports r)
            (seen ++ [r]) (flexwriter.minContent_step imports st r).
Proof.
  intros (Hm & Hl & Hs & Hn) Hr Hb.
  unfold flexwriter.minContent_step.
  destruct (runeTypeOf_width imports r) as [Ew Et].
  destruct (flexwriter.runeTypeOf imports r) as [thisType rw].
  cbn [fst snd] in Ew, Et. subst rw.
  set (rw := flexwriter.runewidth_RuneWidth imports r) in *.
  set (mx := flexwriter.words_max st) in *.
  set (wl := flexwriter.wordLen st) in *.
  assert (Flushed : forall st1,
             st1 = (if negb (flexwriter.runeType_eqb
                               (flexwriter.wordType st) flexwriter.none)
                    then flexwriter.flushWord st else st) ->
             flexwriter.words_max st1 = Z.max mx wl).
  { intros st1 ->.
    destruct (flexwriter.runeType_eqb (flexwriter.wordType st)
                                      flexwriter.none) eqn:N; cbn [negb].
    - apply runeType_eqb_eq in N. specialize (Hn N). fold mx. lia.
    - unfold flexwriter.flushWord. cbn [flexwriter.words_max].
      fold mx wl. rewrite Z.gtb_ltb. destruct (Z.ltb_spec mx wl); lia. }
  destruct (flexwriter.runeType_eqb thisType flexwriter.wideChar).
  - set (st1 := if negb _ then _ else st) in *.
    specialize (Flushed st1 eq_refl).
    unfold wordsSeen, flexwriter.flushWord.
    cbn [flexwriter.words_max flexwriter.wordLen flexwriter.wordType].
    rewrite Flushed, Z.gtb_ltb.
    destruct (Z.ltb_spec (Z.max mx wl) rw);
      (split; [lia |]; split; [lia |]; split; [| reflexivity]);
      apply Forall_app; (split; [| constructor; [lia | constructor]]);
      (eapply Forall_max_weaken; [| exact Hs]); lia.
  - destruct (flexwriter.runeType_eqb thisType (flexwriter.wordType st)) eqn:Same;
      cbn [negb].
    + apply runeType_eqb_eq in Same.
      unfold wordsSeen.
      cbn [flexwriter.words_max flexwriter.wordLen flexwriter.wordType].
      fold mx wl. unfold add.
      rewrite wrap_small by (unfold in_range, min_int, max_int in *; lia).
      split; [lia |]. split; [lia |]. split; [| congruence].
      apply Forall_app. split; [| constructor; [lia | constructor]].
      eapply Forall_max_weaken; [| exact Hs]. lia.
    + set (st1 := if negb _ then _ else st) in *.
      specialize (Flushed st1 eq_refl).
      unfold wordsSeen.
      cbn [flexwriter.words_max flexwriter.wordLen flexwriter.wordType].
      rewrite Flushed.
      split; [lia |]. split; [lia |]. split; [| congruence].
      apply Forall_app. split; [| constructor; [lia | constructor]].
      eapply Forall_max_weaken; [| exact Hs]. lia.
Qed.

Lemma minContent_fold_seen imports runes :
  forall total seen st,
    wordsSeen imports total seen st ->
    Forall (fun r => 0 <= flexwriter.runewidth_RuneWidth imports r) runes ->
    total + zsum (map (flexwriter.runewidth_RuneWidth imports) runes)
    <= max_int ->
    wordsSeen imports
              (total + zsum (map (flexwriter.runewidth_RuneWidth imports) runes))
              (seen ++ runes)
              (fold_left (flexwriter.minContent_step imports) runes st).
Proof.
  induction runes as [| r runes IH]; intros total seen st W F B;
    cbn [fold_left map] in *.
  - rewrite app_nil_r. unfold zsum; cbn. now rewrite Z.add_0_r.
  - rewrite zsum_cons in *. inversion F as [| ? ? Hr F']; subst.
    assert (P : 0 <= zsum (map (flexwriter.runewidth_RuneWidth imports) runes)).
    { clear - F'. induction F'; cbn [map]; rewrite ?zsum_cons;
        [unfold zsum; cbn |]; lia. }
    replace (seen ++ r :: runes) with ((seen ++ [r]) ++ runes)
      by (now rewrite <- app_assoc).
    rewrite Z.add_assoc. apply IH; [| exact F' | lia].
    apply minContent_step_seen; [exact W | exact Hr | lia].
Qed.

(** X18.  When no rune has a negative width and the widths of the runes
    of the text add up to an [int], [minContent] is at least the width
    of every rune of the text, at least 0, and at most the sum of the
    widths of all runes: the longest word is no wider than the text. *)
Theorem minContent_is_between_the_widest_rune_and_the_text imports s :
  Forall (fun r => 0 <= flexwriter.runewidth_RuneWidth imports r)
         (flexwriter.visibleRunes imports s) ->
  zsum (map (flexwriter.runewidth_RuneWidth imports)
            (flexwriter.visibleRunes imports s)) <= max_int ->
  Forall (fun r => flexwriter.runewidth_RuneWidth imports r
                   <= flexwriter.minContent imports s)
         (flexwriter.visibleRunes imports s) /\
  0 <= flexwriter.minContent imports s
  <= zsum (map (flexwriter.runewidth_RuneWidth imports)
               (flexwriter.visibleRunes imports s)).
Proof.
  intros F B. unfold flexwriter.minContent. cbv zeta.
  set (runes := flexwriter.visibleRunes imports s) in *.
  destruct (minContent_fold_seen imports runes 0 []
              (flexwriter.mkWords 0 0 flexwriter.none))
    as (Hm & Hl & Hs & _); [| exact F | lia |].
  { unfold wordsSeen. cbn. repeat split; auto; lia. }
  cbn [app Z.add] in *.
  set (st := fold_left _ runes _) in *.
  assert (E : flexwriter.words_max
                (if negb (flexwriter.wordLen st =? 0)
                 then flexwriter.flushWord st else st)
              = Z.max (flexwriter.words_max st) (flexwriter.wordLen st)).
  { destruct (Z.eqb_spec (flexwriter.wordLen st) 0) as [Z0 | _]; cbn [negb].
    - rewrite Z0. lia.
    - unfold flexwriter.flushWord. cbn [flexwriter.words_max].
      rewrite Z.gtb_ltb.
      destruct (Z.ltb_spec (flexwriter.words_max st) (flexwriter.wordLen st));
        lia. }
  rewrite E. split; [exact Hs | lia].
Qed.

Lemma minContent_is_between_the_widest_rune_and_the_text_witness :
  let imports :=
    flexwriter.mkImports
      (fun s => Z.of_nat (String.length s)) (fun s => s)
      (fun s => map (fun c => Z.of_nat (nat_of_ascii c))
                    (String.list_ascii_of_string s))
      (fun _ => 1) in
  0 <= flexwriter.minContent imports "to wrap"%string <= 7.
Proof.
  cbv zeta.
  apply (minContent_is_between_the_widest_rune_and_the_text
           (flexwriter.mkImports
              (fun s => Z.of_nat (String.length s)) (fun s => s)
              (fun s => map (fun c => Z.of_nat (nat_of_ascii c))
                            (String.list_ascii_of_string s))
              (fun _ => 1)) "to wrap"%string).
  - repeat constructor; discriminate.
  - vm_compute; discriminate.
Defined.

(** ** Aligned cells *)

Lemma wrap_in_range z : in_range (wrap z).
Proof.
  unfold in_range, wrap, min_int, max_int.
  pose proof (Z.mod_pos_bound (z + 2 ^ 63) (2 ^ 64) ltac:(lia)).
  change (2 ^ 64) with (2 * 2 ^ 63) in *. lia.
Qed.

Lemma append_empty s : String.append s String.EmptyString = s.
Proof. induction s as [| c s IH]; cbn; congruence. Qed.

Lemma append_assoc a b c :
  String.append (String.append a b) c = String.append a (String.append b c).
Proof. induction a as [| x a IH]; cbn; congruence. Qed.

Lemma length_append a b :
  String.length (String.append a b) = (String.length a + String.length b)%nat.
Proof. induction a as [| x a IH]; cbn; congruence. Qed.

Lemma length_spaces n : String.length (flexwriter.spaces n) = Z.to_nat n.
Proof.
  unfold flexwriter.spaces. induction (Z.to_nat n) as [| k IH]; cbn; congruence.
Qed.

Lemma padBefore_range al pad : 0 <= pad -> 0 <= padBefore al pad <= pad.
Proof.
  intros H. destruct al; cbn [padBefore]; try lia.
  pose proof (Z.div_pos pad 2).
  pose proof (Z.div_le_upper_bound pad 2 pad). lia.
Qed.

Lemma align_closed imports s width al padRight :
  let text := flexwriter.text_TrimSpace imports s in
  let pad := Z.max 0 (sub width (flexwriter.text_Len imports text)) in
  flexwriter.align imports s width al padRight
  = String.append
      (flexwriter.spaces (padBefore al pad))
      (String.append
         text
         (if padRight then flexwriter.spaces (pad - padBefore al pad)
          else String.EmptyString)).
Proof.
  cbv zeta. unfold flexwriter.align. cbv zeta.
  set (text := flexwriter.text_TrimSpace imports s).
  set (padLen := sub width (flexwriter.text_Len imports text)).
  pose proof (wrap_in_range (width - flexwriter.text_Len imports text)) as R.
  fold (sub width (flexwriter.text_Len imports text)) in R. fold padLen in R.
  destruct (Z.leb_spec padLen 0) as [H | H].
  - replace (Z.max 0 padLen) with 0 by lia.
    assert (E : padBefore al 0 = 0) by (now destruct al).
    rewrite E. cbn [Z.sub Z.opp].
    change (flexwriter.spaces 0) with String.EmptyString.
    cbn [String.append]. destruct padRight; now rewrite ?append_empty.
  - replace (Z.max 0 padLen) with padLen by lia.
    pose proof (padBefore_range flexwriter.Center padLen ltac:(lia)) as P.
    cbn [padBefore] in P.
    assert (Q : quo padLen 2 = padLen / 2).
    { unfold quo. rewrite Z.quot_div_nonneg by lia.
      apply wrap_small. unfold in_range, min_int, max_int in *. lia. }
    assert (D : sub padLen (padLen / 2) = padLen - padLen / 2).
    { unfold sub. apply wrap_small. unfold in_range, min_int, max_int in *.
      lia. }
    destruct al; cbn [padBefore].
    + change (flexwriter.spaces 0) with String.EmptyString.
      cbn [String.append]. rewrite Z.sub_0_r.
      destruct padRight; cbn [negb]; now rewrite ?append_empty.
    + rewrite Q, D.
      destruct padRight; cbn [negb];
        now rewrite ?append_empty, ?append_assoc.
    + rewrite Z.sub_diag.
      change (flexwriter.spaces 0) with String.EmptyString.
      destruct padRight; now rewrite ?append_empty.
Qed.

(** X19.  [align] trims the text and, when it is narrower than the
    width, pads it with spaces: none before it for [Left], half of the
    missing columns (rounded down) for [Center], all of them for
    [Right]; with [padRight] the rest of the missing columns follows the
    text, without it nothing does.  So with [padRight] every alignment
    adds exactly the missing columns, and a text as wide as the width or
    wider is returned trimmed and unpadded.  The missing columns are
    counted in Go's [int]. *)
Theorem align_pads_to_the_width imports s width al padRight :
  let text := flexwriter.text_TrimSpace imports s in
  let pad := Z.max 0 (sub width (flexwriter.text_Len imports text)) in
  flexwriter.align imports s width al padRight
  = String.append
      (flexwriter.spaces (padBefore al pad))
      (String.append
         text
         (if padRight then flexwriter.spaces (pad - padBefore al pad)
          else String.EmptyString)) /\
  Z.of_nat (String.length (flexwriter.align imports s width al true))
  = Z.of_nat (String.length text) + pad.
Proof.
  cbv zeta. split; [apply align_closed |].
  rewrite align_closed. cbv zeta.
  set (text := flexwriter.text_TrimSpace imports s).
  set (pad := Z.max 0 (sub width (flexwriter.text_Len imports text))).
  pose proof (padBefore_range al pad ltac:(lia)).
  rewrite !length_append, !length_spaces. lia.
Qed.
